(** * esdoc2: the generation pipeline of [src/ESDoc.js]

    A shallow embedding of the static methods of class [ESDoc]:
    the duplicate resolver [_resolveDuplication], the path matcher and
    extraction driver ([walkCallback], [_traverse]), the two directory
    walkers ([_walk], [_walkRoot]) and the synchronous part of [generate].

    JavaScript values are modelled as follows.
    - A doc record ([Tag]) is a record; the fields the pipeline reads are
      [kind], [longname], [name] and [__docId__].  Extracted records
      carry a numeric [__docId__]; the synthetic records built by
      [_generateForIndex] and [_generateForPackageJSON] have none, which
      is [None] here ([undefined] in the source).
    - Arrays are lists; [Array.prototype.filter], [find], [includes],
      [sort] and [shift] are the list functions below.
    - Code with effects (file system, console, plugins, exceptions) runs
      in a state-and-exception monad over [RunState]; every observable
      effect is appended to the [trace] of the state.
    - The collaborators that are not part of [ESDoc.js] (the parser, the
      doc factory, the plugin hooks, [fs], [path], [RegExp]) are the
      fields of the class [World]. *)

From Stdlib Require Import List String Ascii ZArith Bool Lia Sorted Permutation.
Import ListNotations.

Local Open Scope string_scope.
Local Open Scope Z_scope.

(** ** Data model *)

(** What [require(packagePath)] evaluates to.  A JSON document whose
    value is falsy ([null], [0], [false], the empty string) is [PkgFalsy];
    anything else is [PkgObj], with the value of
    [packageObj.directories && packageObj.directories.src] when that is a
    string ([None] when it is missing) and the raw descriptor. *)
Inductive PackageValue :=
| PkgFalsy
| PkgObj (directories_src : option string) (descriptor : string).

Record Tag := mkTag {
  kind : string;
  longname : string;
  name : string;
  static : bool;
  access : string;
  __docId__ : option Z;
  content : option string;
  packageObj : option PackageValue
}.

(** [ESDocConfig].  A missing key is [None]; [otherKeys] lists the
    remaining own keys of the object (the ones [_checkOldConfig] looks
    for). *)
Record ESDocConfig := mkConfig {
  root : option string;
  source : option string;
  package : option string;
  destination : option string;
  includes : option (list string);
  excludes : option (list string);
  index : option string;
  plugins : list string;
  otherKeys : list string
}.

(** Truthiness of a value that is a string or [undefined]. *)
Definition truthy (v : option string) : bool :=
  match v with
  | Some s => negb (s =? "")%string
  | None => false
  end.

(** [isFile()] / [isDirectory()] of an [fs.Stats]. *)
Inductive Stat := StatFile | StatDirectory | StatOther.

Definition AST := string.

(** The observable effects of a run, in the order they happen. *)
Inductive Event :=
| EvConsoleLog (msg : string)
| EvConsoleError (msg : string)
| EvLog (level prefix message : string)
| EvPluginInit (ps : list string)
| EvPluginOnStart
| EvPluginOnHandleConfig (config : ESDocConfig)
| EvPluginOnHandleDocs (docs : list Tag)
| EvReaddirSync (p : string)
| EvStatSync (p : string)
| EvReadFileSync (p : string)
| EvRequire (p : string)
| EvOutputFileSync (p : string) (docs : list Tag)
| EvParserParse (filePath : string)
| EvShowFile (filePath err : string)
| EvShow (filePath node : string)
| EvStreamWrite (filePath : string) (ast : AST)
| EvStreamEnd.

Inductive Exn :=
| AssertionError
| TypeError (msg : string)
| SyntaxError (pattern : string)
| FsError (syscall path : string)
| ModuleError (path : string)
| ExtractionError (filePath node : string).

(** How a computation ends: it returns, throws, calls [process.exit],
    or the call depth allowed to the model is used up. *)
Inductive Result (A : Type) :=
| Ok (a : A)
| Throw (e : Exn)
| Exit (code : Z)
| OutOfFuel.

Arguments Ok {A} a.
Arguments Throw {A} e.
Arguments Exit {A} code.
Arguments OutOfFuel {A}.

(** The mutable state of one run of [generate]: the local [results], the
    jobs written to [stringifyWriteTransform], the doc factory's id
    counter, and the trace. *)
Record RunState := mkState {
  results : list Tag;
  astJobs : list (string * AST);
  docSeq : Z;
  trace : list Event
}.

Definition initialState : RunState := mkState [] [] 0 [].

(** ** The monad *)

Definition M (A : Type) : Type := RunState -> Result A * RunState.

Definition ret {A} (a : A) : M A := fun st => (Ok a, st).

Definition bind {A B} (m : M A) (k : A -> M B) : M B :=
  fun st =>
    match m st with
    | (Ok a, st') => k a st'
    | (Throw e, st') => (Throw e, st')
    | (Exit c, st') => (Exit c, st')
    | (OutOfFuel, st') => (OutOfFuel, st')
    end.

Notation "x <- m ;; k" := (bind m (fun x => k))
  (at level 61, m at next level, right associativity).
Notation "m ;; k" := (bind m (fun _ => k))
  (at level 61, right associativity).

Definition throw {A} (e : Exn) : M A := fun st => (Throw e, st).

Definition process_exit {A} (code : Z) : M A := fun st => (Exit code, st).

Definition outOfFuel {A} : M A := fun st => (OutOfFuel, st).

(** [try { m } catch (e) { h }] *)
Definition try_catch {A} (m : M A) (h : Exn -> M A) : M A :=
  fun st =>
    match m st with
    | (Throw e, st') => h e st'
    | r => r
    end.

(** The state after the effects [evs] have been observed. *)
Definition add_trace (st : RunState) (evs : list Event) : RunState :=
  mkState (results st) (astJobs st) (docSeq st) (trace st ++ evs).

Definition emit (ev : Event) : M unit :=
  fun st => (Ok tt, add_trace st [ev]).

(** [results.push(...docs)] *)
Definition results_push (docs : list Tag) : M unit :=
  fun st => (Ok tt, mkState (results st ++ docs) (astJobs st) (docSeq st) (trace st)).

Definition get_results : M (list Tag) := fun st => (Ok (results st), st).

Definition set_results (docs : list Tag) : M unit :=
  fun st => (Ok tt, mkState docs (astJobs st) (docSeq st) (trace st)).

Definition get_docSeq : M Z := fun st => (Ok (docSeq st), st).

Definition set_docSeq (n : Z) : M unit :=
  fun st => (Ok tt, mkState (results st) (astJobs st) n (trace st)).

(** [stringifyWriteTransform.write({filePath, ast})] *)
Definition stream_write (filePath : string) (ast : AST) : M unit :=
  fun st =>
    (Ok tt, mkState (results st) (astJobs st ++ [(filePath, ast)]) (docSeq st)
                    (trace st ++ [EvStreamWrite filePath ast])).

Definition assert (b : bool) : M unit :=
  if b then ret tt else throw AssertionError.

Definition console_log (msg : string) : M unit := emit (EvConsoleLog msg).
Definition console_error (msg : string) : M unit := emit (EvConsoleError msg).
Definition log_info (prefix msg : string) : M unit := emit (EvLog "info" prefix msg).
Definition log_verbose (prefix msg : string) : M unit := emit (EvLog "verbose" prefix msg).

(** ** Collaborators *)

Inductive ExtractOutcome :=
| Extracted (docs : list Tag)
| ExtractFailed (node : string).

Class World := {
  (** [new RegExp(v)] succeeds *)
  RegExp_valid : string -> bool;
  (** [RegExp_match pattern subject]: [subject.match(new RegExp(pattern))]
      is truthy *)
  RegExp_match : string -> string -> bool;
  path_resolve : string -> string;
  path_resolve2 : string -> string -> string;
  path_relative : string -> string -> string;
  path_basename : string -> string;
  path_sep : string;
  (** [fs]: [None] when the call throws *)
  readdirSync : string -> option (list string);
  statSync : string -> option Stat;
  readFileSync : string -> option string;
  (** [require(path)]: [None] when it throws *)
  require : string -> option PackageValue;
  (** [name] and [main] of [JSON.parse(text)]; [None] when it throws *)
  JSON_parse_name_main : string -> option (option string * option string);
  (** [ESParser.parse(filePath)]: the AST or the error *)
  ESParser_parse : string -> AST + string;
  (** [new DocFactory(ast, pathResolver)] followed by
      [ASTUtil.traverse(ast, factory.push)], from the current value of
      the id counter: the records (or the node that failed) and the new
      value of the counter.  The arguments are [inDirPath], [filePath],
      [packageName], [mainFilePath] and the AST. *)
  extract : Z -> string -> string -> option string -> option string -> AST
            -> ExtractOutcome * Z;
  Plugin_onHandleConfig : ESDocConfig -> ESDocConfig;
  Plugin_onHandleDocs : list Tag -> list Tag
}.

(** ** Array primitives used by [_resolveDuplication] *)

(** [a === b] on values that are a number or [undefined]; on these
    values [Array.prototype.includes] (SameValueZero) agrees with it. *)
Definition id_eqb (a b : option Z) : bool :=
  match a, b with
  | Some x, Some y => x =? y
  | None, None => true
  | _, _ => false
  end.

(** [ids.includes(x)] *)
Definition Array_includes (ids : list (option Z)) (x : option Z) : bool :=
  existsb (id_eqb x) ids.

(** The order [Array.prototype.sort] uses with the comparator
    [(a, b) => a < b ? -1 : 1]: [undefined] entries are placed last
    without consulting the comparator, numbers are compared with [<]. *)
Definition id_ltb (a b : option Z) : bool :=
  match a, b with
  | Some x, Some y => x <? y
  | Some _, None => true
  | None, _ => false
  end.

Definition id_leb (a b : option Z) : bool := negb (id_ltb b a).

Fixpoint sort_insert (x : option Z) (l : list (option Z)) : list (option Z) :=
  match l with
  | [] => [x]
  | y :: l' => if id_ltb y x then y :: sort_insert x l' else x :: l
  end.

(** [ids.sort((a, b) => a < b ? -1 : 1)].  The elements are numbers
    (or [undefined]), so equal elements are indistinguishable and the
    sorted array does not depend on the sorting algorithm. *)
Fixpoint sort (l : list (option Z)) : list (option Z) :=
  match l with
  | [] => []
  | x :: l' => sort_insert x (sort l')
  end.

(** [ids.shift()] : drops the first element (nothing on an empty array). *)
Definition shift (l : list (option Z)) : list (option Z) := tl l.

(** ** [_resolveDuplication] (lines 386-412) *)

Definition is_member (doc : Tag) : bool := (kind doc =? "member")%string.

(** [doc.longname === memberDoc.longname && doc.kind !== 'member'] *)
Definition sameLongnameOtherKind (memberDoc doc : Tag) : bool :=
  (longname doc =? longname memberDoc)%string && negb (is_member doc).

(** [doc.longname === memberDoc.longname && doc.kind === 'member'] *)
Definition sameLongnameMember (memberDoc doc : Tag) : bool :=
  (longname doc =? longname memberDoc)%string && is_member doc.

(** One iteration of [for (const memberDoc of memberDocs)]: the ids it
    pushes onto [removeIds]. *)
Definition pushedIds (docs : list Tag) (memberDoc : Tag) : list (option Z) :=
  match find (sameLongnameOtherKind memberDoc) docs with
  | Some _ => [__docId__ memberDoc]
  | None =>
      let dup := filter (sameLongnameMember memberDoc) docs in
      if (1 <? List.length dup)%nat
      then shift (sort (map __docId__ dup))
      else []
  end.

(** The whole loop, [removeIds] being the accumulator. *)
Fixpoint removeIds_loop (docs memberDocs : list Tag)
    (removeIds : list (option Z)) : list (option Z) :=
  match memberDocs with
  | [] => removeIds
  | memberDoc :: rest =>
      removeIds_loop docs rest (removeIds ++ pushedIds docs memberDoc)
  end.

Definition _resolveDuplication (docs : list Tag) : list Tag :=
  let memberDocs := filter is_member docs in
  let removeIds := removeIds_loop docs memberDocs [] in
  filter (fun doc => negb (Array_includes removeIds (__docId__ doc))) docs.

(** ** The pipeline *)

Definition dquote : string := String (Ascii.ascii_of_nat 34) EmptyString.

(** The escape character of the colour codes (U+001B). *)
Definition esc : string := String (Ascii.ascii_of_nat 27) EmptyString.

(** The value of [this] in a static method: the class when the method is
    called as [this._walkRoot(...)] from another static method,
    [undefined] when the method was passed as a function value and is
    called as [recurse(...)] (class bodies are strict-mode code). *)
Inductive ThisValue := ThisESDoc | ThisUndefined.

(** The [recurse] argument of [_walk]. *)
Inductive Recurse := RecurseWalk | RecurseWalkRoot.

(** The value a truthy string-or-undefined holds. *)
Definition as_truthy (v : option string) : option string :=
  match v with
  | Some s => if (s =? "")%string then None else Some s
  | None => None
  end.

Section Pipeline.

Context {W : World}.

Definition fs_readdirSync (p : string) : M (list string) :=
  emit (EvReaddirSync p) ;;
  match readdirSync p with
  | Some entries => ret entries
  | None => throw (FsError "scandir" p)
  end.

Definition fs_statSync (p : string) : M Stat :=
  emit (EvStatSync p) ;;
  match statSync p with
  | Some s => ret s
  | None => throw (FsError "stat" p)
  end.

Definition fs_readFileSync (p : string) : M string :=
  emit (EvReadFileSync p) ;;
  match readFileSync p with
  | Some s => ret s
  | None => throw (FsError "open" p)
  end.

Definition require_module (p : string) : M PackageValue :=
  emit (EvRequire p) ;;
  match require p with
  | Some v => ret v
  | None => throw (ModuleError p)
  end.

(** *** [_traverse] (lines 302-325) *)

Definition _traverse (inDirPath filePath : string)
    (packageName mainFilePath : option string) : M (option (list Tag * AST)) :=
  log_verbose ("parsing: " ++ filePath) "" ;;
  emit (EvParserParse filePath) ;;
  match ESParser_parse filePath with
  | inr e =>
      emit (EvShowFile filePath e) ;;
      ret None
  | inl ast =>
      seq <- get_docSeq ;;
      match extract seq inDirPath filePath packageName mainFilePath ast with
      | (Extracted docs, seq') =>
          set_docSeq seq' ;;
          ret (Some (docs, ast))
      | (ExtractFailed node, seq') =>
          set_docSeq seq' ;;
          emit (EvShow filePath node) ;;
          throw (ExtractionError filePath node)
      end
  end.

(** *** [walkCallback] (lines 106-127) *)

(** [for (const reg of regs) if (relativeFilePath.match(reg)) ...]: the
    loop stops at the first pattern that matches.  The include loop sets
    [match = true] and breaks, the exclude loop returns from the
    callback. *)
Fixpoint someMatch (regs : list string) (relativeFilePath : string) : bool :=
  match regs with
  | [] => false
  | reg :: rest =>
      if RegExp_match reg relativeFilePath then true
      else someMatch rest relativeFilePath
  end.

(** The variables of [generate] that the callbacks close over. *)
Record Closure := mkClosure {
  cl_source : string;
  cl_includes : list string;
  cl_excludes : list string;
  cl_sourceDirPath : string;
  cl_packageName : option string;
  cl_mainFilePath : option string
}.

Definition walkCallback (cl : Closure) (filePath : string) : M unit :=
  let relativeFilePath := path_relative (cl_sourceDirPath cl) filePath in
  let match_ := someMatch (cl_includes cl) relativeFilePath in
  if negb match_ then ret tt
  else if someMatch (cl_excludes cl) relativeFilePath then ret tt
  else
    log_info "parse" filePath ;;
    temp <- _traverse (cl_source cl) filePath (cl_packageName cl) (cl_mainFilePath cl) ;;
    match temp with
    | None => ret tt
    | Some (docs, ast) =>
        results_push docs ;;
        stream_write ("source" ++ path_sep ++ relativeFilePath) ast
    end.

(** *** Synthetic records (lines 333-378) *)

Definition _generateForPackageJSON (packagePath : string)
    (packageObj : option PackageValue) : Tag :=
  mkTag "package" packagePath (path_basename packagePath) true "public"
        None None packageObj.

Definition _generateForIndex (config : ESDocConfig) : M Tag :=
  match index config with
  | None => throw (TypeError "path must be a string")
  | Some indexPath =>
      indexContent <- fs_readFileSync indexPath ;;
      ret (mkTag "index" (path_resolve indexPath) indexPath true "public"
                 None (Some indexContent) None)
  end.

Definition _generateForOldPackageJSON (config : ESDocConfig) : M Tag :=
  read <- try_catch
            (match package config with
             | None => throw (TypeError "path must be a string")
             | Some p =>
                 packageJSON <- fs_readFileSync p ;;
                 ret (packageJSON, path_resolve p)
             end)
            (fun _ => ret ("", "")) ;;
  let '(packageJSON, packagePath) := read in
  let tag := _generateForPackageJSON packagePath None in
  ret (mkTag "packageJSON" (longname tag) (name tag) (static tag) (access tag)
             (__docId__ tag) (Some packageJSON) (packageObj tag)).

(** [walkCallback] as a callback of the walkers: it takes the path and
    ignores a second argument. *)
Definition fileCallback (cl : Closure) (filePath : string)
    (_ : option PackageValue) : M unit :=
  walkCallback cl filePath.

(** [walkRootCallback] (lines 129-135); [fileContents] defaults to
    [null]. *)
Definition walkRootCallback (cl : Closure) (filePath : string)
    (fileContents : option PackageValue) : M unit :=
  if (path_basename filePath =? "package.json")%string
  then results_push [_generateForPackageJSON filePath fileContents]
  else walkCallback cl filePath.

(** *** [_walk] (lines 276-289) and [_walkRoot] (lines 217-268) *)

(** The body of [for (const entry of entries)] in [_walk]. *)
Fixpoint walk_entries (callback : string -> option PackageValue -> M unit)
    (recurse : string -> M unit) (dirPath : string) (entries : list string)
    : M unit :=
  match entries with
  | [] => ret tt
  | entry :: rest =>
      let entryPath := path_resolve2 dirPath entry in
      stat <- fs_statSync entryPath ;;
      match stat with
      | StatFile => callback entryPath None
      | StatDirectory => recurse entryPath
      | StatOther => ret tt
      end ;;
      walk_entries callback recurse dirPath rest
  end.

(** [(packageObj.directories && packageObj.directories.src) || 'src'] *)
Definition srcDirName (directories_src : option string) : string :=
  match as_truthy directories_src with
  | Some s => s
  | None => "src"
  end.

(** The diagnostics of lines 247-254. *)
Definition srcDirMissing (srcDir : string) : string :=
  "Looked for project sources in " ++ srcDir ++ ", but the directory did not exist.".

Definition srcDirNotDirectory (srcDir : string) : string :=
  "Tried to find project sources in " ++ srcDir ++ ", which is not a directory.".

Definition srcDirExplanation : string :=
  "You are seeing this because you attempted to document a folder which contains a package.json file.".

Definition srcDirOverrideHint : string :=
  "If you need to override a package's source directory, set "
  ++ dquote ++ "directories" ++ dquote ++ ": { " ++ dquote ++ "src"
  ++ dquote ++ ": " ++ dquote ++ "mySrcDir" ++ dquote
  ++ " } in package.json.".

(** Lines 238-255 of [_walkRoot]: stat the source directory and log
    when it is missing or not a directory.  Nothing is returned: the
    caller goes on either way. *)
Definition checkSrcDir (srcDir : string) : M unit :=
  srcDirStat <- try_catch (s <- fs_statSync srcDir ;; ret (Some s))
                          (fun _ => ret None) ;;
  error <- match srcDirStat with
           | None =>
               console_error (srcDirMissing srcDir) ;;
               ret true
           | Some StatDirectory => ret false
           | Some _ =>
               console_error (srcDirNotDirectory srcDir) ;;
               ret true
           end ;;
  if (error : bool) then
    console_error srcDirExplanation ;;
    console_error srcDirOverrideHint
  else ret tt.

(** The depth of the JavaScript call stack is the [fuel]: each call of
    [_walk] or [_walkRoot] uses one unit. *)
Fixpoint _walk (fuel : nat) (dirPath : string)
    (callback : string -> option PackageValue -> M unit) (recurse : Recurse)
    {struct fuel} : M unit :=
  match fuel with
  | O => outOfFuel
  | S fuel' =>
      entries <- fs_readdirSync dirPath ;;
      walk_entries callback
        (fun entryPath =>
           match recurse with
           | RecurseWalk => _walk fuel' entryPath callback RecurseWalk
           | RecurseWalkRoot => _walkRoot fuel' ThisUndefined entryPath callback
           end)
        dirPath entries
  end
with _walkRoot (fuel : nat) (this : ThisValue) (dirPath : string)
    (callback : string -> option PackageValue -> M unit) {struct fuel} : M unit :=
  match fuel with
  | O => outOfFuel
  | S fuel' =>
      entries <- fs_readdirSync dirPath ;;
      let hasPackageJson := existsb (String.eqb "package.json") entries in
      if hasPackageJson then
        let packagePath := path_resolve2 dirPath "package.json" in
        packageObj <- try_catch
                        (v <- require_module packagePath ;;
                         console_log ("Found package at " ++ packagePath) ;;
                         ret (Some v))
                        (fun _ =>
                           console_error ("Failed to parse package at " ++ packagePath) ;;
                           ret None) ;;
        match packageObj with
        | Some (PkgObj directories_src descriptor) =>
            let srcDir := path_resolve2 dirPath (srcDirName directories_src) in
            checkSrcDir srcDir ;;
            callback packagePath packageObj ;;
            match this with
            | ThisESDoc => _walkRoot fuel' ThisESDoc srcDir callback
            | ThisUndefined => throw (TypeError "Cannot read property '_walkRoot' of undefined")
            end
        | _ =>
            console_error ("Found unparseable package.json at " ++ packagePath
                           ++ ". Aborting.")
        end
      else
        match this with
        | ThisESDoc => _walk fuel' dirPath callback RecurseWalkRoot
        | ThisUndefined => throw (TypeError "Cannot read property '_walk' of undefined")
        end
  end.

(** What [recurse(entryPath, callback, recurse)] calls in the loop of
    [_walk]. *)
Definition recurse_call (fuel : nat)
    (callback : string -> option PackageValue -> M unit) (recurse : Recurse)
    (entryPath : string) : M unit :=
  match recurse with
  | RecurseWalk => _walk fuel entryPath callback RecurseWalk
  | RecurseWalkRoot => _walkRoot fuel ThisUndefined entryPath callback
  end.

(** *** [_checkOldConfig] (lines 171-199) *)

Definition oldKeys : list (string * string) :=
  [ ("access", "esdoc2-standard-plugin");
    ("autoPrivate", "esdoc2-standard-plugin");
    ("unexportIdentifier", "esdoc2-standard-plugin");
    ("undocumentIdentifier", "esdoc2-standard-plugin");
    ("builtinExternal", "esdoc2-standard-plugin");
    ("coverage", "esdoc2-standard-plugin");
    ("test", "esdoc2-standard-plugin");
    ("title", "esdoc2-standard-plugin");
    ("manual", "esdoc2-standard-plugin");
    ("lint", "esdoc2-standard-plugin");
    ("includeSource", "esdoc2-exclude-source-plugin");
    ("styles", "esdoc2-inject-style-plugin");
    ("scripts", "esdoc2-inject-script-plugin");
    ("experimentalProposal", "esdoc2-ecmascript-proposal-plugin") ].

(** [key in config], for a key of [oldKeys]. *)
Definition key_in (key : string) (config : ESDocConfig) : bool :=
  existsb (String.eqb key) (otherKeys config).

Fixpoint checkOldKeys (keys : list (string * string)) (config : ESDocConfig)
    (exit : bool) : M bool :=
  match keys with
  | [] => ret exit
  | (key, plugin) :: rest =>
      if key_in key config then
        console_error (esc ++ "[31merror: config." ++ key ++ " is invalid. Please use "
                       ++ plugin
                       ++ ". how to migration: https://esdoc2.org/manual/migration.html"
                       ++ esc ++ "[0m") ;;
        checkOldKeys rest config true
      else checkOldKeys rest config exit
  end.

Definition _checkOldConfig (config : ESDocConfig) : M unit :=
  exit <- checkOldKeys oldKeys config false ;;
  if (exit : bool) then process_exit 1 else ret tt.

(** *** [_setDefaultConfig] (lines 206-214)

    The source assigns to the fields of [config]; here the updated
    configuration is returned. *)
Definition _setDefaultConfig (config : ESDocConfig) : ESDocConfig :=
  let includes' :=
    match includes config with
    | None => Some ["\.js$"]
    | Some l => Some l
    end in
  let excludes' :=
    match excludes config with
    | None => Some ["\.config\.js$"; "\.test\.js$"]
    | Some l => Some l
    end in
  let index' := if truthy (index config) then index config else Some "./README.md" in
  let package' :=
    if truthy (source config) && negb (truthy (package config))
    then Some "./package.json" else package config in
  mkConfig (root config) (source config) package' (destination config)
           includes' excludes' index' (plugins config) (otherKeys config).

(** *** [generate] (lines 29-164)

    The body of the promise executor, which runs synchronously when
    [generate] is called; a [Throw] is the rejection of the promise.
    What runs later, from the events of [stringifyWriteTransform] (the
    AST files, [_publish], [Plugin.onComplete]), is outside this
    model. *)

(** [patterns.map((v) => new RegExp(v))] *)
Fixpoint compileAll (patterns : list string) : M (list string) :=
  match patterns with
  | [] => ret []
  | v :: rest =>
      (if RegExp_valid v then ret tt else throw (SyntaxError v)) ;;
      regs <- compileAll rest ;;
      ret (v :: regs)
  end.

(** Lines 49-60: [packageName] and [mainFilePath]. *)
Definition readPackageNameMain (config : ESDocConfig)
    : M (option string * option string) :=
  match as_truthy (package config) with
  | Some p =>
      try_catch
        (packageJSON <- fs_readFileSync p ;;
         match JSON_parse_name_main packageJSON with
         | Some nm => ret nm
         | None => throw (SyntaxError packageJSON)
         end)
        (fun _ => ret (None, None))
  | None => ret (None, None)
  end.

(** Lines 46-162, with the configuration [generate] has after
    [_setDefaultConfig]. *)
Definition generate_run (fuel : nat) (config : ESDocConfig) : M unit :=
  includes <- match includes config with
              | Some l => compileAll l
              | None => throw (TypeError "Cannot read property 'map' of undefined")
              end ;;
  excludes <- match excludes config with
              | Some l => compileAll l
              | None => throw (TypeError "Cannot read property 'map' of undefined")
              end ;;
  nm <- readPackageNameMain config ;;
  let '(packageName, mainFilePath) := nm in
  set_results [] ;;
  source_ <- match source config with
             | Some s => ret s
             | None => throw (TypeError "The path argument must be of type string")
             end ;;
  let sourceDirPath := path_resolve source_ in
  let cl := mkClosure source_ includes excludes sourceDirPath packageName mainFilePath in
  match as_truthy (root config) with
  | Some root_ => _walkRoot fuel ThisESDoc root_ (walkRootCallback cl)
  | None => _walk fuel source_ (fileCallback cl) RecurseWalk
  end ;;
  emit EvStreamEnd ;;
  (if truthy (index config)
   then tag <- _generateForIndex config ;; results_push [tag]
   else ret tt) ;;
  (if truthy (package config)
   then tag <- _generateForOldPackageJSON config ;; results_push [tag]
   else ret tt) ;;
  docs <- get_results ;;
  set_results (_resolveDuplication docs) ;;
  docs <- get_results ;;
  emit (EvPluginOnHandleDocs docs) ;;
  set_results (Plugin_onHandleDocs docs) ;;
  docs <- get_results ;;
  match destination config with
  | Some dest => emit (EvOutputFileSync (path_resolve2 dest "index.json") docs)
  | None => throw (TypeError "The path argument must be of type string")
  end.

(** Lines 31-36: the assertions. *)
Definition validate (config : ESDocConfig) : M unit :=
  assert (truthy (root config) || truthy (source config)) ;;
  (if truthy (root config)
   then assert (negb (truthy (source config))) ;;
        assert (negb (truthy (package config)))
   else ret tt) ;;
  assert (truthy (destination config)).

Definition generate (fuel : nat) (config : ESDocConfig) : M unit :=
  validate config ;;
  _checkOldConfig config ;;
  emit (EvPluginInit (plugins config)) ;;
  emit EvPluginOnStart ;;
  emit (EvPluginOnHandleConfig config) ;;
  let config := Plugin_onHandleConfig config in
  let config := _setDefaultConfig config in
  generate_run fuel config.

End Pipeline.

(** ** Specification predicates *)

(** [Subseq l1 l2]: [l1] is [l2] with some elements dropped, the others
    in their order. *)
Inductive Subseq {A : Type} : list A -> list A -> Prop :=
| Subseq_nil : Subseq [] []
| Subseq_skip : forall x l1 l2, Subseq l1 l2 -> Subseq l1 (x :: l2)
| Subseq_keep : forall x l1 l2, Subseq l1 l2 -> Subseq (x :: l1) (x :: l2).

Section Predicates.

Context {W : World}.

(** The path [filePath] matches at least one include pattern and none of
    the exclude patterns. *)
Definition accepted (cl : Closure) (filePath : string) : Prop :=
  let relativeFilePath := path_relative (cl_sourceDirPath cl) filePath in
  (exists reg, In reg (cl_includes cl) /\ RegExp_match reg relativeFilePath = true) /\
  (forall reg, In reg (cl_excludes cl) -> RegExp_match reg relativeFilePath = false).

(** Between the states [st] and [st'] the file was handed to extraction:
    the parser was called on it. *)
Definition submitted (filePath : string) (st st' : RunState) : Prop :=
  exists evs, trace st' = (trace st ++ evs)%list /\ In (EvParserParse filePath) evs.

(** The effects of [_walkRoot] on a directory whose descriptor does not
    load. *)
Definition unparseableEvents (dirPath : string) : list Event :=
  let packagePath := path_resolve2 dirPath "package.json" in
  [EvReaddirSync dirPath; EvRequire packagePath;
   EvConsoleError ("Failed to parse package at " ++ packagePath);
   EvConsoleError ("Found unparseable package.json at " ++ packagePath ++ ". Aborting.")].

(** What [checkSrcDir] does, by the outcome of [fs.statSync]. *)
Definition checkSrcDirEvents (srcDir : string) : list Event :=
  EvStatSync srcDir ::
  match statSync srcDir with
  | None =>
      [EvConsoleError (srcDirMissing srcDir);
       EvConsoleError srcDirExplanation; EvConsoleError srcDirOverrideHint]
  | Some StatDirectory => []
  | Some _ =>
      [EvConsoleError (srcDirNotDirectory srcDir);
       EvConsoleError srcDirExplanation; EvConsoleError srcDirOverrideHint]
  end.

(** The effects of [_walkRoot] on a package up to the call of the
    callback, when the source directory is missing. *)
Definition missingSrcEvents (dirPath srcDir : string) : list Event :=
  let packagePath := path_resolve2 dirPath "package.json" in
  [EvReaddirSync dirPath; EvRequire packagePath;
   EvConsoleLog ("Found package at " ++ packagePath);
   EvStatSync srcDir;
   EvConsoleError (srcDirMissing srcDir);
   EvConsoleError srcDirExplanation;
   EvConsoleError srcDirOverrideHint].

(** *** The fixed-source walk as a list of files *)

(** [accepted], as the two loops of [walkCallback] compute it. *)
Definition is_accepted (cl : Closure) (filePath : string) : bool :=
  let relativeFilePath := path_relative (cl_sourceDirPath cl) filePath in
  someMatch (cl_includes cl) relativeFilePath
  && negb (someMatch (cl_excludes cl) relativeFilePath).

(** The files [_walk] calls the callback on, in that order, when every
    call of [fs] succeeds and the directories are at most [fuel] deep;
    [None] otherwise. *)
Fixpoint listEntries (list_dir : string -> option (list string))
    (dirPath : string) (entries : list string) : option (list string) :=
  match entries with
  | [] => Some []
  | entry :: rest =>
      let entryPath := path_resolve2 dirPath entry in
      match statSync entryPath with
      | Some StatFile => option_map (cons entryPath) (listEntries list_dir dirPath rest)
      | Some StatDirectory =>
          match list_dir entryPath, listEntries list_dir dirPath rest with
          | Some below, Some after => Some (below ++ after)%list
          | _, _ => None
          end
      | Some StatOther => listEntries list_dir dirPath rest
      | None => None
      end
  end.

Fixpoint listFiles (fuel : nat) (dirPath : string) : option (list string) :=
  match fuel with
  | O => None
  | S fuel' =>
      match readdirSync dirPath with
      | Some entries => listEntries (listFiles fuel') dirPath entries
      | None => None
      end
  end.

(** What a sequence of files contributes to [results] and to the AST
    jobs, the id counter starting at [seq]: the records and the AST of
    every accepted file that parses, nothing for a file that is not
    accepted or whose parse fails.  [None] when the doc factory fails
    on some file. *)
Fixpoint collect (cl : Closure) (files : list string) (seq : Z)
    : option (list Tag * list (string * AST) * Z) :=
  match files with
  | [] => Some ([], [], seq)
  | filePath :: rest =>
      if is_accepted cl filePath then
        match ESParser_parse filePath with
        | inr _ => collect cl rest seq
        | inl ast =>
            match extract seq (cl_source cl) filePath (cl_packageName cl)
                          (cl_mainFilePath cl) ast with
            | (Extracted docs, seq') =>
                match collect cl rest seq' with
                | Some (docs', jobs', seq'') =>
                    Some ((docs ++ docs')%list,
                          ("source" ++ path_sep
                           ++ path_relative (cl_sourceDirPath cl) filePath, ast) :: jobs',
                          seq'')
                | None => None
                end
            | (ExtractFailed _, _) => None
            end
        end
      else collect cl rest seq
  end.

(** [packageName] and [mainFilePath] as lines 49-60 compute them. *)
Definition packageNameMain (config : ESDocConfig) : option string * option string :=
  match as_truthy (package config) with
  | Some p =>
      match readFileSync p with
      | Some packageJSON =>
          match JSON_parse_name_main packageJSON with
          | Some nm => nm
          | None => (None, None)
          end
      | None => (None, None)
      end
  | None => (None, None)
  end.

(** The closure of the callbacks in fixed-source mode. *)
Definition closure_of (config : ESDocConfig) (source_ : string)
    (includes excludes : list string) : Closure :=
  mkClosure source_ includes excludes (path_resolve source_)
            (fst (packageNameMain config)) (snd (packageNameMain config)).

(** The index record, for an index file with the text [indexContent]. *)
Definition indexTag (indexPath indexContent : string) : Tag :=
  mkTag "index" (path_resolve indexPath) indexPath true "public"
        None (Some indexContent) None.

(** The record of [_generateForOldPackageJSON]. *)
Definition oldPackageTag (config : ESDocConfig) : Tag :=
  let read :=
    match package config with
    | Some p =>
        match readFileSync p with
        | Some packageJSON => (packageJSON, path_resolve p)
        | None => ("", "")
        end
    | None => ("", "")
    end in
  mkTag "packageJSON" (snd read) (path_basename (snd read)) true "public"
        None (Some (fst read)) None.

(** The records appended after the walk. *)
Definition syntheticTags (config : ESDocConfig) (idx text : string) : list Tag :=
  indexTag idx text :: (if truthy (package config) then [oldPackageTag config] else []).

(** From [st] to [st'] the run has added the records [docs] and the AST
    jobs [jobs], moved the id counter to [seq'] and only extended the
    trace. *)
Definition contributes (st st' : RunState) (docs : list Tag)
    (jobs : list (string * AST)) (seq' : Z) : Prop :=
  results st' = (results st ++ docs)%list /\
  astJobs st' = (astJobs st ++ jobs)%list /\
  docSeq st' = seq' /\
  exists evs, trace st' = (trace st ++ evs)%list.

(** The assertions of [generate] hold. *)
Definition valid_config (config : ESDocConfig) : bool :=
  (truthy (root config) || truthy (source config)) &&
  (if truthy (root config)
   then negb (truthy (source config)) && negb (truthy (package config))
   else true) &&
  truthy (destination config).

(** None of the keys [_checkOldConfig] rejects is present. *)
Definition no_old_keys (config : ESDocConfig) : bool :=
  forallb (fun kp => negb (key_in (fst kp) config)) oldKeys.

End Predicates.

(** What [walkCallback] logs when it hands a file to [_traverse], up to
    the call of the parser. *)
Definition submitEvents (filePath : string) : list Event :=
  [EvLog "info" "parse" filePath; EvLog "verbose" ("parsing: " ++ filePath) "";
   EvParserParse filePath].

(** Some member record of the collection pushes the id of [d] onto
    [removeIds]. *)
Definition removed (docs : list Tag) (d : Tag) : Prop :=
  exists m, In m docs /\ is_member m = true /\ In (__docId__ d) (pushedIds docs m).

(** Pairwise-distinct creation-sequence ids. *)
Definition distinct_ids (docs : list Tag) : Prop := NoDup (map __docId__ docs).

(** No two member records share an id. *)
Definition distinct_member_ids (docs : list Tag) : Prop :=
  NoDup (map __docId__ (filter is_member docs)).

(** [a <= b] in the order of the sort: numbers by value, a missing id
    after every number. *)
Definition id_le (a b : option Z) : Prop := id_leb a b = true.


(** ** Concrete inputs *)

(** A plain extracted record. *)
Definition doc (k L : string) (id : Z) : Tag :=
  mkTag k L L false "public" (Some id) None None.

(** The spec's examples. *)
Definition fooX_docs : list Tag := [doc "member" "Foo#x" 1; doc "method" "Foo#x" 2].

Definition fooY_docs : list Tag := [doc "member" "Foo#y" 1; doc "member" "Foo#y" 2].

(** The same after the walk of a fixed-source run: the index and the
    package records, which carry no id, follow the extracted ones. *)
Definition fooY_run_docs : list Tag :=
  fooY_docs ++
  [mkTag "index" "./README.md" "./README.md" true "public" None (Some "# readme") None;
   mkTag "packageJSON" "./package.json" "package.json" true "public" None (Some "{}") None].

(** Two groups of member records in which id 1 is used twice. *)
Definition shared_id_docs : list Tag :=
  [doc "member" "A" 1; doc "member" "A" 2; doc "member" "B" 0; doc "member" "B" 1].

Definition mixed_docs : list Tag :=
  [doc "class" "Foo" 1; doc "member" "Foo#x" 2; doc "method" "Foo#x" 3;
   doc "member" "Foo#y" 5; doc "member" "Foo#y" 4].

(** A finite world given by tables.  Paths are joined with "/";
    [path.resolve] of one path is the identity (the paths of the tables
    are absolute or relative to a fixed working directory). *)

Fixpoint lookup {A : Type} (k : string) (table : list (string * A)) : option A :=
  match table with
  | [] => None
  | (k', v) :: rest => if (k =? k')%string then Some v else lookup k rest
  end.

Fixpoint strip_prefix (p s : string) : option string :=
  match p, s with
  | EmptyString, _ => Some s
  | String a p', String b s' => if Ascii.eqb a b then strip_prefix p' s' else None
  | String _ _, EmptyString => None
  end.

Fixpoint basename_from (s acc : string) : string :=
  match s with
  | EmptyString => acc
  | String c s' =>
      if Ascii.eqb c "/"%char then basename_from s' ""
      else basename_from s' (acc ++ String c EmptyString)
  end.

Fixpoint ends_with_len (n : nat) (suffix s : string) : bool :=
  match n with
  | O => (suffix =? s)%string
  | S n' =>
      (suffix =? s)%string ||
      match s with
      | EmptyString => false
      | String _ s' => ends_with_len n' suffix s'
      end
  end.

Definition ends_with (suffix s : string) : bool :=
  ends_with_len (String.length s) suffix s.

(** The patterns of the tables are the default ones, which test a
    suffix of the subject. *)
Definition suffix_of_pattern (pattern : string) : option string :=
  lookup pattern
    [("\.js$", ".js"); ("\.config\.js$", ".config.js"); ("\.test\.js$", ".test.js")].

Definition tableWorld
    (dirs : list (string * list string))
    (stats : list (string * Stat))
    (files : list (string * string))
    (modules : list (string * PackageValue))
    (sources : list (string * (AST + string)))
    (factory : list (string * ExtractOutcome))
    (configHook : ESDocConfig -> ESDocConfig) : World :=
  {| RegExp_valid := fun pattern =>
       match suffix_of_pattern pattern with Some _ => true | None => false end;
     RegExp_match := fun pattern subject =>
       match suffix_of_pattern pattern with
       | Some suffix => ends_with suffix subject
       | None => false
       end;
     path_resolve := fun p => p;
     path_resolve2 := fun d e => d ++ "/" ++ e;
     path_relative := fun from to =>
       match strip_prefix (from ++ "/") to with
       | Some rel => rel
       | None => to
       end;
     path_basename := fun p => basename_from p "";
     path_sep := "/";
     readdirSync := fun p => lookup p dirs;
     statSync := fun p => lookup p stats;
     readFileSync := fun p => lookup p files;
     require := fun p => lookup p modules;
     JSON_parse_name_main := fun _ => Some (None, None);
     ESParser_parse := fun p =>
       match lookup p sources with
       | Some r => r
       | None => inr "ENOENT"
       end;
     extract := fun seq _ filePath _ _ _ =>
       match lookup filePath factory with
       | Some (Extracted docs) =>
           (Extracted (map (fun d => mkTag (kind d) (longname d) (name d) (static d)
                                          (access d)
                                          (option_map (Z.add seq) (__docId__ d))
                                          (content d) (packageObj d)) docs),
            seq + Z.of_nat (List.length docs))
       | Some (ExtractFailed node) => (ExtractFailed node, seq)
       | None => (Extracted [], seq)
       end;
     Plugin_onHandleConfig := configHook;
     Plugin_onHandleDocs := fun docs => docs |}.

(** A source tree with two files that parse and one that does not. *)
Definition srcWorld : World :=
  tableWorld
    [("./src", ["good1.js"; "bad.js"; "lib"; "notes.txt"]); ("./src/lib", ["good2.js"; "good2.test.js"])]
    [("./src/good1.js", StatFile); ("./src/bad.js", StatFile); ("./src/lib", StatDirectory);
     ("./src/notes.txt", StatFile); ("./src/lib/good2.js", StatFile);
     ("./src/lib/good2.test.js", StatFile)]
    [("./README.md", "# readme"); ("./package.json", "{}")]
    []
    [("./src/good1.js", inl "ast1"); ("./src/bad.js", inr "Unexpected token");
     ("./src/lib/good2.js", inl "ast2"); ("./src/lib/good2.test.js", inl "ast3")]
    [("./src/good1.js", Extracted [doc "class" "Good1" 1; doc "member" "Good1#x" 2]);
     ("./src/lib/good2.js", Extracted [doc "function" "good2" 1])]
    (fun config => config).

Definition srcConfig : ESDocConfig :=
  mkConfig None (Some "./src") None (Some "./out") None None None [] [].

Definition srcRun : Result unit * RunState :=
  @generate srcWorld 3 srcConfig initialState.

(** A configuration with both [root] and [source]. *)
Definition conflictingConfig : ESDocConfig :=
  mkConfig (Some "./") (Some "./src") None (Some "./out") None None None [] [].

(** A package whose source directory does not exist. *)
Definition missingSrcWorld : World :=
  tableWorld
    [("/proj", ["package.json"; "README.md"])]
    [("/proj/package.json", StatFile); ("/proj/README.md", StatFile)]
    [("/proj/README.md", "# readme")]
    [("/proj/package.json", PkgObj None "{}")]
    [] []
    (fun config => config).

(** A root without descriptor that holds a package whose descriptor does
    not parse and, after it, an ordinary directory with one file. *)
Definition siblingsWorld : World :=
  tableWorld
    [("/root", ["broken"; "docs"]); ("/root/broken", ["package.json"; "src"]);
     ("/root/broken/src", ["hidden.js"]); ("/root/docs", ["a.js"])]
    [("/root/broken", StatDirectory); ("/root/docs", StatDirectory);
     ("/root/broken/package.json", StatFile); ("/root/broken/src", StatDirectory);
     ("/root/broken/src/hidden.js", StatFile); ("/root/docs/a.js", StatFile)]
    [("./README.md", "# readme")]
    []
    [("/root/docs/a.js", inl "astA"); ("/root/broken/src/hidden.js", inl "astH")]
    [("/root/docs/a.js", Extracted [doc "function" "a" 1])]
    (fun config => config).

(** The run of [srcConfig] in [srcWorld]. *)
Definition srcConfig' : ESDocConfig := _setDefaultConfig srcConfig.

Definition srcClosure : Closure :=
  @closure_of srcWorld srcConfig' "./src" ["\.js$"] ["\.config\.js$"; "\.test\.js$"].

Definition srcFiles : list string :=
  ["./src/good1.js"; "./src/bad.js"; "./src/lib/good2.js"; "./src/lib/good2.test.js";
   "./src/notes.txt"].

Definition srcDocs : list Tag :=
  [doc "class" "Good1" 1; doc "member" "Good1#x" 2; doc "function" "good2" 3].

Definition srcJobs : list (string * AST) :=
  [("source/good1.js", "ast1"); ("source/lib/good2.js", "ast2")].

(** The callback of root mode over [missingSrcWorld] and [siblingsWorld]. *)
Definition missingSrcCallback : string -> option PackageValue -> M unit :=
  @walkRootCallback missingSrcWorld
    (mkClosure "" ["\.js$"] ["\.config\.js$"; "\.test\.js$"] "" None None).

Definition siblingsCallback : string -> option PackageValue -> M unit :=
  @walkRootCallback siblingsWorld
    (mkClosure "" ["\.js$"] ["\.config\.js$"; "\.test\.js$"] "" None None).

(** A root-mode configuration.  [source] is the empty string: next to
    [root] it has to be falsy, and [path.resolve(config.source)] needs a
    string. *)
Definition missingSrcConfig : ESDocConfig :=
  mkConfig (Some "/proj") (Some "") None (Some "/out") None None None [] [].

(** The root-mode configuration for [siblingsWorld]. *)
Definition siblingsConfig : ESDocConfig :=
  mkConfig (Some "/root") (Some "") None (Some "/out") None None None [] [].

(** ** Further inputs *)

(** A collection without duplication: every longname is used once. *)
Definition plain_docs : list Tag :=
  [doc "class" "Foo" 1; doc "member" "Foo#x" 2; doc "method" "Foo#run" 3;
   doc "member" "Foo#y" 4].

(** A member record, its accessors and the synthetic records of a run;
    the synthetic records carry no id. *)
Definition accessor_docs : list Tag :=
  [doc "member" "Foo#x" 1; doc "get" "Foo#x" 2; doc "set" "Foo#x" 3;
   doc "member" "Foo#y" 4;
   mkTag "index" "./README.md" "./README.md" true "public" None (Some "# readme") None;
   mkTag "packageJSON" "./package.json" "package.json" true "public" None (Some "{}") None].

(** ** Further specification predicates *)

(** The line [_checkOldConfig] prints for a deprecated key. *)
Definition oldKeyError (kp : string * string) : string :=
  esc ++ "[31merror: config." ++ fst kp ++ " is invalid. Please use " ++ snd kp
  ++ ". how to migration: https://esdoc2.org/manual/migration.html" ++ esc ++ "[0m".

(** The deprecated keys a configuration holds, in the order of the
    table. *)
Definition presentOldKeys (config : ESDocConfig) : list (string * string) :=
  filter (fun kp => key_in (fst kp) config) oldKeys.

(** A pattern [new RegExp] rejects. *)
Definition firstInvalidPattern {W : World} (patterns : list string) : option string :=
  find (fun v => negb (RegExp_valid v)) patterns.

(** A configuration that still uses two keys of the old format. *)
Definition oldConfig : ESDocConfig :=
  mkConfig None (Some "./src") None (Some "./out") None None None []
           ["title"; "access"; "unknown"].

(** A configuration whose second include pattern is not in the table of
    [srcWorld]. *)
Definition badPatternConfig : ESDocConfig :=
  mkConfig None (Some "./src") None (Some "./out") (Some ["\.js$"; "(unclosed"]) None None
           [] [].

(** A root-mode configuration as the validation wants it: no [source]. *)
Definition rootConfig : ESDocConfig :=
  mkConfig (Some "/proj") None None (Some "/out") None None None [] [].

(** The effects a walk may have: reading directories, file kinds and
    package descriptors, logging, calling the parser and submitting an
    AST job. *)
Definition is_walk_event (ev : Event) : bool :=
  match ev with
  | EvConsoleLog _ | EvConsoleError _ | EvLog _ _ _
  | EvReaddirSync _ | EvStatSync _ | EvRequire _
  | EvParserParse _ | EvShowFile _ _ | EvShow _ _
  | EvStreamWrite _ _ => true
  | _ => false
  end.

(** Every effect but the write of [index.json]. *)
Definition not_output (ev : Event) : bool :=
  match ev with
  | EvOutputFileSync _ _ => false
  | _ => true
  end.

(** The computation [m] only adds effects of the class [P] to the trace,
    however it ends. *)
Definition emits (P : Event -> bool) {A : Type} (m : M A) : Prop :=
  forall st, exists evs,
    trace (snd (m st)) = (trace st ++ evs)%list /\ forallb P evs = true.

(** The computation [m] only appends to [results] and to the AST jobs,
    however it ends. *)
Definition appends {A : Type} (m : M A) : Prop :=
  forall st, exists docs jobs,
    results (snd (m st)) = (results st ++ docs)%list /\
    astJobs (snd (m st)) = (astJobs st ++ jobs)%list.

(** Both frames at once: the effects are of the class of a walk, and
    [results] and the AST jobs only grow. *)
Definition walks {A : Type} (m : M A) : Prop :=
  emits is_walk_event m /\ appends m.

(** A run that went from [st] to [st'] and ended with [r] has written
    [index.json] exactly when it ended normally; the write is then its
    last effect, and what it wrote are the final [results]. *)
Definition writes_index_last (r : Result unit) (st st' : RunState) : Prop :=
  exists evs,
    trace st' = (trace st ++ evs)%list /\
    match r with
    | Ok _ =>
        exists evs' p,
          evs = (evs' ++ [EvOutputFileSync p (results st')])%list /\
          forallb not_output evs' = true
    | _ => forallb not_output evs = true
    end.

(** *** A walk of fixed-source mode, up to the first failure *)

(** What the callback does over a sequence of files, the id counter
    starting at [seq]: the records and AST jobs added, the final value
    of the counter, the files the parser was called on, and the file and
    node on which the doc factory failed, if it did.  Nothing after the
    failure is looked at. *)
Record WalkSummary := mkSummary {
  ws_docs : list Tag;
  ws_jobs : list (string * AST);
  ws_seq : Z;
  ws_parsed : list string;
  ws_failure : option (string * string)
}.

Fixpoint summarize {W : World} (cl : Closure) (files : list string) (seq : Z)
    : WalkSummary :=
  match files with
  | [] => mkSummary [] [] seq [] None
  | filePath :: rest =>
      if is_accepted cl filePath then
        match ESParser_parse filePath with
        | inr _ =>
            let s := summarize cl rest seq in
            mkSummary (ws_docs s) (ws_jobs s) (ws_seq s) (filePath :: ws_parsed s)
                      (ws_failure s)
        | inl ast =>
            match extract seq (cl_source cl) filePath (cl_packageName cl)
                          (cl_mainFilePath cl) ast with
            | (Extracted docs, seq') =>
                let s := summarize cl rest seq' in
                mkSummary (docs ++ ws_docs s)
                          (("source" ++ path_sep
                            ++ path_relative (cl_sourceDirPath cl) filePath, ast)
                           :: ws_jobs s)
                          (ws_seq s) (filePath :: ws_parsed s) (ws_failure s)
            | (ExtractFailed node, seq') =>
                mkSummary [] [] seq' [filePath] (Some (filePath, node))
            end
        end
      else summarize cl rest seq
  end.

(** How a walk with this summary ends. *)
Definition summary_result (s : WalkSummary) : Result unit :=
  match ws_failure s with
  | Some (filePath, node) => Throw (ExtractionError filePath node)
  | None => Ok tt
  end.

(** The files the parser was called on, read off the trace. *)
Definition parser_calls (evs : list Event) : list string :=
  flat_map (fun ev => match ev with EvParserParse filePath => [filePath] | _ => [] end) evs.

(** The run went from [st] to [st'] as the summary [s] says. *)
Definition follows (st st' : RunState) (s : WalkSummary) : Prop :=
  results st' = (results st ++ ws_docs s)%list /\
  astJobs st' = (astJobs st ++ ws_jobs s)%list /\
  docSeq st' = ws_seq s /\
  exists evs, trace st' = (trace st ++ evs)%list /\ parser_calls evs = ws_parsed s.


(** A source tree in which the doc factory fails on the second file. *)
Definition failingWorld : World :=
  tableWorld
    [("./src", ["a.js"; "b.js"; "c.js"])]
    [("./src/a.js", StatFile); ("./src/b.js", StatFile); ("./src/c.js", StatFile)]
    [("./README.md", "# readme")]
    []
    [("./src/a.js", inl "astA"); ("./src/b.js", inl "astB"); ("./src/c.js", inl "astC")]
    [("./src/a.js", Extracted [doc "function" "a" 1]);
     ("./src/b.js", ExtractFailed "ClassDeclaration");
     ("./src/c.js", Extracted [doc "function" "c" 1])]
    (fun config => config).

Definition failingClosure : Closure :=
  @closure_of failingWorld srcConfig' "./src" ["\.js$"] ["\.config\.js$"; "\.test\.js$"].


(** *** The directory of an AST file (line 86) *)

(** [s.split('/')] *)
Fixpoint split_slash (s : string) : list string :=
  match s with
  | EmptyString => [EmptyString]
  | String c s' =>
      if Ascii.eqb c "/"%char then EmptyString :: split_slash s'
      else match split_slash s' with
           | [] => [String c EmptyString]
           | segment :: segments => String c segment :: segments
           end
  end.

(** [segments.join('/')] *)
Fixpoint join_slash (segments : list string) : string :=
  match segments with
  | [] => EmptyString
  | [segment] => segment
  | segment :: rest => segment ++ "/" ++ join_slash rest
  end.

(** [fullPath.split('/').slice(0, -1).join('/')]: the directory
    [mkdirp] is asked to create before the AST of a file is written. *)
Definition astDirectory (fullPath : string) : string :=
  join_slash (removelast (split_slash fullPath)).

(** The string holds a slash. *)
Fixpoint has_slash (s : string) : bool :=
  match s with
  | EmptyString => false
  | String c s' => Ascii.eqb c "/"%char || has_slash s'
  end.



(** A root without descriptor that holds a plain directory. *)
Definition nestedWorld : World :=
  tableWorld
    [("/root", ["docs"; "a.js"]); ("/root/docs", ["b.js"])]
    [("/root/docs", StatDirectory); ("/root/a.js", StatFile); ("/root/docs/b.js", StatFile)]
    []
    []
    [("/root/a.js", inl "astA"); ("/root/docs/b.js", inl "astB")]
    []
    (fun config => config).

Definition nestedCallback : string -> option PackageValue -> M unit :=
  @walkRootCallback nestedWorld
    (mkClosure "" ["\.js$"] ["\.config\.js$"; "\.test\.js$"] "" None None).

(** A package whose descriptor holds the JSON value [null]. *)
Definition nullPkgWorld : World :=
  tableWorld
    [("/proj", ["package.json"; "src"]); ("/proj/src", ["a.js"])]
    [("/proj/package.json", StatFile); ("/proj/src", StatDirectory);
     ("/proj/src/a.js", StatFile)]
    []
    [("/proj/package.json", PkgFalsy)]
    [("/proj/src/a.js", inl "astA")]
    []
    (fun config => config).

Definition nullPkgCallback : string -> option PackageValue -> M unit :=
  @walkRootCallback nullPkgWorld
    (mkClosure "" ["\.js$"] ["\.config\.js$"; "\.test\.js$"] "" None None).

(** A configuration whose package file does not exist. *)
Definition noPackageConfig : ESDocConfig :=
  mkConfig None (Some "./src") (Some "./missing.json") (Some "./out") None None None [] [].

(** *** The end of the AST stream *)

Definition not_stream_end (ev : Event) : bool :=
  match ev with
  | EvStreamEnd => false
  | _ => true
  end.

(** Neither a job for the AST stream nor its end. *)
Definition not_stream (ev : Event) : bool :=
  match ev with
  | EvStreamEnd | EvStreamWrite _ _ => false
  | _ => true
  end.

(** The effects [evs] of a run that ended with [r] end the AST stream
    once, with no job after the end; or they do not end it, and the run
    did not end normally. *)
Definition ends_stream_once (r : Result unit) (evs : list Event) : Prop :=
  (exists pre post,
      evs = (pre ++ EvStreamEnd :: post)%list /\
      forallb not_stream_end pre = true /\ forallb not_stream post = true)
  \/ (forallb not_stream_end evs = true /\ r <> Ok tt).

(** A configuration that sets everything [_setDefaultConfig] could fill in. *)
Definition tunedConfig : ESDocConfig :=
  mkConfig None (Some "./src") (Some "./pkg.json") (Some "./out")
           (Some ["\.mjs$"]) (Some []) (Some "./docs/index.md") [] [].

(** *** The settings a run uses *)

Definition is_readdir (ev : Event) : bool :=
  match ev with
  | EvReaddirSync _ => true
  | _ => false
  end.

(** The setting [o] is the string [p]. *)
Definition opt_is (p : string) (o : option string) : bool :=
  match o with
  | Some q => (p =? q)%string
  | None => false
  end.

(** [filePath] matches the include patterns of [config] and none of its
    exclude patterns, relative to its source directory. *)
Definition accepted_by {W : World} (config : ESDocConfig) (filePath : string) : bool :=
  match includes config, excludes config, source config with
  | Some incs, Some excs, Some src =>
      let relativeFilePath := path_relative (path_resolve src) filePath in
      someMatch incs relativeFilePath && negb (someMatch excs relativeFilePath)
  | _, _, _ => false
  end.

(** An effect of the run that follows the configuration hook takes its
    setting from [config]: a file that is read is the package file or the
    index file of [config], a file that is parsed passes the patterns of
    [config], what is written is [index.json] in the destination of
    [config]; and it is not a call of [Plugin.init], [Plugin.onStart]
    or the configuration hook. *)
Definition from_config {W : World} (config : ESDocConfig) (ev : Event) : bool :=
  match ev with
  | EvPluginInit _ | EvPluginOnStart | EvPluginOnHandleConfig _ => false
  | EvReadFileSync p => opt_is p (package config) || opt_is p (index config)
  | EvParserParse filePath => accepted_by config filePath
  | EvOutputFileSync p _ =>
      match destination config with
      | Some dest => (p =? path_resolve2 dest "index.json")%string
      | None => false
      end
  | _ => true
  end.

(** The same, for the steps that list no directory. *)
Definition from_config_quiet {W : World} (config : ESDocConfig) (ev : Event) : bool :=
  from_config config ev && negb (is_readdir ev).

(** The directory the walk starts in (lines 137-141). *)
Definition walk_dir (config : ESDocConfig) : option string :=
  match as_truthy (root config) with
  | Some root_ => Some root_
  | None => source config
  end.

(** The effects [evs] take their settings from [config], and the first
    directory they list, if any, is the one [config] says to walk. *)
Definition uses_config {W : World} (config : ESDocConfig) (evs : list Event) : Prop :=
  forallb (from_config config) evs = true /\
  forall d, find is_readdir evs = Some (EvReaddirSync d) -> walk_dir config = Some d.

(** The computation [m] adds effects of the class [P] to the trace, the
    first of which, if any, is the listing of [dirPath]. *)
Definition starts_at (P : Event -> bool) (dirPath : string) {A : Type} (m : M A) : Prop :=
  forall st, exists evs,
    trace (snd (m st)) = (trace st ++ evs)%list /\ forallb P evs = true /\
    (evs = [] \/ exists rest, evs = EvReaddirSync dirPath :: rest).
(** * Proofs *)

Local Open Scope list_scope.

(** One step of the monad: unfold the operations and reduce the matches
    they expose. *)
Ltac run_m :=
  cbv beta iota zeta delta
    [bind ret emit throw try_catch console_error console_log log_info log_verbose
     fs_readdirSync fs_statSync fs_readFileSync require_module
     results_push get_results set_results get_docSeq set_docSeq stream_write].

(** ** Properties of the duplicate resolver *)

Section ResolverFacts.

Lemma id_eqb_eq (a b : option Z) : id_eqb a b = true <-> a = b.
Proof.
  destruct a as [x|], b as [y|]; simpl; split; intro H;
    try discriminate; try reflexivity.
  - apply Z.eqb_eq in H. now subst.
  - injection H as ->. apply Z.eqb_refl.
Qed.

Lemma Array_includes_In (ids : list (option Z)) (x : option Z) :
  Array_includes ids x = true <-> In x ids.
Proof.
  unfold Array_includes. rewrite existsb_exists. split.
  - intros [y [Hy Heq]]. apply id_eqb_eq in Heq. now subst.
  - intro H. exists x. split; [assumption | now apply id_eqb_eq].
Qed.

Lemma id_ltb_asym (a b : option Z) : id_ltb a b = true -> id_ltb b a = false.
Proof.
  destruct a as [x|], b as [y|]; simpl; intro H; try discriminate; try reflexivity.
  apply Z.ltb_lt in H. apply Z.ltb_ge. lia.
Qed.

Lemma id_leb_trans (a b c : option Z) :
  id_leb a b = true -> id_leb b c = true -> id_leb a c = true.
Proof.
  unfold id_leb. destruct a as [x|], b as [y|], c as [z|]; simpl;
    rewrite ?negb_true_iff; intros H1 H2; try discriminate; try reflexivity.
  apply Z.ltb_ge in H1, H2. apply Z.ltb_ge. lia.
Qed.

Lemma id_leb_antisym (a b : option Z) :
  id_leb a b = true -> id_leb b a = true -> a = b.
Proof.
  unfold id_leb. destruct a as [x|], b as [y|]; simpl;
    rewrite ?negb_true_iff; intros H1 H2; try discriminate; try reflexivity.
  apply Z.ltb_ge in H1, H2. f_equal. lia.
Qed.

Lemma sort_insert_perm (x : option Z) (l : list (option Z)) :
  Permutation (x :: l) (sort_insert x l).
Proof.
  induction l as [|y l IH]; simpl.
  - apply Permutation_refl.
  - destruct (id_ltb y x).
    + eapply perm_trans; [apply perm_swap|]. now apply perm_skip.
    + apply Permutation_refl.
Qed.

Lemma sort_perm (l : list (option Z)) : Permutation l (sort l).
Proof.
  induction l as [|x l IH]; simpl.
  - constructor.
  - eapply perm_trans; [apply perm_skip, IH | apply sort_insert_perm].
Qed.

Lemma sort_insert_sorted (x : option Z) (l : list (option Z)) :
  StronglySorted id_le l -> StronglySorted id_le (sort_insert x l).
Proof.
  induction l as [|y l IH]; simpl; intro Hs.
  - repeat constructor.
  - inversion Hs as [|? ? Hl Hall]; subst.
    destruct (id_ltb y x) eqn:Hlt.
    + constructor; [now apply IH|].
      rewrite Forall_forall in *. intros z Hz.
      apply (Permutation_in _ (Permutation_sym (sort_insert_perm x l))) in Hz.
      destruct Hz as [<-|Hz]; [|now apply Hall].
      unfold id_le, id_leb. now rewrite (id_ltb_asym _ _ Hlt).
    + assert (Hxy : id_le x y) by (unfold id_le, id_leb; now rewrite Hlt).
      constructor; [assumption|].
      constructor; [assumption|].
      rewrite Forall_forall in *. intros z Hz.
      eapply id_leb_trans; [exact Hxy | now apply Hall].
Qed.

Lemma sort_sorted (l : list (option Z)) : StronglySorted id_le (sort l).
Proof.
  induction l as [|x l IH]; simpl; [constructor | now apply sort_insert_sorted].
Qed.

(** The first element of the sorted array is a least element. *)
Lemma sort_head_least (l : list (option Z)) (h : option Z) (t : list (option Z)) :
  sort l = h :: t -> forall x, In x l -> id_le h x.
Proof.
  intros Hsort x Hx.
  pose proof (sort_sorted l) as Hs. rewrite Hsort in Hs.
  apply (Permutation_in _ (sort_perm l)) in Hx. rewrite Hsort in Hx.
  inversion Hs as [|? ? _ Hall]; subst.
  destruct Hx as [<-|Hx].
  - unfold id_le, id_leb. destruct h as [z|]; simpl; [|reflexivity].
    now rewrite Z.ltb_irrefl.
  - rewrite Forall_forall in Hall. now apply Hall.
Qed.

Lemma shift_sort_incl (l : list (option Z)) (i : option Z) :
  In i (shift (sort l)) -> In i l.
Proof.
  intro H. apply (Permutation_in _ (Permutation_sym (sort_perm l))).
  unfold shift in H. destruct (sort l); simpl in *; [contradiction | now right].
Qed.

End ResolverFacts.

Section ResolverCharacterisation.

Lemma removeIds_loop_In (docs memberDocs : list Tag) (acc : list (option Z))
    (i : option Z) :
  In i (removeIds_loop docs memberDocs acc) <->
  In i acc \/ exists m, In m memberDocs /\ In i (pushedIds docs m).
Proof.
  revert acc. induction memberDocs as [|m ms IH]; intro acc; simpl.
  - split; [now left | intros [H|[m [[] _]]]; assumption].
  - rewrite IH, in_app_iff. split.
    + intros [[H|H]|[m' [Hm' Hi]]].
      * now left.
      * right. exists m. auto.
      * right. exists m'. auto.
    + intros [H|[m' [[<-|Hm'] Hi]]].
      * left. now left.
      * left. now right.
      * right. exists m'. auto.
Qed.

(** A record survives exactly when no member record pushes its id. *)
Lemma resolve_In (docs : list Tag) (d : Tag) :
  In d (_resolveDuplication docs) <-> In d docs /\ ~ removed docs d.
Proof.
  unfold _resolveDuplication, removed. rewrite filter_In, negb_true_iff.
  split; intros [Hd Hk]; split; try assumption.
  - intros [m [Hm [Hmem Hi]]].
    assert (Hin : Array_includes
                    (removeIds_loop docs (filter is_member docs) []) (__docId__ d) = true).
    { apply Array_includes_In, removeIds_loop_In. right. exists m.
      split; [apply filter_In; auto | assumption]. }
    congruence.
  - destruct (Array_includes _ _) eqn:Hinc; [|reflexivity].
    exfalso. apply Hk.
    apply Array_includes_In, removeIds_loop_In in Hinc.
    destruct Hinc as [[]|[m [Hm Hi]]].
    apply filter_In in Hm. destruct Hm as [Hm Hmem]. exists m. auto.
Qed.

Lemma find_other_kind_None (docs : list Tag) (m : Tag) :
  find (sameLongnameOtherKind m) docs = None <->
  forall d, In d docs -> longname d = longname m -> is_member d = true.
Proof.
  split.
  - intros H d Hd Hl.
    pose proof (find_none _ _ H d Hd) as Hf.
    unfold sameLongnameOtherKind in Hf. rewrite Hl, String.eqb_refl in Hf.
    simpl in Hf. now apply negb_false_iff in Hf.
  - intro H. destruct (find _ docs) as [d|] eqn:Hf; [|reflexivity].
    apply find_some in Hf. destruct Hf as [Hd Hp].
    unfold sameLongnameOtherKind in Hp. apply andb_true_iff in Hp.
    destruct Hp as [Hl Hk]. apply String.eqb_eq in Hl.
    rewrite (H d Hd Hl) in Hk. discriminate.
Qed.

Lemma find_other_kind_Some (docs : list Tag) (m : Tag) :
  (exists d, In d docs /\ longname d = longname m /\ is_member d = false) ->
  exists d, find (sameLongnameOtherKind m) docs = Some d.
Proof.
  intros [d [Hd [Hl Hk]]].
  destruct (find _ docs) as [d'|] eqn:Hf; [now exists d'|].
  rewrite find_other_kind_None in Hf. rewrite (Hf d Hd Hl) in Hk. discriminate.
Qed.

(** Every id pushed for a member record is the id of a member record of
    the collection with the same longname. *)
Lemma pushedIds_member (docs : list Tag) (m : Tag) (i : option Z) :
  In m docs -> is_member m = true -> In i (pushedIds docs m) ->
  exists m', In m' docs /\ is_member m' = true /\
             longname m' = longname m /\ __docId__ m' = i.
Proof.
  intros Hm Hmem Hi. unfold pushedIds in Hi.
  destruct (find _ docs) as [d|].
  - destruct Hi as [<-|[]]. exists m. auto.
  - destruct (1 <? _)%nat; [|contradiction].
    apply shift_sort_incl, in_map_iff in Hi.
    destruct Hi as [m' [Hid Hm']]. apply filter_In in Hm'.
    destruct Hm' as [Hm' Hp]. unfold sameLongnameMember in Hp.
    apply andb_true_iff in Hp. destruct Hp as [Hl Hk].
    apply String.eqb_eq in Hl. exists m'. auto.
Qed.

Lemma is_member_true (d : Tag) : is_member d = true <-> kind d = "member".
Proof. unfold is_member. apply String.eqb_eq. Qed.

Lemma is_member_false (d : Tag) : is_member d = false <-> kind d <> "member".
Proof. unfold is_member. apply String.eqb_neq. Qed.

Lemma distinct_ids_inj (docs : list Tag) (a b : Tag) :
  distinct_ids docs -> In a docs -> In b docs ->
  __docId__ a = __docId__ b -> a = b.
Proof.
  unfold distinct_ids. induction docs as [|d docs IH]; simpl; intros Hnd Ha Hb Heq.
  - contradiction.
  - inversion Hnd as [|? ? Hnotin Hnd']; subst.
    destruct Ha as [<-|Ha], Hb as [<-|Hb].
    + reflexivity.
    + exfalso. apply Hnotin. rewrite Heq. now apply in_map.
    + exfalso. apply Hnotin. rewrite <- Heq. now apply in_map.
    + now apply IH.
Qed.

Lemma distinct_ids_NoDup (docs : list Tag) : distinct_ids docs -> NoDup docs.
Proof. apply NoDup_map_inv. Qed.

Lemma filter_Subseq {A} (p : A -> bool) (l : list A) : Subseq (filter p l) l.
Proof.
  induction l as [|x l IH]; simpl; [constructor|].
  destruct (p x); now constructor.
Qed.

Lemma Subseq_map {A B} (f : A -> B) (l1 l2 : list A) :
  Subseq l1 l2 -> Subseq (map f l1) (map f l2).
Proof. induction 1; simpl; now constructor. Qed.

Lemma Subseq_In {A} (l1 l2 : list A) (x : A) : Subseq l1 l2 -> In x l1 -> In x l2.
Proof.
  induction 1; simpl; intro Hx; tauto.
Qed.

Lemma Subseq_NoDup {A} (l1 l2 : list A) : Subseq l1 l2 -> NoDup l2 -> NoDup l1.
Proof.
  induction 1; intro Hnd; [constructor| |]; inversion Hnd; subst; auto.
  constructor; auto. intro Hx. eapply Subseq_In in Hx; eauto.
Qed.

Lemma resolve_Subseq (docs : list Tag) : Subseq (_resolveDuplication docs) docs.
Proof. apply filter_Subseq. Qed.

Lemma resolve_distinct_ids (docs : list Tag) :
  distinct_ids docs -> distinct_ids (_resolveDuplication docs).
Proof.
  unfold distinct_ids. apply Subseq_NoDup, Subseq_map, resolve_Subseq.
Qed.

(** With distinct ids, a record that is not a member is never removed. *)
Lemma other_kind_not_removed (docs : list Tag) (d : Tag) :
  distinct_ids docs -> In d docs -> is_member d = false -> ~ removed docs d.
Proof.
  intros Hnd Hd Hk [m [Hm [Hmem Hi]]].
  destruct (pushedIds_member _ _ _ Hm Hmem Hi) as [m' [Hm' [Hmem' [_ Hid]]]].
  assert (m' = d) by (eapply distinct_ids_inj; eauto).
  subst. congruence.
Qed.

Lemma kept_true (docs : list Tag) (d : Tag) :
  In d docs -> ~ removed docs d ->
  negb (Array_includes (removeIds_loop docs (filter is_member docs) [])
                       (__docId__ d)) = true.
Proof.
  intros Hd Hk.
  assert (H : In d (_resolveDuplication docs)) by (apply resolve_In; auto).
  unfold _resolveDuplication in H. apply filter_In in H. tauto.
Qed.

(** A member record with a rival of another kind pushes its own id. *)
Lemma member_with_rival_removed (docs : list Tag) (m D : Tag) :
  In m docs -> is_member m = true ->
  In D docs -> longname D = longname m -> is_member D = false ->
  removed docs m.
Proof.
  intros Hm Hmem HD Hl HkD. exists m. split; [assumption|]. split; [assumption|].
  destruct (find_other_kind_Some docs m) as [d Hf]; [now exists D|].
  unfold pushedIds. rewrite Hf. now left.
Qed.

Lemma group_eq (docs : list Tag) (x m : Tag) :
  longname x = longname m ->
  filter (sameLongnameMember x) docs = filter (sameLongnameMember m) docs.
Proof.
  intro H. apply filter_ext. intro d. unfold sameLongnameMember. now rewrite H.
Qed.

Lemma group_In (docs : list Tag) (m d : Tag) :
  In d (filter (sameLongnameMember m) docs) <->
  In d docs /\ longname d = longname m /\ is_member d = true.
Proof.
  rewrite filter_In. unfold sameLongnameMember.
  rewrite andb_true_iff, String.eqb_eq. tauto.
Qed.

Lemma distinct_ids_members (docs : list Tag) :
  distinct_ids docs -> distinct_member_ids docs.
Proof.
  unfold distinct_ids, distinct_member_ids.
  apply Subseq_NoDup, Subseq_map, filter_Subseq.
Qed.

Lemma member_ids_inj (docs : list Tag) (a b : Tag) :
  distinct_member_ids docs -> In a docs -> In b docs ->
  is_member a = true -> is_member b = true ->
  __docId__ a = __docId__ b -> a = b.
Proof.
  intros Hnd Ha Hb Hka Hkb Heq.
  apply (distinct_ids_inj (filter is_member docs)); try assumption;
    apply filter_In; auto.
Qed.

Lemma filter_and_Subseq {A} (p q : A -> bool) (l : list A) :
  Subseq (filter (fun x => p x && q x) l) (filter q l).
Proof.
  induction l as [|x l IH]; simpl; [constructor|].
  destruct (q x); [|now rewrite andb_false_r].
  rewrite andb_true_r. destruct (p x); now constructor.
Qed.

(** The ids of the member records with a given longname are distinct. *)
Lemma group_ids_NoDup (docs : list Tag) (p : Tag -> bool) :
  distinct_member_ids docs ->
  NoDup (map __docId__ (filter (fun d => p d && is_member d) docs)).
Proof.
  unfold distinct_member_ids. apply Subseq_NoDup, Subseq_map, filter_and_Subseq.
Qed.

(** A member record that survives has no rival of another kind, and its
    id is the first of the sorted ids of its group when the group has
    more than one record. *)
Lemma kept_member_first (docs : list Tag) (m : Tag) :
  In m docs -> is_member m = true -> ~ removed docs m ->
  find (sameLongnameOtherKind m) docs = None /\
  ((1 <? List.length (filter (sameLongnameMember m) docs))%nat = true ->
   exists t, sort (map __docId__ (filter (sameLongnameMember m) docs))
             = __docId__ m :: t).
Proof.
  intros Hm Hmem Hkept.
  assert (Hnone : find (sameLongnameOtherKind m) docs = None).
  { destruct (find _ docs) as [D|] eqn:Hf; [|reflexivity].
    exfalso. apply Hkept. exists m. split; [assumption|]. split; [assumption|].
    unfold pushedIds. rewrite Hf. now left. }
  split; [assumption|]. intro Hlen.
  assert (Hin : In (__docId__ m) (sort (map __docId__ (filter (sameLongnameMember m) docs)))).
  { apply (Permutation_in _ (sort_perm _)), in_map, group_In. auto. }
  destruct (sort _) as [|h t] eqn:Hs; [contradiction|].
  destruct Hin as [->|Hin]; [now exists t|].
  exfalso. apply Hkept. exists m. split; [assumption|]. split; [assumption|].
  unfold pushedIds. rewrite Hnone, Hlen, Hs. exact Hin.
Qed.

Lemma NoDup_short {A} (l : list A) (x y : A) :
  NoDup l -> (List.length l <= 1)%nat -> In x l -> In y l -> x = y.
Proof.
  destruct l as [|a [|b l]]; simpl; intros _ Hlen Hx Hy.
  - contradiction.
  - destruct Hx as [<-|[]], Hy as [<-|[]]. reflexivity.
  - lia.
Qed.

(** When no two member records share an id, at most one member record
    per longname survives. *)
Lemma kept_member_unique (docs : list Tag) (x m : Tag) :
  distinct_member_ids docs ->
  In x (_resolveDuplication docs) -> In m (_resolveDuplication docs) ->
  is_member x = true -> is_member m = true -> longname x = longname m ->
  x = m.
Proof.
  intros Hnd Hx Hm Hkx Hkm Hl.
  apply resolve_In in Hx, Hm. destruct Hx as [Hx Hxk], Hm as [Hm Hmk].
  destruct (kept_member_first _ _ Hx Hkx Hxk) as [_ Hfx].
  destruct (kept_member_first _ _ Hm Hkm Hmk) as [_ Hfm].
  rewrite (group_eq docs x m Hl) in Hfx.
  destruct (1 <? List.length (filter (sameLongnameMember m) docs))%nat eqn:Hlen.
  - destruct (Hfx eq_refl) as [t Ht]. destruct (Hfm eq_refl) as [t' Ht'].
    rewrite Ht in Ht'. injection Ht' as Hid _.
    now apply (member_ids_inj docs).
  - apply Nat.ltb_ge in Hlen.
    apply (NoDup_short (filter (sameLongnameMember m) docs)).
    + apply (NoDup_map_inv __docId__).
      apply (group_ids_NoDup docs (fun d => (longname d =? longname m)%string) Hnd).
    + exact Hlen.
    + apply group_In. auto.
    + apply group_In. auto.
Qed.

Lemma NoDup_singleton {A} (l : list A) (a : A) :
  NoDup l -> (forall x, In x l -> x = a) -> In a l -> l = [a].
Proof.
  intros Hnd Hall Ha. destruct l as [|x [|y l]].
  - contradiction.
  - f_equal. apply Hall. now left.
  - exfalso. inversion Hnd as [|? ? Hnotin _]; subst. apply Hnotin.
    rewrite (Hall x) by (now left). rewrite (Hall y) by (right; now left).
    now left.
Qed.

Lemma removeIds_loop_nothing (docs memberDocs : list Tag) (acc : list (option Z)) :
  (forall m, In m memberDocs -> pushedIds docs m = []) ->
  removeIds_loop docs memberDocs acc = acc.
Proof.
  revert acc. induction memberDocs as [|m ms IH]; intros acc H; simpl.
  - reflexivity.
  - rewrite (H m) by (now left). rewrite app_nil_r. apply IH.
    intros m' Hm'. apply H. now right.
Qed.

Lemma filter_swap {A} (p q : A -> bool) (l : list A) :
  filter p (filter q l) = filter q (filter p l).
Proof.
  induction l as [|x l IH]; simpl; [reflexivity|].
  destruct (q x) eqn:Hq, (p x) eqn:Hp; simpl; rewrite ?Hq, ?Hp, IH; reflexivity.
Qed.

Lemma filter_filter_implied {A} (p q : A -> bool) (l : list A) :
  (forall x, In x l -> p x = true -> q x = true) ->
  filter p (filter q l) = filter p l.
Proof.
  induction l as [|x l IH]; simpl; intro H; [reflexivity|].
  assert (IH' : filter p (filter q l) = filter p l) by (apply IH; intros; apply H; auto).
  destruct (q x) eqn:Hq; simpl.
  - now rewrite IH'.
  - destruct (p x) eqn:Hp; [|assumption].
    rewrite (H x) in Hq; [discriminate | now left | assumption].
Qed.

End ResolverCharacterisation.

(** ** The claims on the duplicate resolver *)

(** C1. Kind precedence: a record [M] of kind "member" is removed by
    the duplicate resolver whenever some record of the collection has
    the longname of [M] and a kind other than "member".  In particular,
    of a member record and a method record with the same longname and
    the ids 1 and 2, in either assignment, only the method record
    survives. *)
Theorem resolve_kind_precedence :
  (forall (docs : list Tag) (M : Tag),
      In M docs -> kind M = "member" ->
      (exists D, In D docs /\ D <> M /\ longname D = longname M /\ kind D <> "member") ->
      ~ In M (_resolveDuplication docs))
  /\
  (forall (L n1 n2 a1 a2 : string) (s1 s2 : bool) (c1 c2 : option string)
          (p1 p2 : option PackageValue),
      _resolveDuplication
        [mkTag "member" L n1 s1 a1 (Some 1) c1 p1; mkTag "method" L n2 s2 a2 (Some 2) c2 p2]
      = [mkTag "method" L n2 s2 a2 (Some 2) c2 p2]
      /\
      _resolveDuplication
        [mkTag "member" L n1 s1 a1 (Some 2) c1 p1; mkTag "method" L n2 s2 a2 (Some 1) c2 p2]
      = [mkTag "method" L n2 s2 a2 (Some 1) c2 p2]).
Proof.
  split.
  - intros docs M HM Hk [D [HD [_ [Hl HkD]]]] Hin.
    apply resolve_In in Hin. destruct Hin as [_ Hnot]. apply Hnot.
    apply (member_with_rival_removed docs M D); auto.
    + now apply is_member_true.
    + now apply is_member_false.
  - intros. unfold _resolveDuplication. simpl.
    unfold pushedIds, sameLongnameOtherKind, sameLongnameMember, is_member. simpl.
    rewrite !String.eqb_refl. simpl. split; reflexivity.
Qed.

(** C1, at the spec's example. *)
Lemma resolve_kind_precedence_witness :
  ~ In (doc "member" "Foo#x" 1) (_resolveDuplication fooX_docs).
Proof.
  apply (proj1 resolve_kind_precedence fooX_docs (doc "member" "Foo#x" 1)).
  - simpl. now left.
  - reflexivity.
  - exists (doc "method" "Foo#x" 2). simpl.
    repeat split; try discriminate. right. now left.
Defined.

(** Removal is by id, so the collapse of one group of member records
    relies on the ids being those the doc factory assigns, one per
    record.  In the hand-built [shared_id_docs], where two groups use
    id 1, no record of group "A" survives.  No run of the pipeline
    builds such a collection. *)
Lemma resolve_shared_id_by_hand :
  (2 <= List.length
          (filter (fun d => (longname d =? "A")%string && is_member d) shared_id_docs))%nat
  /\ (forall d, In d shared_id_docs -> longname d = "A" -> kind d = "member")
  /\ _resolveDuplication shared_id_docs = [doc "member" "B" 0]
  /\ ~ In (doc "member" "A" 1) (_resolveDuplication shared_id_docs).
Proof.
  split; [simpl; lia|]. split.
  - simpl. intros d [<-|[<-|[<-|[<-|[]]]]]; simpl; intro H;
      try reflexivity; discriminate.
  - split; [reflexivity|]. simpl. intros [H|[]]. discriminate.
Qed.

(** C2. Member-member collapse.  The creation-sequence id is the one
    the doc factory assigns, a fresh number for every record it builds,
    so no two member records of a collection share an id
    ([distinct_member_ids]; the records without id, which are the
    synthetic ones, are of other kinds and are not constrained).  In
    such a collection, if two or more member records share the longname
    [L] and no record of another kind has it, the duplicate resolver
    keeps exactly one of the records with longname [L]: the member
    record with the lowest id.  All the others are removed. *)
Theorem resolve_member_collapse (docs : list Tag) (L : string) :
  distinct_member_ids docs ->
  (2 <= List.length (filter (fun d => (longname d =? L)%string && is_member d) docs))%nat ->
  (forall d, In d docs -> longname d = L -> kind d = "member") ->
  exists m,
    In m docs /\ kind m = "member" /\ longname m = L /\
    (forall d, In d docs -> longname d = L -> id_le (__docId__ m) (__docId__ d)) /\
    filter (fun d => (longname d =? L)%string) (_resolveDuplication docs) = [m].
Proof.
  intros Hnd Hlen Hall.
  set (group := filter (fun d => (longname d =? L)%string && is_member d) docs) in *.
  assert (Hgroup : forall m, longname m = L -> filter (sameLongnameMember m) docs = group).
  { intros m Hm. apply filter_ext. intro d. unfold sameLongnameMember. now rewrite Hm. }
  assert (Hperm := sort_perm (map __docId__ group)).
  destruct (sort (map __docId__ group)) as [|h t] eqn:Hs.
  { apply Permutation_length in Hperm. rewrite length_map in Hperm.
    simpl in Hperm. lia. }
  assert (Hh : In h (map __docId__ group)).
  { apply (Permutation_in _ (Permutation_sym Hperm)). now left. }
  apply in_map_iff in Hh. destruct Hh as [m0 [Hid Hm0]].
  assert (Hm0' := Hm0). apply filter_In in Hm0'. destruct Hm0' as [Hm0d Hm0p].
  apply andb_true_iff in Hm0p. destruct Hm0p as [Hm0L Hm0k].
  apply String.eqb_eq in Hm0L.
  assert (Hndgroup : NoDup (map __docId__ group)).
  { apply (group_ids_NoDup docs (fun d => (longname d =? L)%string) Hnd). }
  assert (Hndg : NoDup (h :: t)) by apply (Permutation_NoDup Hperm Hndgroup).
  assert (Hpushed : forall m, In m docs -> longname m = L -> pushedIds docs m = t).
  { intros m Hm HmL. unfold pushedIds.
    assert (Hnone : find (sameLongnameOtherKind m) docs = None).
    { apply find_other_kind_None. intros d Hd Hdl. apply is_member_true, Hall; congruence. }
    rewrite Hnone, (Hgroup m HmL).
    assert (Hlt : (1 <? List.length group)%nat = true) by (apply Nat.ltb_lt; lia).
    rewrite Hlt, Hs. reflexivity. }
  assert (Hkept : ~ removed docs m0).
  { intros [m [Hm [Hmem Hi]]].
    destruct (pushedIds_member _ _ _ Hm Hmem Hi) as [m' [Hm' [Hk' [Hl' Hid']]]].
    assert (m' = m0) by (apply (member_ids_inj docs); congruence). subst m'.
    rewrite (Hpushed m Hm) in Hi by congruence.
    inversion Hndg as [|? ? Hnotin _]; subst. apply Hnotin. exact Hi. }
  exists m0. repeat split; try assumption.
  - now apply is_member_true.
  - intros d Hd HdL. rewrite Hid.
    apply (sort_head_least (map __docId__ group) h t Hs).
    apply in_map, filter_In. split; [assumption|].
    rewrite HdL, String.eqb_refl. simpl. apply is_member_true. auto.
  - apply NoDup_singleton.
    + assert (Hsame : filter (fun d => (longname d =? L)%string) docs = group).
      { apply filter_ext_in. intros d Hd.
        destruct (longname d =? L)%string eqn:HdL; [|reflexivity].
        apply String.eqb_eq in HdL. simpl. symmetry. apply is_member_true. auto. }
      unfold _resolveDuplication. rewrite filter_swap, Hsame.
      eapply Subseq_NoDup; [apply filter_Subseq|].
      now apply (NoDup_map_inv __docId__).
    + intros x Hx. apply filter_In in Hx. destruct Hx as [Hx HxL].
      apply String.eqb_eq in HxL.
      apply (kept_member_unique docs); try assumption.
      * apply resolve_In. auto.
      * apply is_member_true, Hall; [|assumption].
        apply resolve_In in Hx. tauto.
      * congruence.
    + apply filter_In. split; [apply resolve_In; auto|].
      now apply String.eqb_eq.
Qed.

(** C2, at the spec's example followed by the synthetic records of a
    run: only id 1 survives of "Foo#y". *)
Lemma resolve_member_collapse_witness :
  exists m,
    In m fooY_run_docs /\ kind m = "member" /\ longname m = "Foo#y" /\
    (forall d, In d fooY_run_docs -> longname d = "Foo#y" ->
               id_le (__docId__ m) (__docId__ d)) /\
    filter (fun d => (longname d =? "Foo#y")%string) (_resolveDuplication fooY_run_docs)
    = [m].
Proof.
  apply (resolve_member_collapse fooY_run_docs "Foo#y").
  - unfold distinct_member_ids. simpl. repeat constructor; simpl; intuition discriminate.
  - simpl. lia.
  - simpl. intros d [<-|[<-|[<-|[<-|[]]]]] H; try reflexivity; discriminate H.
Defined.

(** C3. In a collection with pairwise-distinct ids, the output of the
    duplicate resolver is a subsequence of the input (the survivors keep
    their relative order) that contains every record whose kind is not
    "member": the records of other kinds are the same, in the same order,
    before and after. *)
Theorem resolve_only_members_removed (docs : list Tag) :
  distinct_ids docs ->
  Subseq (_resolveDuplication docs) docs /\
  (forall d, In d docs -> kind d <> "member" -> In d (_resolveDuplication docs)) /\
  filter (fun d => negb (is_member d)) (_resolveDuplication docs)
  = filter (fun d => negb (is_member d)) docs.
Proof.
  intro Hnd. split; [apply resolve_Subseq|]. split.
  - intros d Hd Hk. apply resolve_In. split; [assumption|].
    apply other_kind_not_removed; try assumption. now apply is_member_false.
  - unfold _resolveDuplication. apply filter_filter_implied.
    intros d Hd Hk. apply negb_true_iff in Hk.
    apply kept_true; [assumption|]. now apply other_kind_not_removed.
Qed.

Lemma resolve_only_members_removed_witness :
  Subseq (_resolveDuplication mixed_docs) mixed_docs /\
  (forall d, In d mixed_docs -> kind d <> "member" -> In d (_resolveDuplication mixed_docs)) /\
  filter (fun d => negb (is_member d)) (_resolveDuplication mixed_docs)
  = filter (fun d => negb (is_member d)) mixed_docs.
Proof.
  apply (resolve_only_members_removed mixed_docs).
  unfold distinct_ids. simpl. repeat constructor; simpl; intuition discriminate.
Defined.

(** C10. In a collection with pairwise-distinct ids the duplicate
    resolver is idempotent: applied to its own output it removes
    nothing. *)
Theorem resolve_idempotent (docs : list Tag) :
  distinct_ids docs ->
  _resolveDuplication (_resolveDuplication docs) = _resolveDuplication docs.
Proof.
  intro Hnd.
  set (out := _resolveDuplication docs).
  assert (Hnone : forall m, In m (filter is_member out) -> pushedIds out m = []).
  { intros m Hm. apply filter_In in Hm. destruct Hm as [Hm Hmem].
    assert (Hmd : In m docs /\ ~ removed docs m) by (now apply resolve_In).
    destruct Hmd as [Hmd Hkept].
    unfold pushedIds.
    assert (Hfind : find (sameLongnameOtherKind m) out = None).
    { apply find_other_kind_None. intros d Hd Hl.
      destruct (is_member d) eqn:Hk; [reflexivity|].
      exfalso. apply Hkept.
      apply (member_with_rival_removed docs m d); auto.
      apply resolve_In in Hd. tauto. }
    rewrite Hfind.
    assert (Hlen : (List.length (filter (sameLongnameMember m) out) <= 1)%nat).
    { assert (Hmg : In m (filter (sameLongnameMember m) out)) by (apply group_In; auto).
      rewrite (NoDup_singleton (filter (sameLongnameMember m) out) m).
      - simpl. lia.
      - eapply Subseq_NoDup; [apply filter_Subseq|].
        apply distinct_ids_NoDup. now apply resolve_distinct_ids.
      - intros x Hx. apply group_In in Hx. destruct Hx as [Hx [Hl Hk]].
        apply (kept_member_unique docs); try assumption.
        now apply distinct_ids_members.
      - exact Hmg. }
    apply Nat.ltb_ge in Hlen. now rewrite Hlen. }
  unfold _resolveDuplication at 1. fold out.
  rewrite (removeIds_loop_nothing out _ [] Hnone). simpl.
  clear. induction out as [|d l IH]; simpl; [reflexivity | now rewrite IH].
Qed.

Lemma resolve_idempotent_witness :
  _resolveDuplication (_resolveDuplication mixed_docs) = _resolveDuplication mixed_docs.
Proof.
  apply (resolve_idempotent mixed_docs).
  unfold distinct_ids. simpl. repeat constructor; simpl; intuition discriminate.
Defined.

(** ** Properties of the pipeline *)

Section PipelineFacts.

Context {W : World}.

Lemma add_trace_app (st : RunState) (a b : list Event) :
  add_trace (add_trace st a) b = add_trace st (a ++ b).
Proof. unfold add_trace. simpl. now rewrite app_assoc. Qed.

Lemma add_trace_nil (st : RunState) : add_trace st [] = st.
Proof. destruct st. unfold add_trace. simpl. now rewrite app_nil_r. Qed.

Lemma someMatch_true (regs : list string) (rel : string) :
  someMatch regs rel = true <-> exists reg, In reg regs /\ RegExp_match reg rel = true.
Proof.
  induction regs as [|reg regs IH]; simpl.
  - split; [discriminate | intros [? [[] _]]].
  - destruct (RegExp_match reg rel) eqn:Hm.
    + split; [|reflexivity]. intros _. exists reg. auto.
    + rewrite IH. split; intros [r [Hr Hrm]].
      * exists r. auto.
      * destruct Hr as [<-|Hr]; [congruence | exists r; auto].
Qed.

Lemma someMatch_false (regs : list string) (rel : string) :
  someMatch regs rel = false <-> forall reg, In reg regs -> RegExp_match reg rel = false.
Proof.
  split.
  - intros H reg Hreg. destruct (RegExp_match reg rel) eqn:Hm; [|reflexivity].
    assert (someMatch regs rel = true) by (apply someMatch_true; eauto). congruence.
  - intro H. destruct (someMatch regs rel) eqn:Hs; [|reflexivity].
    apply someMatch_true in Hs. destruct Hs as [reg [Hreg Hm]].
    rewrite (H reg Hreg) in Hm. discriminate.
Qed.

Lemma accepted_iff (cl : Closure) (filePath : string) :
  accepted cl filePath <->
  someMatch (cl_includes cl) (path_relative (cl_sourceDirPath cl) filePath) = true /\
  someMatch (cl_excludes cl) (path_relative (cl_sourceDirPath cl) filePath) = false.
Proof. unfold accepted. now rewrite someMatch_true, someMatch_false. Qed.

(** The four ways [walkCallback] ends. *)

Lemma walkCallback_rejected (cl : Closure) (filePath : string) (st : RunState) :
  ~ accepted cl filePath -> walkCallback cl filePath st = (Ok tt, st).
Proof.
  rewrite accepted_iff. intro H. unfold walkCallback.
  destruct (someMatch (cl_includes cl) _); simpl; [|reflexivity].
  destruct (someMatch (cl_excludes cl) _); simpl; [reflexivity|].
  exfalso. apply H. auto.
Qed.

Lemma walkCallback_parse_error (cl : Closure) (filePath e : string) (st : RunState) :
  accepted cl filePath -> ESParser_parse filePath = inr e ->
  walkCallback cl filePath st
  = (Ok tt, add_trace st (submitEvents filePath ++ [EvShowFile filePath e])).
Proof.
  rewrite accepted_iff. intros [Hi He] Hp. unfold walkCallback. rewrite Hi, He. simpl.
  unfold bind, log_info, _traverse, bind, log_verbose, emit, ret. simpl.
  rewrite Hp. simpl. now rewrite !add_trace_app.
Qed.

Lemma walkCallback_extracted (cl : Closure) (filePath : string) (ast : AST)
    (docs : list Tag) (seq' : Z) (st : RunState) :
  accepted cl filePath -> ESParser_parse filePath = inl ast ->
  extract (docSeq st) (cl_source cl) filePath (cl_packageName cl) (cl_mainFilePath cl) ast
  = (Extracted docs, seq') ->
  let jobPath := ("source" ++ path_sep
                  ++ path_relative (cl_sourceDirPath cl) filePath)%string in
  walkCallback cl filePath st
  = (Ok tt, mkState (results st ++ docs) (astJobs st ++ [(jobPath, ast)]) seq'
                    (trace st ++ submitEvents filePath ++ [EvStreamWrite jobPath ast])).
Proof.
  rewrite accepted_iff. intros [Hi He] Hp Hx. unfold walkCallback. rewrite Hi, He. simpl.
  unfold bind, log_info, _traverse, bind, log_verbose, emit, ret, get_docSeq. simpl.
  rewrite Hp. simpl. rewrite Hx. simpl.
  unfold stream_write, add_trace. simpl. now rewrite <- !app_assoc.
Qed.

Lemma walkCallback_extract_failed (cl : Closure) (filePath : string) (ast : AST)
    (node : string) (seq' : Z) (st : RunState) :
  accepted cl filePath -> ESParser_parse filePath = inl ast ->
  extract (docSeq st) (cl_source cl) filePath (cl_packageName cl) (cl_mainFilePath cl) ast
  = (ExtractFailed node, seq') ->
  walkCallback cl filePath st
  = (Throw (ExtractionError filePath node),
     mkState (results st) (astJobs st) seq'
             (trace st ++ submitEvents filePath ++ [EvShow filePath node])).
Proof.
  rewrite accepted_iff. intros [Hi He] Hp Hx. unfold walkCallback. rewrite Hi, He. simpl.
  unfold bind, log_info, _traverse, bind, log_verbose, emit, ret, get_docSeq. simpl.
  rewrite Hp. simpl. rewrite Hx. simpl.
  unfold add_trace. simpl. now rewrite <- !app_assoc.
Qed.

Lemma accepted_dec (cl : Closure) (filePath : string) :
  accepted cl filePath \/ ~ accepted cl filePath.
Proof.
  rewrite accepted_iff.
  destruct (someMatch (cl_includes cl) _), (someMatch (cl_excludes cl) _);
    intuition congruence.
Qed.

Lemma walkCallback_submitted (cl : Closure) (filePath : string) (st : RunState) :
  accepted cl filePath -> submitted filePath st (snd (walkCallback cl filePath st)).
Proof.
  intro Ha. unfold submitted.
  destruct (ESParser_parse filePath) as [ast|e] eqn:Hp.
  - destruct (extract (docSeq st) (cl_source cl) filePath (cl_packageName cl)
                      (cl_mainFilePath cl) ast) as [[docs|node] seq'] eqn:Hx.
    + rewrite (walkCallback_extracted _ _ _ _ _ _ Ha Hp Hx). simpl.
      eexists. split; [reflexivity|]. simpl. auto.
    + rewrite (walkCallback_extract_failed _ _ _ _ _ _ Ha Hp Hx). simpl.
      eexists. split; [reflexivity|]. simpl. auto.
  - rewrite (walkCallback_parse_error _ _ _ _ Ha Hp). simpl.
    eexists. split; [reflexivity|]. simpl. auto.
Qed.

End PipelineFacts.

(** ** The claims on the path matcher and the extraction driver *)

Section DriverClaims.

Context {W : World}.

(** C4. A candidate file is handed to extraction if and only if its
    relative path matches at least one include pattern and none of the
    exclude patterns; a path that matches an exclude pattern leaves the
    run untouched, whatever the include patterns say. *)
Theorem walkCallback_submits_iff (cl : Closure) (filePath : string) (st : RunState) :
  (submitted filePath st (snd (walkCallback cl filePath st)) <-> accepted cl filePath)
  /\
  ((exists reg, In reg (cl_excludes cl) /\
                RegExp_match reg (path_relative (cl_sourceDirPath cl) filePath) = true) ->
   walkCallback cl filePath st = (Ok tt, st)).
Proof.
  split.
  - split; [|apply walkCallback_submitted].
    intros [evs [Htr Hin]].
    destruct (accepted_dec cl filePath) as [Ha|Hna]; [assumption|].
    rewrite (walkCallback_rejected _ _ _ Hna) in Htr. simpl in Htr.
    rewrite <- (app_nil_r (trace st)) in Htr at 1.
    apply app_inv_head in Htr. subst evs. contradiction.
  - intros [reg [Hreg Hm]]. apply walkCallback_rejected.
    intros [_ Hex]. rewrite (Hex reg Hreg) in Hm. discriminate.
Qed.

End DriverClaims.

(** ** The claims on the configuration *)

Section ConfigClaims.

Context {W : World}.

Lemma validate_ok (config : ESDocConfig) (st : RunState) :
  valid_config config = true -> validate config st = (Ok tt, st).
Proof.
  unfold valid_config, validate, bind, assert.
  destruct (truthy (root config)), (truthy (source config)),
    (truthy (package config)), (truthy (destination config));
    simpl; intro H; try discriminate; reflexivity.
Qed.

Lemma validate_fails (config : ESDocConfig) (st : RunState) :
  valid_config config = false -> validate config st = (Throw AssertionError, st).
Proof.
  unfold valid_config, validate, bind, assert.
  destruct (truthy (root config)), (truthy (source config)),
    (truthy (package config)), (truthy (destination config));
    simpl; intro H; try discriminate; reflexivity.
Qed.

Lemma checkOldKeys_ok (keys : list (string * string)) (config : ESDocConfig)
    (exit : bool) (st : RunState) :
  forallb (fun kp => negb (key_in (fst kp) config)) keys = true ->
  checkOldKeys keys config exit st = (Ok exit, st).
Proof.
  induction keys as [|[key plugin] keys IH]; simpl; intro H; [reflexivity|].
  apply andb_true_iff in H. destruct H as [Hk Hrest].
  apply negb_true_iff in Hk. rewrite Hk. now apply IH.
Qed.

Lemma checkOldConfig_ok (config : ESDocConfig) (st : RunState) :
  no_old_keys config = true -> _checkOldConfig config st = (Ok tt, st).
Proof.
  intro H. unfold _checkOldConfig, bind.
  now rewrite (checkOldKeys_ok oldKeys config false st H).
Qed.

(** A valid configuration reaches the hooks; the run then goes on with
    the defaults applied to what [Plugin.onHandleConfig] returned. *)
Lemma generate_valid (fuel : nat) (config : ESDocConfig) (st : RunState) :
  valid_config config = true -> no_old_keys config = true ->
  generate fuel config st
  = generate_run fuel (_setDefaultConfig (Plugin_onHandleConfig config))
      (add_trace st [EvPluginInit (plugins config); EvPluginOnStart;
                     EvPluginOnHandleConfig config]).
Proof.
  intros Hv Hk.
  unfold generate. unfold bind at 1. rewrite (validate_ok _ _ Hv).
  unfold bind at 1. rewrite (checkOldConfig_ok _ _ Hk).
  unfold bind, emit. simpl. now rewrite !add_trace_app.
Qed.

(** C8. A configuration with [root] set and [source] or [package] also
    set, and a configuration without [destination], make [generate]
    raise the assertion failure at once: the state of the run is
    unchanged, so no plugin was called and no file or directory was
    read. *)
Theorem generate_validates_first (fuel : nat) (config : ESDocConfig) (st : RunState) :
  (truthy (root config) = true /\
   (truthy (source config) = true \/ truthy (package config) = true))
  \/ truthy (destination config) = false ->
  generate fuel config st = (Throw AssertionError, st).
Proof.
  intro H. unfold generate, bind.
  rewrite validate_fails; [reflexivity|].
  unfold valid_config.
  destruct H as [[Hr [Hs|Hp]]|Hd].
  - rewrite Hr, Hs. reflexivity.
  - rewrite Hr, Hp. simpl. now rewrite andb_false_r.
  - rewrite Hd. now rewrite andb_false_r.
Qed.

End ConfigClaims.

Lemma generate_validates_first_witness :
  @generate srcWorld 3 conflictingConfig initialState
  = (Throw AssertionError, initialState).
Proof.
  apply (@generate_validates_first srcWorld 3 conflictingConfig initialState).
  left. split; [reflexivity | left; reflexivity].
Defined.

(** C9, as stated, fails: the configuration [Plugin.onHandleConfig]
    receives is the one given to [generate], without the defaults. *)
Lemma config_hook_sees_no_defaults :
  In (EvPluginOnHandleConfig srcConfig) (trace (snd srcRun)) /\
  ~ In (EvPluginOnHandleConfig (@_setDefaultConfig srcConfig)) (trace (snd srcRun)) /\
  includes srcConfig = None /\
  includes (_setDefaultConfig srcConfig) = Some ["\.js$"].
Proof.
  vm_compute. split; [tauto|]. split; [|split; reflexivity].
  intro H. repeat (destruct H as [H|H]; [discriminate H|]). exact H.
Qed.

(** ** The claims on the package-aware walker *)

Section WalkRootClaims.

Context {W : World}.

Lemma walk_unfold (fuel : nat) (dirPath : string)
    (callback : string -> option PackageValue -> M unit) (recurse : Recurse) :
  _walk (S fuel) dirPath callback recurse
  = (entries <- fs_readdirSync dirPath ;;
     walk_entries callback (recurse_call fuel callback recurse) dirPath entries).
Proof. destruct recurse; reflexivity. Qed.

Lemma hasPackageJson_true (entries : list string) :
  In "package.json" entries -> existsb (String.eqb "package.json") entries = true.
Proof.
  intro H. apply existsb_exists. exists "package.json". split; [assumption | reflexivity].
Qed.

Lemma walkRoot_unparseable (fuel : nat) (this : ThisValue) (dirPath : string)
    (callback : string -> option PackageValue -> M unit) (entries : list string)
    (st : RunState) :
  readdirSync dirPath = Some entries -> In "package.json" entries ->
  require (path_resolve2 dirPath "package.json") = None ->
  _walkRoot (S fuel) this dirPath callback st
  = (Ok tt, add_trace st (unparseableEvents dirPath)).
Proof.
  intros Hdir Hin Hreq. cbn [_walkRoot].
  run_m. rewrite Hdir. run_m. rewrite (hasPackageJson_true _ Hin).
  run_m. rewrite Hreq. run_m. now rewrite !add_trace_app.
Qed.

(** After a directory whose descriptor fails to load, the loop of the
    calling [_walk] goes on with the entries that follow it. *)
Lemma walk_entries_skips_unparseable (fuel : nat)
    (callback : string -> option PackageValue -> M unit)
    (parent entry : string) (rest entries : list string) (st : RunState) :
  let dirPath := path_resolve2 parent entry in
  statSync dirPath = Some StatDirectory ->
  readdirSync dirPath = Some entries -> In "package.json" entries ->
  require (path_resolve2 dirPath "package.json") = None ->
  walk_entries callback (recurse_call (S fuel) callback RecurseWalkRoot)
               parent (entry :: rest) st
  = walk_entries callback (recurse_call (S fuel) callback RecurseWalkRoot)
                 parent rest
                 (add_trace st (EvStatSync dirPath :: unparseableEvents dirPath)).
Proof.
  intros dirPath Hstat Hdir Hin Hreq. subst dirPath.
  cbn [walk_entries]. run_m. rewrite Hstat. run_m.
  unfold recurse_call at 1.
  rewrite (walkRoot_unparseable fuel ThisUndefined _ callback entries _ Hdir Hin Hreq).
  now rewrite add_trace_app.
Qed.

Lemma checkSrcDir_ok (srcDir : string) (st : RunState) :
  checkSrcDir srcDir st = (Ok tt, add_trace st (checkSrcDirEvents srcDir)).
Proof.
  unfold checkSrcDir, checkSrcDirEvents. run_m.
  destruct (statSync srcDir) as [[| |]|]; run_m; now rewrite ?add_trace_app.
Qed.

(** In a package whose source directory cannot be listed (it does not
    exist, or is not a directory), [_walkRoot] logs what [checkSrcDir]
    finds, calls the callback on the descriptor and, when the callback
    returns, throws: the error of [fs.readdirSync] on the source
    directory, or the [TypeError] of [this._walkRoot] when [this] is
    [undefined]. *)
Lemma walkRoot_unlistable_src (fuel : nat) (this : ThisValue) (dirPath : string)
    (callback : string -> option PackageValue -> M unit) (entries : list string)
    (directories_src : option string) (descriptor : string) (st st2 : RunState) :
  let packagePath := path_resolve2 dirPath "package.json" in
  let srcDir := path_resolve2 dirPath (srcDirName directories_src) in
  readdirSync dirPath = Some entries -> In "package.json" entries ->
  require packagePath = Some (PkgObj directories_src descriptor) ->
  readdirSync srcDir = None ->
  callback packagePath (Some (PkgObj directories_src descriptor))
           (add_trace st ([EvReaddirSync dirPath; EvRequire packagePath;
                           EvConsoleLog ("Found package at " ++ packagePath)%string]
                          ++ checkSrcDirEvents srcDir))
  = (Ok tt, st2) ->
  _walkRoot (S (S fuel)) this dirPath callback st
  = match this with
    | ThisESDoc =>
        (Throw (FsError "scandir" srcDir), add_trace st2 [EvReaddirSync srcDir])
    | ThisUndefined =>
        (Throw (TypeError "Cannot read property '_walkRoot' of undefined"), st2)
    end.
Proof.
  intros packagePath srcDir Hdir Hin Hreq Hsrc Hcb.
  subst packagePath srcDir.
  cbn [_walkRoot].
  run_m. rewrite Hdir. run_m. rewrite (hasPackageJson_true _ Hin).
  run_m. rewrite Hreq. run_m.
  rewrite checkSrcDir_ok. rewrite !add_trace_app. cbn [app] in *. rewrite Hcb.
  destruct this; [|reflexivity].
  run_m. rewrite Hsrc. reflexivity.
Qed.

End WalkRootClaims.

(** ** The fixed-source walk and the records it collects *)

Section WalkCollect.

Context {W : World}.

Variable cl : Closure.

Lemma is_accepted_iff (filePath : string) :
  is_accepted cl filePath = true <-> accepted cl filePath.
Proof.
  unfold is_accepted. rewrite accepted_iff, andb_true_iff, negb_true_iff. tauto.
Qed.

Lemma is_accepted_false (filePath : string) :
  is_accepted cl filePath = false -> ~ accepted cl filePath.
Proof. intros H Ha. apply is_accepted_iff in Ha. congruence. Qed.

Lemma contributes_refl (st : RunState) : contributes st st [] [] (docSeq st).
Proof.
  unfold contributes. rewrite !app_nil_r. repeat split.
  exists []. now rewrite app_nil_r.
Qed.

Lemma contributes_trans (st st1 st2 : RunState) (d1 d2 : list Tag)
    (j1 j2 : list (string * AST)) (s1 s2 : Z) :
  contributes st st1 d1 j1 s1 -> contributes st1 st2 d2 j2 s2 ->
  contributes st st2 (d1 ++ d2) (j1 ++ j2) s2.
Proof.
  intros [Hr1 [Hj1 [Hs1 [e1 He1]]]] [Hr2 [Hj2 [Hs2 [e2 He2]]]].
  unfold contributes. rewrite Hr2, Hr1, Hj2, Hj1, He2, He1, !app_assoc.
  repeat split; try assumption. now exists (e1 ++ e2); rewrite app_assoc.
Qed.

Lemma contributes_add_trace (st : RunState) (evs : list Event) :
  contributes st (add_trace st evs) [] [] (docSeq st).
Proof.
  unfold contributes, add_trace. simpl. rewrite !app_nil_r. repeat split.
  now exists evs.
Qed.

Lemma collect_app (l1 l2 : list string) (seq : Z) :
  collect cl (l1 ++ l2) seq
  = match collect cl l1 seq with
    | Some (d1, j1, s1) =>
        match collect cl l2 s1 with
        | Some (d2, j2, s2) => Some (d1 ++ d2, j1 ++ j2, s2)
        | None => None
        end
    | None => None
    end.
Proof.
  revert seq. induction l1 as [|f l1 IH]; intro seq; simpl.
  - destruct (collect cl l2 seq) as [[[d2 j2] s2]|]; reflexivity.
  - destruct (is_accepted cl f); [|apply IH].
    destruct (ESParser_parse f) as [ast|e]; [|apply IH].
    destruct (extract _ _ _ _ _ _) as [[docs|node] seq']; [|reflexivity].
    rewrite IH. destruct (collect cl l1 seq') as [[[d1 j1] s1]|]; [|reflexivity].
    destruct (collect cl l2 s1) as [[[d2 j2] s2]|]; [|reflexivity].
    now rewrite app_assoc.
Qed.

(** What one call of the callback does, in terms of [collect]. *)
Lemma walkCallback_collect (filePath : string) (st : RunState)
    (docs : list Tag) (jobs : list (string * AST)) (seq' : Z) :
  collect cl [filePath] (docSeq st) = Some (docs, jobs, seq') ->
  exists st', walkCallback cl filePath st = (Ok tt, st') /\
              contributes st st' docs jobs seq'.
Proof.
  simpl. destruct (is_accepted cl filePath) eqn:Hacc.
  - apply is_accepted_iff in Hacc.
    destruct (ESParser_parse filePath) as [ast|e] eqn:Hp.
    + destruct (extract _ _ _ _ _ _) as [[ds|node] s] eqn:Hx; [|discriminate].
      intro H. injection H as <- <- <-.
      rewrite (walkCallback_extracted _ _ _ _ _ _ Hacc Hp Hx).
      eexists. split; [reflexivity|].
      unfold contributes. simpl. rewrite app_nil_r. repeat split.
      eexists. reflexivity.
    + intro H. injection H as <- <- <-.
      rewrite (walkCallback_parse_error _ _ _ _ Hacc Hp).
      eexists. split; [reflexivity | apply contributes_add_trace].
  - intro H. injection H as <- <- <-.
    rewrite (walkCallback_rejected _ _ _ (is_accepted_false _ Hacc)).
    eexists. split; [reflexivity | apply contributes_refl].
Qed.

Lemma collect_cons (filePath : string) (rest : list string) (seq : Z) :
  collect cl (filePath :: rest) seq
  = match collect cl [filePath] seq with
    | Some (d1, j1, s1) =>
        match collect cl rest s1 with
        | Some (d2, j2, s2) => Some (d1 ++ d2, j1 ++ j2, s2)
        | None => None
        end
    | None => None
    end.
Proof. apply (collect_app [filePath] rest). Qed.

Lemma walk_entries_collect (fuel : nat) :
  (forall dirPath files st docs jobs seq',
      listFiles fuel dirPath = Some files ->
      collect cl files (docSeq st) = Some (docs, jobs, seq') ->
      exists st', _walk fuel dirPath (fileCallback cl) RecurseWalk st = (Ok tt, st') /\
                  contributes st st' docs jobs seq') ->
  forall entries dirPath files st docs jobs seq',
    listEntries (listFiles fuel) dirPath entries = Some files ->
    collect cl files (docSeq st) = Some (docs, jobs, seq') ->
    exists st', walk_entries (fileCallback cl) (recurse_call fuel (fileCallback cl) RecurseWalk) dirPath entries st
                = (Ok tt, st') /\
                contributes st st' docs jobs seq'.
Proof.
  intro IHfuel. induction entries as [|entry rest IH];
    intros dirPath files st docs jobs seq' Hlist Hcol.
  - simpl in Hlist. injection Hlist as <-. simpl in Hcol. injection Hcol as <- <- <-.
    exists st. split; [reflexivity | apply contributes_refl].
  - cbn [listEntries] in Hlist. cbn [walk_entries]. run_m.
    destruct (statSync (path_resolve2 dirPath entry)) as [[| |]|] eqn:Hstat;
      [| | |discriminate]; run_m.
    + (* a file *)
      destruct (listEntries (listFiles fuel) dirPath rest) as [after|] eqn:Hrest;
        [|discriminate].
      simpl in Hlist. injection Hlist as <-.
      rewrite collect_cons in Hcol.
      destruct (collect cl [path_resolve2 dirPath entry] (docSeq st))
        as [[[d1 j1] s1]|] eqn:Hc1; [|discriminate].
      destruct (collect cl after s1) as [[[d2 j2] s2]|] eqn:Hc2; [|discriminate].
      injection Hcol as <- <- <-.
      destruct (walkCallback_collect (path_resolve2 dirPath entry)
                  (add_trace st [EvStatSync (path_resolve2 dirPath entry)]) d1 j1 s1 Hc1)
        as [st1 [Hrun1 Hcon1]].
      unfold fileCallback at 1. rewrite Hrun1.
      destruct Hcon1 as [Hr1 [Hj1 [Hs1 [e1 He1]]]].
      destruct (IH dirPath after st1 d2 j2 s2 Hrest) as [st2 [Hrun2 Hcon2]];
        [now rewrite Hs1|].
      exists st2. split; [exact Hrun2|].
      apply (contributes_trans st st1 st2 d1 d2 j1 j2 s1 s2); [|assumption].
      unfold contributes. simpl in Hr1, Hj1, He1. rewrite Hr1, Hj1, He1.
      repeat split; try assumption. eexists. rewrite <- app_assoc. reflexivity.
    + (* a directory *)
      destruct (listFiles fuel (path_resolve2 dirPath entry)) as [below|] eqn:Hbelow;
        [|discriminate].
      destruct (listEntries (listFiles fuel) dirPath rest) as [after|] eqn:Hrest;
        [|discriminate].
      injection Hlist as <-.
      rewrite collect_app in Hcol.
      destruct (collect cl below (docSeq st)) as [[[d1 j1] s1]|] eqn:Hc1; [|discriminate].
      destruct (collect cl after s1) as [[[d2 j2] s2]|] eqn:Hc2; [|discriminate].
      injection Hcol as <- <- <-.
      destruct (IHfuel (path_resolve2 dirPath entry) below
                  (add_trace st [EvStatSync (path_resolve2 dirPath entry)]) d1 j1 s1
                  Hbelow Hc1) as [st1 [Hrun1 Hcon1]].
      unfold recurse_call at 1. rewrite Hrun1.
      destruct Hcon1 as [Hr1 [Hj1 [Hs1 [e1 He1]]]].
      destruct (IH dirPath after st1 d2 j2 s2 Hrest) as [st2 [Hrun2 Hcon2]];
        [now rewrite Hs1|].
      exists st2. split; [exact Hrun2|].
      apply (contributes_trans st st1 st2 d1 d2 j1 j2 s1 s2); [|assumption].
      unfold contributes. simpl in Hr1, Hj1, He1. rewrite Hr1, Hj1, He1.
      repeat split; try assumption. eexists. rewrite <- app_assoc. reflexivity.
    + (* neither *)
      destruct (IH dirPath files
                  (add_trace st [EvStatSync (path_resolve2 dirPath entry)]) docs jobs seq'
                  Hlist Hcol) as [st2 [Hrun2 Hcon2]].
      exists st2. split; [exact Hrun2|].
      replace docs with ([] ++ docs) by reflexivity.
      replace jobs with ([] ++ jobs) by reflexivity.
      eapply contributes_trans; [apply contributes_add_trace | exact Hcon2].
Qed.

(** The walk of fixed-source mode adds to the run what [collect] says
    the files under the directory contribute. *)
Lemma walk_collect (fuel : nat) (dirPath : string) (files : list string)
    (st : RunState) (docs : list Tag) (jobs : list (string * AST)) (seq' : Z) :
  listFiles fuel dirPath = Some files ->
  collect cl files (docSeq st) = Some (docs, jobs, seq') ->
  exists st', _walk fuel dirPath (fileCallback cl) RecurseWalk st = (Ok tt, st') /\
              contributes st st' docs jobs seq'.
Proof.
  revert dirPath files st docs jobs seq'.
  induction fuel as [|fuel IH]; intros dirPath files st docs jobs seq' Hlist Hcol.
  - discriminate.
  - cbn [listFiles] in Hlist.
    destruct (readdirSync dirPath) as [entries|] eqn:Hdir; [|discriminate].
    rewrite walk_unfold. run_m. rewrite Hdir. run_m.
    destruct (walk_entries_collect fuel IH entries dirPath files
                (add_trace st [EvReaddirSync dirPath]) docs jobs seq' Hlist Hcol)
      as [st2 [Hrun2 Hcon2]].
    exists st2. split; [exact Hrun2|].
    replace docs with ([] ++ docs) by reflexivity.
    replace jobs with ([] ++ jobs) by reflexivity.
    eapply contributes_trans; [apply contributes_add_trace | exact Hcon2].
Qed.

End WalkCollect.

Section Fuel.

Context {W : World}.

Lemma listEntries_mono (f g : string -> option (list string)) :
  (forall p l, f p = Some l -> g p = Some l) ->
  forall dirPath entries l,
    listEntries f dirPath entries = Some l -> listEntries g dirPath entries = Some l.
Proof.
  intros Hfg dirPath. induction entries as [|entry rest IH]; intros l H; simpl in *.
  - assumption.
  - destruct (statSync (path_resolve2 dirPath entry)) as [[| |]|]; try discriminate.
    + destruct (listEntries f dirPath rest) as [after|]; [|discriminate].
      now rewrite (IH after eq_refl).
    + destruct (f (path_resolve2 dirPath entry)) as [below|] eqn:Hf; [|discriminate].
      destruct (listEntries f dirPath rest) as [after|]; [|discriminate].
      now rewrite (Hfg _ _ Hf), (IH after eq_refl).
    + now apply IH.
Qed.

(** A walk that finishes within some call depth finishes, with the same
    files, within any greater one. *)
Lemma listFiles_mono (fuel fuel' : nat) (dirPath : string) (files : list string) :
  (fuel <= fuel')%nat -> listFiles fuel dirPath = Some files ->
  listFiles fuel' dirPath = Some files.
Proof.
  revert fuel' dirPath files.
  induction fuel as [|fuel IH]; intros fuel' dirPath files Hle H; [discriminate|].
  destruct fuel' as [|fuel']; [lia|]. simpl in *.
  destruct (readdirSync dirPath) as [entries|]; [|discriminate].
  apply (listEntries_mono (listFiles fuel)); [|assumption].
  intros p l Hp. apply IH; [lia | assumption].
Qed.

End Fuel.

(** ** A whole run in fixed-source mode *)

Section FixedSourceRun.

Context {W : World}.

Lemma compileAll_ok (patterns : list string) (st : RunState) :
  forallb RegExp_valid patterns = true -> compileAll patterns st = (Ok patterns, st).
Proof.
  induction patterns as [|v rest IH]; simpl; intro H; [reflexivity|].
  apply andb_true_iff in H. destruct H as [Hv Hrest].
  rewrite Hv. run_m. rewrite (IH Hrest). reflexivity.
Qed.

Lemma as_truthy_Some (v : option string) (s : string) :
  as_truthy v = Some s -> v = Some s /\ truthy v = true.
Proof.
  unfold as_truthy, truthy. destruct v as [s'|]; [|discriminate].
  destruct (s' =? "")%string; [discriminate|]. intro H. injection H as ->. auto.
Qed.

Lemma as_truthy_None (v : option string) : as_truthy v = None -> truthy v = false.
Proof.
  unfold as_truthy, truthy. destruct v as [s'|]; [|reflexivity].
  destruct (s' =? "")%string; [reflexivity | discriminate].
Qed.

Lemma readPackageNameMain_ok (config : ESDocConfig) (st : RunState) :
  exists evs, readPackageNameMain config st
              = (Ok (packageNameMain config), add_trace st evs).
Proof.
  unfold readPackageNameMain, packageNameMain.
  destruct (as_truthy (package config)) as [p|].
  - run_m. destruct (readFileSync p) as [text|].
    + run_m. destruct (JSON_parse_name_main text) as [nm|]; run_m;
        eexists; reflexivity.
    + run_m. eexists. reflexivity.
  - exists []. run_m. now rewrite add_trace_nil.
Qed.

Lemma generateForIndex_ok (config : ESDocConfig) (idx text : string) (st : RunState) :
  index config = Some idx -> readFileSync idx = Some text ->
  _generateForIndex config st
  = (Ok (indexTag idx text), add_trace st [EvReadFileSync idx]).
Proof.
  intros Hi Hr. unfold _generateForIndex. rewrite Hi. run_m. rewrite Hr. reflexivity.
Qed.

Lemma generateForOldPackageJSON_ok (config : ESDocConfig) (st : RunState) :
  exists evs, _generateForOldPackageJSON config st
              = (Ok (oldPackageTag config), add_trace st evs).
Proof.
  unfold _generateForOldPackageJSON, oldPackageTag.
  destruct (package config) as [p|].
  - run_m. destruct (readFileSync p) as [text|]; run_m; eexists; reflexivity.
  - exists []. run_m. now rewrite add_trace_nil.
Qed.

Lemma bind_Ok {A B : Type} (m : M A) (k : A -> M B) (st st' : RunState) (a : A) :
  m st = (Ok a, st') -> bind m k st = k a st'.
Proof. intro H. unfold bind. now rewrite H. Qed.

Lemma pushIndex_ok (config : ESDocConfig) (idx text : string) (st : RunState) :
  index config = Some idx -> readFileSync idx = Some text ->
  (tag <- _generateForIndex config ;; results_push [tag]) st
  = (Ok tt, mkState (results st ++ [indexTag idx text]) (astJobs st) (docSeq st)
                    (trace st ++ [EvReadFileSync idx])).
Proof.
  intros Hi Hr. rewrite (bind_Ok _ _ _ _ _ (generateForIndex_ok config idx text st Hi Hr)).
  reflexivity.
Qed.

Lemma pushOldPackage_ok (config : ESDocConfig) (st : RunState) :
  exists evs,
    (if truthy (package config)
     then tag <- _generateForOldPackageJSON config ;; results_push [tag]
     else ret tt) st
    = (Ok tt, mkState (results st
                       ++ (if truthy (package config) then [oldPackageTag config] else []))
                      (astJobs st) (docSeq st) (trace st ++ evs)).
Proof.
  destruct (truthy (package config)).
  - destruct (generateForOldPackageJSON_ok config st) as [evs H].
    exists evs. rewrite (bind_Ok _ _ _ _ _ H). reflexivity.
  - exists []. unfold ret. rewrite !app_nil_r. now destruct st.
Qed.

(** In fixed-source mode, when the walk finishes and the index file can
    be read, the run ends normally and writes to [index.json] the
    records [collect] gathers from the files, followed by the synthetic
    records, after the duplicate resolver and the docs hook. *)
Lemma generate_run_fixed_source (fuel : nat) (config : ESDocConfig) (st : RunState)
    (src idx text dest : string) (incs excs files : list string)
    (docs : list Tag) (jobs : list (string * AST)) (seq' : Z) :
  includes config = Some incs -> excludes config = Some excs ->
  forallb RegExp_valid incs = true -> forallb RegExp_valid excs = true ->
  as_truthy (root config) = None -> source config = Some src ->
  as_truthy (index config) = Some idx -> readFileSync idx = Some text ->
  destination config = Some dest ->
  listFiles fuel src = Some files ->
  collect (closure_of config src incs excs) files (docSeq st) = Some (docs, jobs, seq') ->
  let final := Plugin_onHandleDocs
                 (_resolveDuplication (docs ++ syntheticTags config idx text)) in
  exists st',
    generate_run fuel config st = (Ok tt, st') /\
    results st' = final /\
    astJobs st' = astJobs st ++ jobs /\
    exists evs, trace st'
                = trace st ++ evs ++ [EvOutputFileSync (path_resolve2 dest "index.json") final].
Proof.
  intros Hinc Hexc Hvi Hve Hroot Hsrc Hidx Hread Hdest Hlist Hcol final.
  apply as_truthy_Some in Hidx. destruct Hidx as [Hidx Hidxt].
  unfold generate_run. rewrite Hinc, Hexc, Hsrc, Hroot, Hidxt, Hdest.
  unfold bind at 1. rewrite (compileAll_ok _ _ Hvi).
  unfold bind at 1. rewrite (compileAll_ok _ _ Hve).
  unfold bind at 1. destruct (readPackageNameMain_ok config st) as [ev1 ->].
  destruct (packageNameMain config) as [packageName mainFilePath] eqn:Hnm.
  unfold bind at 1. unfold set_results at 1.
  unfold bind at 1. unfold ret at 1.
  set (st0 := mkState [] (astJobs (add_trace st ev1)) (docSeq (add_trace st ev1))
                      (trace (add_trace st ev1))).
  assert (Hcl : closure_of config src incs excs
                = mkClosure src incs excs (path_resolve src) packageName mainFilePath).
  { unfold closure_of. now rewrite Hnm. }
  rewrite Hcl in Hcol.
  destruct (walk_collect _ fuel src files st0 docs jobs seq' Hlist Hcol)
    as [st1 [Hwalk [Hr1 [Hj1 [Hs1 [ev2 He2]]]]]].
  rewrite (bind_Ok _ _ _ _ _ Hwalk).
  rewrite (bind_Ok _ _ _ _ _ (eq_refl : emit EvStreamEnd st1 = (Ok tt, _))).
  rewrite (bind_Ok _ _ _ _ _ (pushIndex_ok config idx text _ Hidx Hread)).
  destruct (pushOldPackage_ok config
              (mkState (results (add_trace st1 [EvStreamEnd]) ++ [indexTag idx text])
                       (astJobs (add_trace st1 [EvStreamEnd]))
                       (docSeq (add_trace st1 [EvStreamEnd]))
                       (trace (add_trace st1 [EvStreamEnd]) ++ [EvReadFileSync idx])))
    as [ev3 Hpkg].
  rewrite (bind_Ok _ _ _ _ _ Hpkg).
  cbn [results astJobs docSeq trace add_trace].
  rewrite Hr1, Hj1, Hs1, He2. subst st0. cbn [results astJobs docSeq trace add_trace].
  eexists. split; [reflexivity|].
  cbn [results astJobs docSeq trace add_trace app].
  unfold final, syntheticTags. rewrite <- !app_assoc.
  split; [reflexivity|]. split; [reflexivity|].
  exists (ev1 ++ ev2 ++ EvStreamEnd :: EvReadFileSync idx :: ev3
          ++ [EvPluginOnHandleDocs
                (_resolveDuplication
                   (docs ++ indexTag idx text
                         :: (if truthy (package config)
                             then [oldPackageTag config] else [])))]).
  repeat (rewrite <- !app_assoc; cbn [app]). reflexivity.
Qed.

(** The same for [generate], from the configuration it is given. *)
Lemma generate_fixed_source (fuel0 fuel : nat) (config : ESDocConfig) (st : RunState)
    (src idx text dest : string) (incs excs files : list string)
    (docs : list Tag) (jobs : list (string * AST)) (seq' : Z) :
  valid_config config = true -> no_old_keys config = true ->
  let config' := _setDefaultConfig (Plugin_onHandleConfig config) in
  includes config' = Some incs -> excludes config' = Some excs ->
  forallb RegExp_valid incs = true -> forallb RegExp_valid excs = true ->
  as_truthy (root config') = None -> source config' = Some src ->
  as_truthy (index config') = Some idx -> readFileSync idx = Some text ->
  destination config' = Some dest ->
  listFiles fuel0 src = Some files -> (fuel0 <= fuel)%nat ->
  collect (closure_of config' src incs excs) files (docSeq st) = Some (docs, jobs, seq') ->
  let final := Plugin_onHandleDocs
                 (_resolveDuplication (docs ++ syntheticTags config' idx text)) in
  exists st',
    generate fuel config st = (Ok tt, st') /\
    results st' = final /\
    astJobs st' = astJobs st ++ jobs /\
    exists evs, trace st'
                = trace st ++ evs ++ [EvOutputFileSync (path_resolve2 dest "index.json") final].
Proof.
  intros Hv Hk config' Hinc Hexc Hvi Hve Hroot Hsrc Hidx Hread Hdest Hlist0 Hle Hcol final.
  assert (Hlist := listFiles_mono fuel0 fuel src files Hle Hlist0).
  rewrite (generate_valid fuel config st Hv Hk). fold config'.
  destruct (generate_run_fixed_source fuel config'
              (add_trace st [EvPluginInit (plugins config); EvPluginOnStart;
                             EvPluginOnHandleConfig config])
              src idx text dest incs excs files docs jobs seq'
              Hinc Hexc Hvi Hve Hroot Hsrc Hidx Hread Hdest Hlist Hcol)
    as [st' [Hrun [Hres [Hjobs [evs Htr]]]]].
  exists st'. split; [exact Hrun|]. split; [exact Hres|]. split; [exact Hjobs|].
  exists ([EvPluginInit (plugins config); EvPluginOnStart; EvPluginOnHandleConfig config]
          ++ evs).
  rewrite Htr. cbn [trace add_trace]. now rewrite <- !app_assoc.
Qed.

End FixedSourceRun.

(** ** The claim on parse failures *)

Section ParseFailure.

Context {W : World}.

(** C7. A parse failure is recoverable per file.
    - An accepted file whose parse fails is logged with its path and
      the error; the callback returns normally, and the records, the
      AST jobs and the id counter of the run are unchanged.
    - The loop of [_walk] then goes on with the entries that follow the
      file.
    - A run in fixed-source mode whose walk finishes (within the call
      depth [fuel0], and so within any greater one) ends normally and
      writes to [index.json] the records of the accepted files that
      parse, in the order of the walk, followed by the synthetic
      records, after the duplicate resolver and the docs hook.
    - In that collection a file whose parse fails changes nothing of
      what the files before and after it contribute, and the records and
      the AST of every file that parses are present. *)
Theorem parse_failure_is_recoverable :
  (forall (cl : Closure) (filePath e : string) (st : RunState),
      accepted cl filePath -> ESParser_parse filePath = inr e ->
      walkCallback cl filePath st
      = (Ok tt, add_trace st (submitEvents filePath ++ [EvShowFile filePath e])))
  /\
  (forall (cl : Closure) (recurse : string -> M unit) (dirPath entry e : string)
          (rest : list string) (st : RunState),
      let filePath := path_resolve2 dirPath entry in
      statSync filePath = Some StatFile ->
      accepted cl filePath -> ESParser_parse filePath = inr e ->
      walk_entries (fileCallback cl) recurse dirPath (entry :: rest) st
      = walk_entries (fileCallback cl) recurse dirPath rest
          (add_trace st (EvStatSync filePath :: submitEvents filePath
                         ++ [EvShowFile filePath e])))
  /\
  (forall (fuel0 fuel : nat) (config : ESDocConfig) (st : RunState)
          (src idx text dest : string) (incs excs files : list string)
          (docs : list Tag) (jobs : list (string * AST)) (seq' : Z),
      valid_config config = true -> no_old_keys config = true ->
      let config' := _setDefaultConfig (Plugin_onHandleConfig config) in
      includes config' = Some incs -> excludes config' = Some excs ->
      forallb RegExp_valid incs = true -> forallb RegExp_valid excs = true ->
      as_truthy (root config') = None -> source config' = Some src ->
      as_truthy (index config') = Some idx -> readFileSync idx = Some text ->
      destination config' = Some dest ->
      listFiles fuel0 src = Some files -> (fuel0 <= fuel)%nat ->
      collect (closure_of config' src incs excs) files (docSeq st)
      = Some (docs, jobs, seq') ->
      let final := Plugin_onHandleDocs
                     (_resolveDuplication (docs ++ syntheticTags config' idx text)) in
      exists st',
        generate fuel config st = (Ok tt, st') /\
        results st' = final /\
        astJobs st' = astJobs st ++ jobs /\
        exists evs,
          trace st'
          = trace st ++ evs ++ [EvOutputFileSync (path_resolve2 dest "index.json") final])
  /\
  (forall (cl : Closure) (before after : list string) (bad e : string) (seq : Z),
      accepted cl bad -> ESParser_parse bad = inr e ->
      collect cl (before ++ bad :: after) seq = collect cl (before ++ after) seq)
  /\
  (forall (cl : Closure) (before after : list string) (filePath : string) (ast : AST)
          (seq seq' : Z) (docs : list Tag) (jobs : list (string * AST)),
      accepted cl filePath -> ESParser_parse filePath = inl ast ->
      collect cl (before ++ filePath :: after) seq = Some (docs, jobs, seq') ->
      exists seq1 seq2 docs1,
        extract seq1 (cl_source cl) filePath (cl_packageName cl) (cl_mainFilePath cl) ast
        = (Extracted docs1, seq2) /\
        incl docs1 docs /\
        In (("source" ++ path_sep
             ++ path_relative (cl_sourceDirPath cl) filePath)%string, ast) jobs).
Proof.
  split; [|split; [|split; [|split]]].
  - intros cl filePath e st Ha Hp. now apply walkCallback_parse_error.
  - intros cl recurse dirPath entry e rest st filePath Hstat Ha Hp. subst filePath.
    cbn [walk_entries]. run_m. rewrite Hstat. run_m.
    unfold fileCallback at 1. rewrite (walkCallback_parse_error _ _ _ _ Ha Hp).
    now rewrite add_trace_app.
  - intros. now apply (generate_fixed_source fuel0 fuel config st src idx text dest
                         incs excs files docs jobs seq').
  - intros cl before after bad e seq Ha Hp.
    rewrite !collect_app.
    destruct (collect cl before seq) as [[[d1 j1] s1]|]; [|reflexivity].
    cbn [collect]. apply is_accepted_iff in Ha. now rewrite Ha, Hp.
  - intros cl before after filePath ast seq seq' docs jobs Ha Hp Hcol.
    rewrite collect_app in Hcol.
    destruct (collect cl before seq) as [[[d1 j1] s1]|]; [|discriminate].
    cbn [collect] in Hcol. apply is_accepted_iff in Ha. rewrite Ha, Hp in Hcol.
    destruct (extract s1 (cl_source cl) filePath (cl_packageName cl)
                      (cl_mainFilePath cl) ast) as [[docs1|node] seq2] eqn:Hx;
      [|discriminate].
    destruct (collect cl after seq2) as [[[d2 j2] s2]|]; [|discriminate].
    injection Hcol as <- <- <-.
    exists s1, seq2, docs1. split; [exact Hx|]. split.
    + intros d Hd. apply in_or_app. right. apply in_or_app. now left.
    + apply in_or_app. right. now left.
Qed.

End ParseFailure.

(** C7, in a tree with two files that parse and one that does not. *)
Lemma parse_failure_is_recoverable_witness :
  exists st',
    @generate srcWorld 3 srcConfig initialState = (Ok tt, st') /\
    results st' = srcDocs ++ @syntheticTags srcWorld srcConfig' "./README.md" "# readme" /\
    astJobs st' = srcJobs /\
    exists evs,
      trace st'
      = evs ++ [EvOutputFileSync "./out/index.json"
                  (srcDocs ++ @syntheticTags srcWorld srcConfig' "./README.md" "# readme")].
Proof.
  exact (proj1 (proj2 (proj2 (@parse_failure_is_recoverable srcWorld)))
           2%nat 3%nat srcConfig initialState "./src" "./README.md" "# readme" "./out"
           ["\.js$"] ["\.config\.js$"; "\.test\.js$"] srcFiles srcDocs srcJobs 3
           eq_refl eq_refl eq_refl eq_refl eq_refl eq_refl eq_refl eq_refl eq_refl
           eq_refl eq_refl eq_refl (le_S 2 2 (le_n 2)) eq_refl).
Defined.

(** C4, on a test file of [srcWorld]: it matches the include pattern
    and an exclude pattern, and is not parsed. *)
Lemma walkCallback_submits_iff_witness :
  @walkCallback srcWorld srcClosure "./src/lib/good2.test.js" initialState
  = (Ok tt, initialState).
Proof.
  apply (proj2 (@walkCallback_submits_iff srcWorld srcClosure
                  "./src/lib/good2.test.js" initialState)).
  exists "\.test\.js$". split; [simpl; auto | reflexivity].
Defined.

(** C5. What the code does on a package whose source directory does
    not exist: [_walkRoot] logs the diagnostic, hands the descriptor to
    the callback and then throws the error of [fs.readdirSync] on the
    missing directory, however deep the call stack may grow; [generate]
    does not catch it and writes no [index.json]. *)
Theorem walkRoot_missing_src_dir_throws :
  (forall fuel : nat,
      @_walkRoot missingSrcWorld (S (S fuel)) ThisESDoc "/proj" missingSrcCallback
                 initialState
      = (Throw (FsError "scandir" "/proj/src"),
         mkState [@_generateForPackageJSON missingSrcWorld "/proj/package.json"
                    (Some (PkgObj None "{}"))]
                 [] 0
                 (@missingSrcEvents missingSrcWorld "/proj" "/proj/src"
                  ++ [EvReaddirSync "/proj/src"])))
  /\
  (forall fuel : nat,
      fst (@generate missingSrcWorld (S (S fuel)) missingSrcConfig initialState)
      = Throw (FsError "scandir" "/proj/src")
      /\ forall p docs,
           ~ In (EvOutputFileSync p docs)
                (trace (snd (@generate missingSrcWorld (S (S fuel)) missingSrcConfig
                               initialState)))).
Proof.
  split.
  - intro fuel. reflexivity.
  - intro fuel.
    assert (Hrun : @generate missingSrcWorld (S (S fuel)) missingSrcConfig initialState
                   = (Throw (FsError "scandir" "/proj/src"),
                      mkState [@_generateForPackageJSON missingSrcWorld "/proj/package.json"
                                 (Some (PkgObj None "{}"))]
                              [] 0
                              ([EvPluginInit []; EvPluginOnStart;
                                EvPluginOnHandleConfig missingSrcConfig]
                               ++ @missingSrcEvents missingSrcWorld "/proj" "/proj/src"
                               ++ [EvReaddirSync "/proj/src"])))
      by reflexivity.
    rewrite Hrun. split; [reflexivity|].
    intros p docs H. cbn in H.
    repeat (destruct H as [H|H]; [discriminate H|]). exact H.
Qed.

(** C6. What the code does around a package whose descriptor does not
    parse.  The package itself is handled as the claim says: the two
    errors are logged, the callback is not called and nothing below the
    directory is read.  The sibling directory that follows it is not
    walked: [_walk] calls [recurse] as a plain function, so [_walkRoot]
    runs on the sibling with [this] undefined and throws at
    [this._walk] once it has listed the directory.  The file of the
    sibling never reaches the callback, and [generate] writes no
    [index.json].  Called with [this] bound, [_walkRoot] walks the same
    directory and collects its record. *)
Theorem walkRoot_sibling_directory_throws :
  (forall (fuel : nat) (this : ThisValue)
          (callback : string -> option PackageValue -> M unit) (st : RunState),
      @_walkRoot siblingsWorld (S fuel) this "/root/broken" callback st
      = (Ok tt, add_trace st (@unparseableEvents siblingsWorld "/root/broken")))
  /\
  (forall fuel : nat,
      @_walkRoot siblingsWorld (S (S (S fuel))) ThisESDoc "/root" siblingsCallback
                 initialState
      = (Throw (TypeError "Cannot read property '_walk' of undefined"),
         mkState [] [] 0
                 ([EvReaddirSync "/root"; EvReaddirSync "/root";
                   EvStatSync "/root/broken"]
                  ++ @unparseableEvents siblingsWorld "/root/broken"
                  ++ [EvStatSync "/root/docs"; EvReaddirSync "/root/docs"])))
  /\
  (forall fuel : nat,
      @_walkRoot siblingsWorld (S (S fuel)) ThisESDoc "/root/docs" siblingsCallback
                 initialState
      = (Ok tt,
         mkState [doc "function" "a" 1] [("source/root/docs/a.js", "astA")] 1
                 ([EvReaddirSync "/root/docs"; EvReaddirSync "/root/docs";
                   EvStatSync "/root/docs/a.js"]
                  ++ submitEvents "/root/docs/a.js"
                  ++ [EvStreamWrite "source/root/docs/a.js" "astA"])))
  /\
  (forall fuel : nat,
      let run := @generate siblingsWorld (S (S (S fuel))) siblingsConfig initialState in
      fst run = Throw (TypeError "Cannot read property '_walk' of undefined")
      /\ results (snd run) = []
      /\ ~ In (EvParserParse "/root/docs/a.js") (trace (snd run))
      /\ forall p docs, ~ In (EvOutputFileSync p docs) (trace (snd run))).
Proof.
  split; [|split; [|split]].
  - intros fuel this callback st.
    apply (@walkRoot_unparseable siblingsWorld fuel this "/root/broken" callback
             ["package.json"; "src"] st); [reflexivity | simpl; tauto | reflexivity].
  - intro fuel. reflexivity.
  - intro fuel. reflexivity.
  - intros fuel run.
    assert (Hrun : run
                   = (Throw (TypeError "Cannot read property '_walk' of undefined"),
                      mkState [] [] 0
                              ([EvPluginInit []; EvPluginOnStart;
                                EvPluginOnHandleConfig siblingsConfig;
                                EvReaddirSync "/root"; EvReaddirSync "/root";
                                EvStatSync "/root/broken"]
                               ++ @unparseableEvents siblingsWorld "/root/broken"
                               ++ [EvStatSync "/root/docs"; EvReaddirSync "/root/docs"])))
      by reflexivity.
    rewrite Hrun. split; [reflexivity|]. split; [reflexivity|]. split.
    + intro H. cbn in H. repeat (destruct H as [H|H]; [discriminate H|]). exact H.
    + intros p docs H. cbn in H.
      repeat (destruct H as [H|H]; [discriminate H|]). exact H.
Qed.

(** * Further properties *)

(** ** The duplicate resolver on arbitrary collections *)

Section ResolverMore.

Lemma id_eq_dec (a b : option Z) : {a = b} + {a <> b}.
Proof. decide equality. apply Z.eq_dec. Qed.

Lemma Subseq_length {A} (l1 l2 : list A) :
  Subseq l1 l2 -> (List.length l1 <= List.length l2)%nat.
Proof. induction 1; simpl; lia. Qed.

Lemma Subseq_count_occ (l1 l2 : list (option Z)) (x : option Z) :
  Subseq l1 l2 -> (count_occ id_eq_dec l1 x <= count_occ id_eq_dec l2 x)%nat.
Proof.
  induction 1 as [|y l1 l2 _ IH|y l1 l2 _ IH]; simpl; try lia;
    destruct (id_eq_dec y x); lia.
Qed.

Lemma count_occ_all (l : list (option Z)) (x : option Z) :
  (forall y, In y l -> y = x) -> count_occ id_eq_dec l x = List.length l.
Proof.
  induction l as [|y l IH]; simpl; intro H; [reflexivity|].
  destruct (id_eq_dec y x) as [_|Hne].
  - f_equal. apply IH. auto.
  - exfalso. apply Hne. apply H. now left.
Qed.

Lemma filter_filter_and {A} (p q : A -> bool) (l : list A) :
  filter p (filter q l) = filter (fun x => p x && q x) l.
Proof.
  induction l as [|x l IH]; simpl; [reflexivity|].
  destruct (q x); simpl.
  - rewrite andb_true_r. destruct (p x); now rewrite IH.
  - now rewrite andb_false_r.
Qed.

(** A surviving member record whose group has several records has the
    least id of the group, and no other record of the group has it. *)
Lemma kept_member_alone (docs : list Tag) (m : Tag) :
  In m docs -> is_member m = true -> ~ removed docs m ->
  (1 <? List.length (filter (sameLongnameMember m) docs))%nat = true ->
  count_occ id_eq_dec (map __docId__ (filter (sameLongnameMember m) docs)) (__docId__ m)
  = 1%nat.
Proof.
  intros Hm Hmem Hkept Hlen.
  destruct (kept_member_first _ _ Hm Hmem Hkept) as [Hnone Hfirst].
  destruct (Hfirst Hlen) as [t Ht].
  assert (Hnot : ~ In (__docId__ m) t).
  { intro Hin. apply Hkept. exists m. split; [assumption|]. split; [assumption|].
    unfold pushedIds. rewrite Hnone, Hlen, Ht. exact Hin. }
  rewrite (proj1 (Permutation_count_occ id_eq_dec _ _) (sort_perm _)), Ht.
  simpl. destruct (id_eq_dec (__docId__ m) (__docId__ m)) as [_|Hne]; [|congruence].
  f_equal. now apply count_occ_not_In.
Qed.

(** Among the survivors, a member record is the only member record of
    its longname: whatever the ids are. *)
Lemma survivors_group_short (docs : list Tag) (m : Tag) :
  In m (_resolveDuplication docs) -> is_member m = true ->
  (List.length (filter (sameLongnameMember m) (_resolveDuplication docs)) <= 1)%nat.
Proof.
  intros Hm Hmem.
  assert (Hmd : In m docs /\ ~ removed docs m) by (now apply resolve_In).
  destruct Hmd as [Hmd Hkept].
  set (G := filter (sameLongnameMember m) docs).
  assert (Hsub : Subseq (filter (sameLongnameMember m) (_resolveDuplication docs)) G).
  { unfold _resolveDuplication. rewrite filter_swap. apply filter_Subseq. }
  destruct (1 <? List.length G)%nat eqn:Hlen.
  - assert (Hone := kept_member_alone docs m Hmd Hmem Hkept Hlen). fold G in Hone.
    assert (Hall : forall y,
               In y (map __docId__ (filter (sameLongnameMember m) (_resolveDuplication docs)))
               -> y = __docId__ m).
    { intros y Hy. apply in_map_iff in Hy. destruct Hy as [x [<- Hx]].
      apply group_In in Hx. destruct Hx as [Hx [Hl Hk]].
      assert (Hxd : In x docs /\ ~ removed docs x) by (now apply resolve_In).
      destruct Hxd as [Hxd Hxkept].
      destruct (kept_member_first _ _ Hxd Hk Hxkept) as [_ Hfx].
      destruct (kept_member_first _ _ Hmd Hmem Hkept) as [_ Hfm].
      rewrite (group_eq docs x m Hl) in Hfx. fold G in Hfx, Hfm.
      destruct (Hfx Hlen) as [t Ht]. destruct (Hfm Hlen) as [t' Ht'].
      rewrite Ht in Ht'. now injection Ht'. }
    rewrite <- (length_map __docId__), <- (count_occ_all _ _ Hall), <- Hone.
    apply Subseq_count_occ, Subseq_map, Hsub.
  - apply Nat.ltb_ge in Hlen. apply Subseq_length in Hsub. lia.
Qed.

Lemma survivors_no_rival (docs : list Tag) (m : Tag) :
  In m (_resolveDuplication docs) -> is_member m = true ->
  find (sameLongnameOtherKind m) (_resolveDuplication docs) = None.
Proof.
  intros Hm Hmem.
  assert (Hmd : In m docs /\ ~ removed docs m) by (now apply resolve_In).
  destruct Hmd as [Hmd Hkept].
  apply find_other_kind_None. intros d Hd Hl.
  destruct (is_member d) eqn:Hk; [reflexivity|].
  exfalso. apply Hkept.
  apply (member_with_rival_removed docs m d); auto.
  apply resolve_In in Hd. tauto.
Qed.

Lemma filter_all_true {A} (p : A -> bool) (l : list A) :
  (forall x, In x l -> p x = true) -> filter p l = l.
Proof.
  induction l as [|x l IH]; simpl; intro H; [reflexivity|].
  rewrite (H x) by (now left). f_equal. apply IH. auto.
Qed.

Lemma resolve_nothing_pushed (docs : list Tag) :
  (forall m, In m docs -> is_member m = true -> pushedIds docs m = []) ->
  _resolveDuplication docs = docs.
Proof.
  intro H. unfold _resolveDuplication.
  rewrite (removeIds_loop_nothing docs _ []).
  - now apply filter_all_true.
  - intros m Hm. apply filter_In in Hm. now apply H.
Qed.

(** X1. The duplicate resolver is idempotent on every collection, also
    when ids are shared or missing. *)
Theorem resolve_idempotent_everywhere (docs : list Tag) :
  _resolveDuplication (_resolveDuplication docs) = _resolveDuplication docs.
Proof.
  apply resolve_nothing_pushed. intros m Hm Hmem.
  unfold pushedIds. rewrite (survivors_no_rival docs m Hm Hmem).
  assert (Hlen := survivors_group_short docs m Hm Hmem).
  apply Nat.ltb_ge in Hlen. now rewrite Hlen.
Qed.

(** X2. A record is dropped only when some member record of the
    collection has its id: a record whose id no member record shares
    survives, whatever else the collection holds. *)
Theorem resolve_drops_only_member_ids (docs : list Tag) (d : Tag) :
  In d docs ->
  (forall m, In m docs -> kind m = "member" -> __docId__ m <> __docId__ d) ->
  In d (_resolveDuplication docs).
Proof.
  intros Hd Hids. apply resolve_In. split; [assumption|].
  intros [m [Hm [Hmem Hi]]].
  destruct (pushedIds_member _ _ _ Hm Hmem Hi) as [m' [Hm' [Hk' [_ Hid]]]].
  apply (Hids m' Hm'); [now apply is_member_true | assumption].
Qed.

(** X3. Without duplication the resolver changes nothing: when every
    member record is the only record of its longname, the output is the
    input. *)
Theorem resolve_without_duplication (docs : list Tag) :
  (forall m, In m docs -> kind m = "member" ->
             filter (fun d => (longname d =? longname m)%string) docs = [m]) ->
  _resolveDuplication docs = docs.
Proof.
  intro Hsingle. apply resolve_nothing_pushed. intros m Hm Hmem.
  assert (Hone := Hsingle m Hm (proj1 (is_member_true m) Hmem)).
  unfold pushedIds.
  assert (Hnone : find (sameLongnameOtherKind m) docs = None).
  { apply find_other_kind_None. intros d Hd Hl.
    assert (Hin : In d (filter (fun d => (longname d =? longname m)%string) docs)).
    { apply filter_In. split; [assumption | now apply String.eqb_eq]. }
    rewrite Hone in Hin. destruct Hin as [<-|[]]. assumption. }
  rewrite Hnone.
  assert (Hsub : Subseq (filter (sameLongnameMember m) docs)
                        (filter (fun d => (longname d =? longname m)%string) docs)).
  { unfold sameLongnameMember.
    rewrite <- (filter_filter_and (fun d => (longname d =? longname m)%string) is_member).
    rewrite filter_swap. apply filter_Subseq. }
  apply Subseq_length in Hsub. rewrite Hone in Hsub. simpl in Hsub.
  apply Nat.ltb_ge in Hsub. now rewrite Hsub.
Qed.

(** X4. When no two member records share an id, a member record that
    survives is the only surviving record of its longname. *)
Theorem resolve_survivor_alone (docs : list Tag) (m : Tag) :
  distinct_member_ids docs ->
  In m (_resolveDuplication docs) -> kind m = "member" ->
  filter (fun d => (longname d =? longname m)%string) (_resolveDuplication docs) = [m].
Proof.
  intros Hnd Hm Hk. apply is_member_true in Hk.
  assert (Hnone := survivors_no_rival docs m Hm Hk).
  rewrite find_other_kind_None in Hnone.
  assert (Hsame : filter (fun d => (longname d =? longname m)%string)
                         (_resolveDuplication docs)
                  = filter (sameLongnameMember m) (_resolveDuplication docs)).
  { apply filter_ext_in. intros d Hd. unfold sameLongnameMember.
    destruct (longname d =? longname m)%string eqn:Hl; [|reflexivity].
    apply String.eqb_eq in Hl. simpl. symmetry. now apply Hnone. }
  rewrite Hsame. apply NoDup_singleton.
  - apply (NoDup_map_inv __docId__).
    eapply Subseq_NoDup; [|exact (group_ids_NoDup docs
                                   (fun d => (longname d =? longname m)%string) Hnd)].
    apply Subseq_map. unfold _resolveDuplication. rewrite filter_swap.
    apply filter_Subseq.
  - intros x Hx. apply group_In in Hx. destruct Hx as [Hx [Hl Hkx]].
    now apply (kept_member_unique docs).
  - apply group_In. auto.
Qed.

(** X5. With pairwise-distinct ids, of the records of a longname that
    some record of another kind has, exactly the records of other kinds
    survive, in their order: accessors and methods replace every member
    record of their symbol and none of them is lost. *)
Theorem resolve_rivals_survive (docs : list Tag) (L : string) :
  distinct_ids docs ->
  (exists D, In D docs /\ longname D = L /\ kind D <> "member") ->
  filter (fun d => (longname d =? L)%string) (_resolveDuplication docs)
  = filter (fun d => (longname d =? L)%string && negb (is_member d)) docs.
Proof.
  intros Hnd [D [HD [HDl HDk]]]. apply is_member_false in HDk.
  unfold _resolveDuplication. rewrite filter_filter_and.
  apply filter_ext_in. intros d Hd.
  destruct (longname d =? L)%string eqn:Hl; [|reflexivity].
  apply String.eqb_eq in Hl. simpl.
  destruct (is_member d) eqn:Hk; simpl.
  - apply negb_false_iff, Array_includes_In, removeIds_loop_In. right.
    exists d. split; [apply filter_In; auto|].
    destruct (find_other_kind_Some docs d) as [r Hr].
    { exists D. split; [assumption|]. split; [congruence | assumption]. }
    unfold pushedIds. rewrite Hr. now left.
  - apply kept_true; [assumption|]. now apply other_kind_not_removed.
Qed.

End ResolverMore.

Lemma resolve_drops_only_member_ids_witness :
  In (mkTag "index" "./README.md" "./README.md" true "public" None (Some "# readme") None)
     (_resolveDuplication accessor_docs).
Proof.
  apply (resolve_drops_only_member_ids accessor_docs).
  - simpl. tauto.
  - simpl. intros m [<-|[<-|[<-|[<-|[<-|[<-|[]]]]]]] Hk; simpl; discriminate.
Defined.

Lemma resolve_without_duplication_witness :
  _resolveDuplication plain_docs = plain_docs.
Proof.
  apply (resolve_without_duplication plain_docs).
  simpl. intros m [<-|[<-|[<-|[<-|[]]]]] Hk; try discriminate Hk; reflexivity.
Defined.

Lemma resolve_survivor_alone_witness :
  filter (fun d => (longname d =? "Foo#y")%string) (_resolveDuplication fooY_run_docs)
  = [doc "member" "Foo#y" 1].
Proof.
  apply (resolve_survivor_alone fooY_run_docs (doc "member" "Foo#y" 1)).
  - unfold distinct_member_ids. simpl. repeat constructor; simpl; intuition discriminate.
  - simpl. now left.
  - reflexivity.
Defined.

Lemma resolve_rivals_survive_witness :
  filter (fun d => (longname d =? "Foo#x")%string) (_resolveDuplication mixed_docs)
  = [doc "method" "Foo#x" 3].
Proof.
  apply (resolve_rivals_survive mixed_docs "Foo#x").
  - unfold distinct_ids. simpl. repeat constructor; simpl; intuition discriminate.
  - exists (doc "method" "Foo#x" 3). simpl. repeat split; try discriminate. tauto.
Defined.

(** ** The configuration *)

Section ConfigMore.

Context {W : World}.

Lemma truthy_default (config : ESDocConfig) :
  truthy (index (_setDefaultConfig config)) = true.
Proof.
  unfold _setDefaultConfig. simpl.
  destruct (truthy (index config)) eqn:Hi; [assumption | reflexivity].
Qed.

(** X6. [_setDefaultConfig] is idempotent and never overwrites what the
    configuration sets: [root], [source], [destination] and [plugins]
    are untouched, [includes] and [excludes] are kept when present, a
    truthy [index] or [package] is kept, and without [source] no
    [package] is invented. *)
Theorem setDefaultConfig_idempotent (config : ESDocConfig) :
  _setDefaultConfig (_setDefaultConfig config) = _setDefaultConfig config /\
  root (_setDefaultConfig config) = root config /\
  source (_setDefaultConfig config) = source config /\
  destination (_setDefaultConfig config) = destination config /\
  plugins (_setDefaultConfig config) = plugins config /\
  (includes config <> None -> includes (_setDefaultConfig config) = includes config) /\
  (excludes config <> None -> excludes (_setDefaultConfig config) = excludes config) /\
  (truthy (index config) = true -> index (_setDefaultConfig config) = index config) /\
  (truthy (package config) = true -> package (_setDefaultConfig config) = package config) /\
  (truthy (source config) = false -> package (_setDefaultConfig config) = package config).
Proof.
  destruct config as [r s p d i e x pl o].
  unfold _setDefaultConfig. simpl.
  repeat split.
  - destruct i, e, (truthy x) eqn:Hx, (truthy s) eqn:Hs, (truthy p) eqn:Hp;
      simpl; rewrite ?Hx, ?Hs, ?Hp; simpl; reflexivity.
  - destruct i; [reflexivity | congruence].
  - destruct e; [reflexivity | congruence].
  - intros ->. reflexivity.
  - intros ->. now rewrite andb_false_r.
  - intros ->. reflexivity.
Qed.

Lemma checkOldKeys_run (keys : list (string * string)) (config : ESDocConfig)
    (exit : bool) (st : RunState) :
  checkOldKeys keys config exit st
  = (Ok (exit || existsb (fun kp => key_in (fst kp) config) keys),
     add_trace st (map (fun kp => EvConsoleError (oldKeyError kp))
                       (filter (fun kp => key_in (fst kp) config) keys))).
Proof.
  revert exit st. induction keys as [|[key plugin] keys IH]; intros exit st; simpl.
  - now rewrite orb_false_r, add_trace_nil.
  - destruct (key_in key config) eqn:Hk; simpl.
    + run_m. rewrite IH, add_trace_app. simpl. now rewrite orb_true_r.
    + apply IH.
Qed.

Lemma no_old_keys_existsb (config : ESDocConfig) :
  existsb (fun kp => key_in (fst kp) config) oldKeys = negb (no_old_keys config).
Proof.
  unfold no_old_keys. generalize oldKeys.
  induction l as [|kp l IH]; simpl; [reflexivity|].
  rewrite IH. now destruct (key_in (fst kp) config).
Qed.

Lemma generate_old_config_run (fuel : nat) (config : ESDocConfig) (st : RunState) :
  valid_config config = true -> no_old_keys config = false ->
  generate fuel config st
  = (Exit 1, add_trace st (map (fun kp => EvConsoleError (oldKeyError kp))
                               (presentOldKeys config))).
Proof.
  intros Hv Hk.
  unfold generate. rewrite (bind_Ok _ _ _ _ _ (validate_ok config st Hv)).
  unfold bind at 1. unfold _checkOldConfig. unfold bind at 1.
  rewrite checkOldKeys_run, no_old_keys_existsb, Hk. reflexivity.
Qed.

(** X7. A configuration that passes the assertions and holds a
    deprecated key makes [generate] print one error per deprecated key
    it holds, in the order of the table, and exit with status 1: no
    plugin is initialised and nothing is read. *)
Theorem generate_rejects_old_config (fuel : nat) (config : ESDocConfig) (st : RunState) :
  valid_config config = true -> no_old_keys config = false ->
  generate fuel config st
  = (Exit 1, add_trace st (map (fun kp => EvConsoleError (oldKeyError kp))
                               (presentOldKeys config)))
  /\ presentOldKeys config <> [].
Proof.
  intros Hv Hk. split.
  - now apply generate_old_config_run.
  - unfold presentOldKeys. intro Hnil.
    assert (H := no_old_keys_existsb config). rewrite Hk in H. cbn [negb] in H.
    apply existsb_exists in H. destruct H as [kp [Hin Hkey]].
    assert (Hf : In kp (filter (fun kp => key_in (fst kp) config) oldKeys))
      by (apply filter_In; auto).
    rewrite Hnil in Hf. contradiction.
Qed.

Lemma compileAll_run (patterns : list string) (st : RunState) :
  compileAll patterns st
  = (match firstInvalidPattern patterns with
     | Some v => Throw (SyntaxError v)
     | None => Ok patterns
     end, st).
Proof.
  unfold firstInvalidPattern.
  induction patterns as [|v rest IH]; simpl; [reflexivity|].
  destruct (RegExp_valid v); simpl; run_m; [|reflexivity].
  rewrite IH. destruct (find _ rest); reflexivity.
Qed.

Lemma firstInvalidPattern_app (l1 l2 : list string) :
  firstInvalidPattern (l1 ++ l2)
  = match firstInvalidPattern l1 with
    | Some v => Some v
    | None => firstInvalidPattern l2
    end.
Proof.
  unfold firstInvalidPattern. induction l1 as [|v l1 IH]; simpl; [reflexivity|].
  destruct (negb (RegExp_valid v)); [reflexivity | assumption].
Qed.

(** X8. When a pattern of [includes] or [excludes] is not a regular
    expression, [generate] throws the error of [new RegExp] for the
    first such pattern (includes first) right after the configuration
    hook: nothing is read and no file is parsed. *)
Theorem generate_rejects_invalid_pattern (fuel : nat) (config : ESDocConfig)
    (st : RunState) (incs excs : list string) (v : string) :
  valid_config config = true -> no_old_keys config = true ->
  let config' := _setDefaultConfig (Plugin_onHandleConfig config) in
  includes config' = Some incs -> excludes config' = Some excs ->
  firstInvalidPattern (incs ++ excs) = Some v ->
  generate fuel config st
  = (Throw (SyntaxError v),
     add_trace st [EvPluginInit (plugins config); EvPluginOnStart;
                   EvPluginOnHandleConfig config]).
Proof.
  intros Hv Hk config' Hinc Hexc Hbad.
  rewrite (generate_valid fuel config st Hv Hk). fold config'.
  unfold generate_run. rewrite Hinc, Hexc.
  rewrite firstInvalidPattern_app in Hbad.
  unfold bind at 1. rewrite compileAll_run.
  destruct (firstInvalidPattern incs) as [v'|].
  - now injection Hbad as ->.
  - unfold bind at 1. rewrite compileAll_run, Hbad. reflexivity.
Qed.

(** X9. When the configuration that comes out of the configuration hook
    has no [source] (as the assertions demand next to [root]) and no
    [package], [generate] throws the [TypeError] of
    [path.resolve(config.source)] before it walks: no directory is read
    and [results] is empty. *)
Theorem generate_needs_source (fuel : nat) (config : ESDocConfig) (st : RunState)
    (incs excs : list string) :
  valid_config config = true -> no_old_keys config = true ->
  let config' := _setDefaultConfig (Plugin_onHandleConfig config) in
  includes config' = Some incs -> excludes config' = Some excs ->
  firstInvalidPattern (incs ++ excs) = None ->
  source config' = None -> as_truthy (package config') = None ->
  generate fuel config st
  = (Throw (TypeError "The path argument must be of type string"),
     mkState [] (astJobs st) (docSeq st)
             (trace st ++ [EvPluginInit (plugins config); EvPluginOnStart;
                           EvPluginOnHandleConfig config])).
Proof.
  intros Hv Hk config' Hinc Hexc Hok Hsrc Hpkg.
  rewrite (generate_valid fuel config st Hv Hk). fold config'.
  unfold generate_run. rewrite Hinc, Hexc, Hsrc.
  rewrite firstInvalidPattern_app in Hok.
  destruct (firstInvalidPattern incs) as [v'|] eqn:Hi; [discriminate|].
  unfold bind at 1. rewrite compileAll_run, Hi.
  unfold bind at 1. rewrite compileAll_run, Hok.
  unfold readPackageNameMain. rewrite Hpkg. reflexivity.
Qed.

End ConfigMore.

Lemma generate_rejects_old_config_witness :
  @generate srcWorld 3 oldConfig initialState
  = (Exit 1,
     add_trace initialState
       [EvConsoleError (oldKeyError ("access", "esdoc2-standard-plugin"));
        EvConsoleError (oldKeyError ("title", "esdoc2-standard-plugin"))]).
Proof.
  apply (proj1 (@generate_rejects_old_config srcWorld 3 oldConfig initialState
                  eq_refl eq_refl)).
Defined.

Lemma generate_rejects_invalid_pattern_witness :
  @generate srcWorld 3 badPatternConfig initialState
  = (Throw (SyntaxError "(unclosed"),
     add_trace initialState [EvPluginInit []; EvPluginOnStart;
                             EvPluginOnHandleConfig badPatternConfig]).
Proof.
  apply (@generate_rejects_invalid_pattern srcWorld 3 badPatternConfig initialState
           ["\.js$"; "(unclosed"] ["\.config\.js$"; "\.test\.js$"] "(unclosed"
           eq_refl eq_refl eq_refl eq_refl eq_refl).
Defined.

Lemma generate_needs_source_witness :
  @generate missingSrcWorld 3 rootConfig initialState
  = (Throw (TypeError "The path argument must be of type string"),
     mkState [] [] 0 [EvPluginInit []; EvPluginOnStart; EvPluginOnHandleConfig rootConfig]).
Proof.
  apply (@generate_needs_source missingSrcWorld 3 rootConfig initialState
           ["\.js$"] ["\.config\.js$"; "\.test\.js$"]
           eq_refl eq_refl eq_refl eq_refl eq_refl eq_refl eq_refl).
Defined.

(** ** What a computation adds to the trace and to the results *)

Section Frames.

Context {W : World}.

Variable P : Event -> bool.

Lemma emits_ret {A} (a : A) : emits P (ret a).
Proof. intro st. exists []. simpl. now rewrite app_nil_r. Qed.

Lemma emits_throw {A} (e : Exn) : emits P (@throw A e).
Proof. intro st. exists []. simpl. now rewrite app_nil_r. Qed.

Lemma emits_exit {A} (c : Z) : emits P (@process_exit A c).
Proof. intro st. exists []. simpl. now rewrite app_nil_r. Qed.

Lemma emits_outOfFuel {A} : emits P (@outOfFuel A).
Proof. intro st. exists []. simpl. now rewrite app_nil_r. Qed.

Lemma emits_emit (ev : Event) : P ev = true -> emits P (emit ev).
Proof. intros H st. exists [ev]. simpl. now rewrite H. Qed.

Lemma emits_bind {A B} (m : M A) (k : A -> M B) :
  emits P m -> (forall a, emits P (k a)) -> emits P (bind m k).
Proof.
  intros Hm Hk st. unfold bind. destruct (Hm st) as [e1 [Ht1 Hp1]].
  destruct (m st) as [[a|e|c|] st1]; simpl in *;
    [| now exists e1 | now exists e1 | now exists e1].
  destruct (Hk a st1) as [e2 [Ht2 Hp2]].
  exists (e1 ++ e2). rewrite Ht2, Ht1, app_assoc, forallb_app, Hp1, Hp2. auto.
Qed.

Lemma emits_try_catch {A} (m : M A) (h : Exn -> M A) :
  emits P m -> (forall e, emits P (h e)) -> emits P (try_catch m h).
Proof.
  intros Hm Hh st. unfold try_catch. destruct (Hm st) as [e1 [Ht1 Hp1]].
  destruct (m st) as [[a|e|c|] st1]; simpl in *;
    [now exists e1 | | now exists e1 | now exists e1].
  destruct (Hh e st1) as [e2 [Ht2 Hp2]].
  exists (e1 ++ e2). rewrite Ht2, Ht1, app_assoc, forallb_app, Hp1, Hp2. auto.
Qed.

Lemma emits_results_push (docs : list Tag) : emits P (results_push docs).
Proof. intro st. exists []. simpl. now rewrite app_nil_r. Qed.

Lemma emits_set_results (docs : list Tag) : emits P (set_results docs).
Proof. intro st. exists []. simpl. now rewrite app_nil_r. Qed.

Lemma emits_get_results : emits P get_results.
Proof. intro st. exists []. simpl. now rewrite app_nil_r. Qed.

Lemma emits_get_docSeq : emits P get_docSeq.
Proof. intro st. exists []. simpl. now rewrite app_nil_r. Qed.

Lemma emits_set_docSeq (n : Z) : emits P (set_docSeq n).
Proof. intro st. exists []. simpl. now rewrite app_nil_r. Qed.

Lemma emits_stream_write (filePath : string) (ast : AST) :
  P (EvStreamWrite filePath ast) = true -> emits P (stream_write filePath ast).
Proof. intros H st. exists [EvStreamWrite filePath ast]. simpl. now rewrite H. Qed.

Lemma emits_assert (b : bool) : emits P (assert b).
Proof. destruct b; [apply emits_ret | apply emits_throw]. Qed.

End Frames.

Section Appends.

Context {W : World}.

Lemma appends_same {A} (m : M A) :
  (forall st, results (snd (m st)) = results st /\ astJobs (snd (m st)) = astJobs st) ->
  appends m.
Proof.
  intros H st. destruct (H st) as [Hr Hj]. exists [], [].
  now rewrite Hr, Hj, !app_nil_r.
Qed.

Lemma appends_ret {A} (a : A) : appends (ret a).
Proof. apply appends_same. auto. Qed.

Lemma appends_throw {A} (e : Exn) : appends (@throw A e).
Proof. apply appends_same. auto. Qed.

Lemma appends_outOfFuel {A} : appends (@outOfFuel A).
Proof. apply appends_same. auto. Qed.

Lemma appends_emit (ev : Event) : appends (emit ev).
Proof. apply appends_same. auto. Qed.

Lemma appends_get_docSeq : appends get_docSeq.
Proof. apply appends_same. auto. Qed.

Lemma appends_set_docSeq (n : Z) : appends (set_docSeq n).
Proof. apply appends_same. auto. Qed.

Lemma appends_results_push (docs : list Tag) : appends (results_push docs).
Proof. intro st. exists docs, []. simpl. now rewrite app_nil_r. Qed.

Lemma appends_stream_write (filePath : string) (ast : AST) :
  appends (stream_write filePath ast).
Proof. intro st. exists [], [(filePath, ast)]. simpl. now rewrite app_nil_r. Qed.

Lemma appends_bind {A B} (m : M A) (k : A -> M B) :
  appends m -> (forall a, appends (k a)) -> appends (bind m k).
Proof.
  intros Hm Hk st. unfold bind. destruct (Hm st) as [d1 [j1 [Hr1 Hj1]]].
  destruct (m st) as [[a|e|c|] st1]; simpl in *;
    [| now exists d1, j1 | now exists d1, j1 | now exists d1, j1].
  destruct (Hk a st1) as [d2 [j2 [Hr2 Hj2]]].
  exists (d1 ++ d2), (j1 ++ j2). now rewrite Hr2, Hj2, Hr1, Hj1, !app_assoc.
Qed.

Lemma appends_try_catch {A} (m : M A) (h : Exn -> M A) :
  appends m -> (forall e, appends (h e)) -> appends (try_catch m h).
Proof.
  intros Hm Hh st. unfold try_catch. destruct (Hm st) as [d1 [j1 [Hr1 Hj1]]].
  destruct (m st) as [[a|e|c|] st1]; simpl in *;
    [now exists d1, j1 | | now exists d1, j1 | now exists d1, j1].
  destruct (Hh e st1) as [d2 [j2 [Hr2 Hj2]]].
  exists (d1 ++ d2), (j1 ++ j2). now rewrite Hr2, Hj2, Hr1, Hj1, !app_assoc.
Qed.

End Appends.

Section WalkFrames.

Context {W : World}.

Lemma walks_bind {A B} (m : M A) (k : A -> M B) :
  walks m -> (forall a, walks (k a)) -> walks (bind m k).
Proof.
  intros [He Ha] Hk. split.
  - apply emits_bind; [assumption | intro a; apply Hk].
  - apply appends_bind; [assumption | intro a; apply Hk].
Qed.

Lemma walks_try_catch {A} (m : M A) (h : Exn -> M A) :
  walks m -> (forall e, walks (h e)) -> walks (try_catch m h).
Proof.
  intros [He Ha] Hh. split.
  - apply emits_try_catch; [assumption | intro e; apply Hh].
  - apply appends_try_catch; [assumption | intro e; apply Hh].
Qed.

Lemma walks_ret {A} (a : A) : walks (ret a).
Proof. split; [apply emits_ret | apply appends_ret]. Qed.

Lemma walks_throw {A} (e : Exn) : walks (@throw A e).
Proof. split; [apply emits_throw | apply appends_throw]. Qed.

Lemma walks_outOfFuel {A} : walks (@outOfFuel A).
Proof. split; [apply emits_outOfFuel | apply appends_outOfFuel]. Qed.

Lemma walks_emit (ev : Event) : is_walk_event ev = true -> walks (emit ev).
Proof. intro H. split; [now apply emits_emit | apply appends_emit]. Qed.

Lemma walks_fs_readdirSync (p : string) : walks (fs_readdirSync p).
Proof.
  unfold fs_readdirSync. apply walks_bind; [now apply walks_emit|]. intros _.
  destruct (readdirSync p); [apply walks_ret | apply walks_throw].
Qed.

Lemma walks_fs_statSync (p : string) : walks (fs_statSync p).
Proof.
  unfold fs_statSync. apply walks_bind; [now apply walks_emit|]. intros _.
  destruct (statSync p); [apply walks_ret | apply walks_throw].
Qed.

Lemma walks_require_module (p : string) : walks (require_module p).
Proof.
  unfold require_module. apply walks_bind; [now apply walks_emit|]. intros _.
  destruct (require p); [apply walks_ret | apply walks_throw].
Qed.

Lemma walks_traverse (inDirPath filePath : string) (packageName mainFilePath : option string) :
  walks (_traverse inDirPath filePath packageName mainFilePath).
Proof.
  unfold _traverse, log_verbose.
  apply walks_bind; [now apply walks_emit|]. intros _.
  apply walks_bind; [now apply walks_emit|]. intros _.
  destruct (ESParser_parse filePath) as [ast|e].
  - apply walks_bind; [split; [apply emits_get_docSeq | apply appends_get_docSeq]|].
    intro seq. destruct (extract _ _ _ _ _ _) as [[docs|node] seq'].
    + apply walks_bind; [split; [apply emits_set_docSeq | apply appends_set_docSeq]|].
      intros _. apply walks_ret.
    + apply walks_bind; [split; [apply emits_set_docSeq | apply appends_set_docSeq]|].
      intros _. apply walks_bind; [now apply walks_emit|]. intros _. apply walks_throw.
  - apply walks_bind; [now apply walks_emit|]. intros _. apply walks_ret.
Qed.

Lemma walks_walkCallback (cl : Closure) (filePath : string) :
  walks (walkCallback cl filePath).
Proof.
  unfold walkCallback.
  destruct (negb _); [apply walks_ret|].
  destruct (someMatch (cl_excludes cl) _); [apply walks_ret|].
  apply walks_bind; [now apply walks_emit|]. intros _.
  apply walks_bind; [apply walks_traverse|]. intros [[docs ast]|]; [|apply walks_ret].
  apply walks_bind.
  - split; [apply emits_results_push | apply appends_results_push].
  - intros _. split; [now apply emits_stream_write | apply appends_stream_write].
Qed.

Lemma walks_walkRootCallback (cl : Closure) (filePath : string)
    (fileContents : option PackageValue) :
  walks (walkRootCallback cl filePath fileContents).
Proof.
  unfold walkRootCallback. destruct (_ =? _)%string.
  - split; [apply emits_results_push | apply appends_results_push].
  - apply walks_walkCallback.
Qed.

Lemma walks_checkSrcDir (srcDir : string) : walks (checkSrcDir srcDir).
Proof.
  unfold checkSrcDir, console_error.
  apply walks_bind.
  - apply walks_try_catch.
    + apply walks_bind; [apply walks_fs_statSync | intro; apply walks_ret].
    + intro. apply walks_ret.
  - intros [[| |]|].
    + apply walks_bind; [|intros [|]; [|apply walks_ret]].
      * apply walks_bind; [now apply walks_emit | intro; apply walks_ret].
      * apply walks_bind; [now apply walks_emit | intro; now apply walks_emit].
    + apply walks_bind; [apply walks_ret|]. intros [|]; [|apply walks_ret].
      apply walks_bind; [now apply walks_emit | intro; now apply walks_emit].
    + apply walks_bind; [|intros [|]; [|apply walks_ret]].
      * apply walks_bind; [now apply walks_emit | intro; apply walks_ret].
      * apply walks_bind; [now apply walks_emit | intro; now apply walks_emit].
    + apply walks_bind; [|intros [|]; [|apply walks_ret]].
      * apply walks_bind; [now apply walks_emit | intro; apply walks_ret].
      * apply walks_bind; [now apply walks_emit | intro; now apply walks_emit].
Qed.

Lemma walks_walk_entries (callback : string -> option PackageValue -> M unit)
    (recurse : string -> M unit) (dirPath : string) (entries : list string) :
  (forall p o, walks (callback p o)) -> (forall p, walks (recurse p)) ->
  walks (walk_entries callback recurse dirPath entries).
Proof.
  intros Hcb Hrec. induction entries as [|entry rest IH]; cbn [walk_entries].
  - apply walks_ret.
  - apply walks_bind; [apply walks_fs_statSync|]. intro stat.
    apply walks_bind; [|intro; exact IH].
    destruct stat; [apply Hcb | apply Hrec | apply walks_ret].
Qed.

Lemma walks_walkers (callback : string -> option PackageValue -> M unit) (fuel : nat) :
  (forall p o, walks (callback p o)) ->
  (forall dirPath recurse, walks (_walk fuel dirPath callback recurse)) /\
  (forall this dirPath, walks (_walkRoot fuel this dirPath callback)).
Proof.
  intro Hcb. induction fuel as [|fuel [IHwalk IHroot]].
  - split; intros; apply walks_outOfFuel.
  - split.
    + intros dirPath recurse. rewrite walk_unfold.
      apply walks_bind; [apply walks_fs_readdirSync|]. intro entries.
      apply walks_walk_entries; [assumption|].
      intro p. destruct recurse; [apply IHwalk | apply IHroot].
    + intros this dirPath. cbn [_walkRoot].
      apply walks_bind; [apply walks_fs_readdirSync|]. intro entries.
      destruct (existsb _ entries).
      * apply walks_bind.
        -- unfold console_log, console_error. apply walks_try_catch.
           ++ apply walks_bind; [apply walks_require_module|]. intro v.
              apply walks_bind; [now apply walks_emit | intro; apply walks_ret].
           ++ intro e. apply walks_bind; [now apply walks_emit | intro; apply walks_ret].
        -- intros [[|directories_src descriptor]|];
             try (now apply walks_emit).
           apply walks_bind; [apply walks_checkSrcDir|]. intros _.
           apply walks_bind; [apply Hcb|]. intros _.
           destruct this; [apply IHroot | apply walks_throw].
      * destruct this; [apply IHwalk | apply walks_throw].
Qed.

Lemma walks_walk (fuel : nat) (cl : Closure) (dirPath : string) (recurse : Recurse) :
  walks (_walk fuel dirPath (fileCallback cl) recurse).
Proof. apply walks_walkers. intros p o. apply walks_walkCallback. Qed.

Lemma walks_walkRoot (fuel : nat) (cl : Closure) (this : ThisValue) (dirPath : string) :
  walks (_walkRoot fuel this dirPath (walkRootCallback cl)).
Proof. apply walks_walkers. intros p o. apply walks_walkRootCallback. Qed.

(** X10. Whatever the tree, the call depth and the way it ends
    (normally, with an exception, or mid-way), a walk of either mode
    only appends to the records and to the AST jobs collected so far,
    and has no effect but reading directories, file kinds and package
    descriptors, logging, calling the parser and submitting AST jobs: it
    writes nothing and calls no plugin hook. *)
Theorem walks_only_read_and_append (fuel : nat) (cl : Closure) (dirPath : string)
    (this : ThisValue) (recurse : Recurse) :
  walks (_walk fuel dirPath (fileCallback cl) recurse) /\
  walks (_walkRoot fuel this dirPath (walkRootCallback cl)).
Proof.
  split.
  - apply walks_walkers. intros p o. apply walks_walkCallback.
  - apply walks_walkers. intros p o. apply walks_walkRootCallback.
Qed.

End WalkFrames.

(** ** When [index.json] is written *)

Section IndexLast.

Context {W : World}.

Lemma emits_weaken {A} (P Q : Event -> bool) (m : M A) :
  (forall ev, P ev = true -> Q ev = true) -> emits P m -> emits Q m.
Proof.
  intros HPQ Hm st. destruct (Hm st) as [evs [Ht Hp]]. exists evs. split; [assumption|].
  rewrite forallb_forall in *. auto.
Qed.

Lemma walk_event_not_output (ev : Event) : is_walk_event ev = true -> not_output ev = true.
Proof. destruct ev; simpl; intro H; try reflexivity; discriminate. Qed.

End IndexLast.

(** The steps of [generate] around the walk, for a class of effects that
    holds the reads of files and the lines of the console. *)
Section StepEffects.

Context {W : World}.

Variable P : Event -> bool.

Hypothesis P_read : forall p, P (EvReadFileSync p) = true.
Hypothesis P_console : forall msg, P (EvConsoleError msg) = true.

Lemma emits_validate (config : ESDocConfig) : emits P (validate config).
Proof.
  unfold validate.
  apply emits_bind; [apply emits_assert|]. intros _.
  apply emits_bind; [|intros _; apply emits_assert].
  destruct (truthy (root config)); [|apply emits_ret].
  apply emits_bind; [apply emits_assert | intros _; apply emits_assert].
Qed.

Lemma emits_checkOldConfig (config : ESDocConfig) : emits P (_checkOldConfig config).
Proof.
  unfold _checkOldConfig. apply emits_bind.
  - intro st. rewrite checkOldKeys_run. eexists. split; [reflexivity|].
    induction (filter _ oldKeys) as [|kp l IH]; simpl; [reflexivity|].
    now rewrite P_console.
  - intros [|]; [apply emits_exit | apply emits_ret].
Qed.

Lemma emits_compileAll (patterns : list string) : emits P (compileAll patterns).
Proof.
  intro st. rewrite compileAll_run. exists []. simpl. now rewrite app_nil_r.
Qed.

Lemma emits_fs_readFileSync (p : string) : emits P (fs_readFileSync p).
Proof.
  unfold fs_readFileSync. apply emits_bind; [now apply emits_emit|]. intros _.
  destruct (readFileSync p); [apply emits_ret | apply emits_throw].
Qed.

Lemma emits_readPackageNameMain (config : ESDocConfig) :
  emits P (readPackageNameMain config).
Proof.
  unfold readPackageNameMain. destruct (as_truthy (package config)); [|apply emits_ret].
  apply emits_try_catch; [|intro; apply emits_ret].
  apply emits_bind; [apply emits_fs_readFileSync|]. intro text.
  destruct (JSON_parse_name_main text); [apply emits_ret | apply emits_throw].
Qed.

Lemma emits_generateForIndex (config : ESDocConfig) : emits P (_generateForIndex config).
Proof.
  unfold _generateForIndex. destruct (index config); [|apply emits_throw].
  apply emits_bind; [apply emits_fs_readFileSync | intro; apply emits_ret].
Qed.

Lemma emits_generateForOldPackageJSON (config : ESDocConfig) :
  emits P (_generateForOldPackageJSON config).
Proof.
  unfold _generateForOldPackageJSON. apply emits_bind.
  - apply emits_try_catch; [|intro; apply emits_ret].
    destruct (package config); [|apply emits_throw].
    apply emits_bind; [apply emits_fs_readFileSync | intro; apply emits_ret].
  - intros [packageJSON packagePath]. apply emits_ret.
Qed.

Lemma emits_pushIndex (config : ESDocConfig) :
  emits P (if truthy (index config)
           then tag <- _generateForIndex config ;; results_push [tag]
           else ret tt).
Proof.
  destruct (truthy (index config)); [|apply emits_ret].
  apply emits_bind; [apply emits_generateForIndex | intro; apply emits_results_push].
Qed.

Lemma emits_pushOldPackage (config : ESDocConfig) :
  emits P (if truthy (package config)
           then tag <- _generateForOldPackageJSON config ;; results_push [tag]
           else ret tt).
Proof.
  destruct (truthy (package config)); [|apply emits_ret].
  apply emits_bind; [apply emits_generateForOldPackageJSON
                    | intro; apply emits_results_push].
Qed.

End StepEffects.

Section IndexLastRun.

Context {W : World}.

Lemma index_last_bind {A} (m : M A) (k : A -> M unit) :
  emits not_output m ->
  (forall a st, writes_index_last (fst (k a st)) st (snd (k a st))) ->
  forall st, writes_index_last (fst (bind m k st)) st (snd (bind m k st)).
Proof.
  intros Hm Hk st. unfold bind. destruct (Hm st) as [e1 [Ht1 Hp1]].
  destruct (m st) as [[a|e|c|] st1]; simpl in *;
    [| now exists e1 | now exists e1 | now exists e1].
  destruct (Hk a st1) as [e2 [Ht2 Hr]].
  exists (e1 ++ e2). split; [now rewrite Ht2, Ht1, app_assoc|].
  destruct (fst (k a st1)).
  - destruct Hr as [e2' [p [-> Hp2]]]. exists (e1 ++ e2'), p.
    split; [now rewrite app_assoc | now rewrite forallb_app, Hp1, Hp2].
  - now rewrite forallb_app, Hp1, Hr.
  - now rewrite forallb_app, Hp1, Hr.
  - now rewrite forallb_app, Hp1, Hr.
Qed.

Lemma index_last_generate_run (fuel : nat) (config : ESDocConfig) (st : RunState) :
  writes_index_last (fst (generate_run fuel config st)) st
                    (snd (generate_run fuel config st)).
Proof.
  revert st. unfold generate_run.
  apply index_last_bind.
  { destruct (includes config); [apply emits_compileAll | apply emits_throw]. }
  intro incs. apply index_last_bind.
  { destruct (excludes config); [apply emits_compileAll | apply emits_throw]. }
  intro excs. apply index_last_bind; [now apply emits_readPackageNameMain|].
  intros [packageName mainFilePath]. apply index_last_bind; [apply emits_set_results|].
  intros _. apply index_last_bind.
  { destruct (source config); [apply emits_ret | apply emits_throw]. }
  intro source_. apply index_last_bind.
  { apply (emits_weaken is_walk_event); [apply walk_event_not_output|].
    destruct (as_truthy (root config)).
    - apply walks_walkRoot.
    - apply walks_walk. }
  intros _. apply index_last_bind; [now apply emits_emit|].
  intros _. apply index_last_bind; [now apply emits_pushIndex|].
  intros _. apply index_last_bind; [now apply emits_pushOldPackage|].
  intros _. apply index_last_bind; [apply emits_get_results|].
  intro docs. apply index_last_bind; [apply emits_set_results|].
  intros _. apply index_last_bind; [apply emits_get_results|].
  intro docs1. apply index_last_bind; [now apply emits_emit|].
  intros _. apply index_last_bind; [apply emits_set_results|].
  intros _ st. unfold bind, get_results. simpl.
  destruct (destination config) as [dest|]; simpl.
  - exists [EvOutputFileSync (path_resolve2 dest "index.json") (results st)].
    split; [reflexivity|]. exists [], (path_resolve2 dest "index.json"). auto.
  - exists []. now rewrite app_nil_r.
Qed.


End IndexLastRun.

(** ** A walk of fixed-source mode, file by file *)

Section WalkSummary.

Context {W : World}.

Variable cl : Closure.

Lemma parser_calls_app (e1 e2 : list Event) :
  parser_calls (e1 ++ e2) = parser_calls e1 ++ parser_calls e2.
Proof. unfold parser_calls. apply flat_map_app. Qed.

Lemma summarize_app (l1 l2 : list string) (seq : Z) :
  summarize cl (l1 ++ l2) seq
  = let s1 := summarize cl l1 seq in
    match ws_failure s1 with
    | Some _ => s1
    | None =>
        let s2 := summarize cl l2 (ws_seq s1) in
        mkSummary (ws_docs s1 ++ ws_docs s2) (ws_jobs s1 ++ ws_jobs s2) (ws_seq s2)
                  (ws_parsed s1 ++ ws_parsed s2) (ws_failure s2)
    end.
Proof.
  revert seq. induction l1 as [|f l1 IH]; intro seq; cbn [summarize app].
  - cbv zeta. cbn [ws_failure ws_docs ws_jobs ws_seq ws_parsed app].
    now destruct (summarize cl l2 seq).
  - destruct (is_accepted cl f); [|apply IH].
    destruct (ESParser_parse f) as [ast|e].
    + destruct (extract _ _ _ _ _ _) as [[docs|node] seq']; [|reflexivity].
      rewrite IH. cbv zeta. cbn [ws_failure ws_docs ws_jobs ws_seq ws_parsed].
      destruct (ws_failure (summarize cl l1 seq')) eqn:Hf;
        cbn [ws_failure ws_docs ws_jobs ws_seq ws_parsed app]; rewrite ?Hf;
        [reflexivity | now rewrite app_assoc].
    + rewrite IH. cbv zeta. cbn [ws_failure ws_docs ws_jobs ws_seq ws_parsed].
      destruct (ws_failure (summarize cl l1 seq)) eqn:Hf;
        cbn [ws_failure ws_docs ws_jobs ws_seq ws_parsed app]; rewrite ?Hf; reflexivity.
Qed.

Lemma follows_refl (st : RunState) : follows st st (mkSummary [] [] (docSeq st) [] None).
Proof.
  unfold follows. simpl. rewrite !app_nil_r. repeat split.
  exists []. now rewrite app_nil_r.
Qed.

(** A step without records, jobs or parser call may precede a summary. *)
Lemma follows_after_trace (st st' : RunState) (evs : list Event) (s : WalkSummary) :
  parser_calls evs = [] -> follows (add_trace st evs) st' s -> follows st st' s.
Proof.
  intros Hp [Hr [Hj [Hs [e He]]]]. unfold follows. simpl in *.
  repeat split; try assumption.
  destruct He as [Ht Hc]. exists (evs ++ e).
  now rewrite Ht, app_assoc, parser_calls_app, Hp.
Qed.

Lemma follows_trans (st st1 st2 : RunState) (s1 s2 : WalkSummary) :
  follows st st1 s1 -> follows st1 st2 s2 ->
  follows st st2 (mkSummary (ws_docs s1 ++ ws_docs s2) (ws_jobs s1 ++ ws_jobs s2)
                            (ws_seq s2) (ws_parsed s1 ++ ws_parsed s2) (ws_failure s2)).
Proof.
  intros [Hr1 [Hj1 [Hs1 [e1 [Ht1 Hc1]]]]] [Hr2 [Hj2 [Hs2 [e2 [Ht2 Hc2]]]]].
  unfold follows. simpl. rewrite Hr2, Hr1, Hj2, Hj1, !app_assoc.
  repeat split; try assumption.
  exists (e1 ++ e2). now rewrite Ht2, Ht1, app_assoc, parser_calls_app, Hc1, Hc2.
Qed.

(** One call of the callback. *)
Lemma walkCallback_summary (filePath : string) (st : RunState) :
  let s := summarize cl [filePath] (docSeq st) in
  exists st', walkCallback cl filePath st = (summary_result s, st') /\ follows st st' s.
Proof.
  cbn [summarize]. destruct (is_accepted cl filePath) eqn:Hacc.
  - apply is_accepted_iff in Hacc.
    destruct (ESParser_parse filePath) as [ast|e] eqn:Hp.
    + destruct (extract _ _ _ _ _ _) as [[docs|node] seq'] eqn:Hx.
      * rewrite (walkCallback_extracted _ _ _ _ _ _ Hacc Hp Hx).
        eexists. split; [reflexivity|].
        unfold follows. simpl. rewrite app_nil_r. repeat split.
        eexists. split; [reflexivity|]. reflexivity.
      * rewrite (walkCallback_extract_failed _ _ _ _ _ _ Hacc Hp Hx).
        eexists. split; [reflexivity|].
        unfold follows. simpl. rewrite !app_nil_r. repeat split.
        eexists. split; [reflexivity|]. reflexivity.
    + rewrite (walkCallback_parse_error _ _ _ _ Hacc Hp).
      eexists. split; [reflexivity|].
      unfold follows. simpl. rewrite !app_nil_r. repeat split.
      eexists. split; [reflexivity|]. reflexivity.
  - rewrite (walkCallback_rejected _ _ _ (is_accepted_false _ _ Hacc)).
    eexists. split; [reflexivity | apply follows_refl].
Qed.

(** The composition of two parts of a walk: the second part runs only
    when the first did not fail. *)
Lemma summary_seq (l1 l2 : list string) (m1 : M unit) (m2 : M unit)
    (st : RunState) :
  (exists st1, m1 st = (summary_result (summarize cl l1 (docSeq st)), st1) /\
               follows st st1 (summarize cl l1 (docSeq st))) ->
  (forall st1, exists st2,
      m2 st1 = (summary_result (summarize cl l2 (docSeq st1)), st2) /\
      follows st1 st2 (summarize cl l2 (docSeq st1))) ->
  exists st2,
    bind m1 (fun _ => m2) st = (summary_result (summarize cl (l1 ++ l2) (docSeq st)), st2) /\
    follows st st2 (summarize cl (l1 ++ l2) (docSeq st)).
Proof.
  intros [st1 [Hrun1 Hf1]] H2. rewrite summarize_app. cbn zeta.
  unfold bind. rewrite Hrun1. unfold summary_result at 1.
  destruct (ws_failure (summarize cl l1 (docSeq st))) as [[f node]|] eqn:Hfail.
  - exists st1. split; [|assumption].
    unfold summary_result. now rewrite Hfail.
  - destruct (H2 st1) as [st2 [Hrun2 Hf2]].
    assert (Hseq : docSeq st1 = ws_seq (summarize cl l1 (docSeq st))) by apply Hf1.
    rewrite Hseq in Hrun2, Hf2.
    exists st2. split; [exact Hrun2|].
    now apply (follows_trans st st1 st2).
Qed.

Lemma walk_entries_summary (fuel : nat) :
  (forall dirPath files st,
      listFiles fuel dirPath = Some files ->
      exists st', _walk fuel dirPath (fileCallback cl) RecurseWalk st
                  = (summary_result (summarize cl files (docSeq st)), st') /\
                  follows st st' (summarize cl files (docSeq st))) ->
  forall entries dirPath files st,
    listEntries (listFiles fuel) dirPath entries = Some files ->
    exists st',
      walk_entries (fileCallback cl) (recurse_call fuel (fileCallback cl) RecurseWalk)
                   dirPath entries st
      = (summary_result (summarize cl files (docSeq st)), st') /\
      follows st st' (summarize cl files (docSeq st)).
Proof.
  intro IHfuel. induction entries as [|entry rest IH]; intros dirPath files st Hlist.
  - simpl in Hlist. injection Hlist as <-.
    exists st. split; [reflexivity | apply follows_refl].
  - cbn [listEntries] in Hlist. cbn [walk_entries].
    set (entryPath := path_resolve2 dirPath entry) in *.
    set (st0 := add_trace st [EvStatSync entryPath]).
    assert (Hstep : forall (m : M unit) l1 l2,
               files = l1 ++ l2 ->
               (exists st1, m st0 = (summary_result (summarize cl l1 (docSeq st0)), st1) /\
                            follows st0 st1 (summarize cl l1 (docSeq st0))) ->
               listEntries (listFiles fuel) dirPath rest = Some l2 ->
               exists st',
                 bind m (fun _ => walk_entries (fileCallback cl)
                                    (recurse_call fuel (fileCallback cl) RecurseWalk)
                                    dirPath rest) st0
                 = (summary_result (summarize cl files (docSeq st)), st') /\
                 follows st st' (summarize cl files (docSeq st))).
    { intros m l1 l2 -> Hm Hrest.
      destruct (summary_seq l1 l2 m _ st0 Hm (fun st1 => IH dirPath l2 st1 Hrest))
        as [st2 [Hrun Hf]].
      exists st2. split; [exact Hrun|].
      now apply (follows_after_trace st st2 [EvStatSync entryPath]). }
    run_m. fold st0.
    destruct (statSync entryPath) as [[| |]|] eqn:Hstat; [| | |discriminate].
    + destruct (listEntries (listFiles fuel) dirPath rest) as [after|] eqn:Hrest;
        [|discriminate].
      simpl in Hlist. injection Hlist as <-.
      apply (Hstep (fileCallback cl entryPath None) [entryPath] after eq_refl);
        [|reflexivity].
      apply walkCallback_summary.
    + destruct (listFiles fuel entryPath) as [below|] eqn:Hbelow; [|discriminate].
      destruct (listEntries (listFiles fuel) dirPath rest) as [after|] eqn:Hrest;
        [|discriminate].
      injection Hlist as <-.
      apply (Hstep (recurse_call fuel (fileCallback cl) RecurseWalk entryPath)
                   below after eq_refl); [|reflexivity].
      apply IHfuel, Hbelow.
    + apply (Hstep (ret tt) [] files eq_refl); [|assumption].
      exists st0. split; [reflexivity | apply follows_refl].
Qed.

(** The walk of fixed-source mode does what [summarize] says of the
    files under the directory. *)
Lemma walk_summary (fuel : nat) (dirPath : string) (files : list string) (st : RunState) :
  listFiles fuel dirPath = Some files ->
  exists st', _walk fuel dirPath (fileCallback cl) RecurseWalk st
              = (summary_result (summarize cl files (docSeq st)), st') /\
              follows st st' (summarize cl files (docSeq st)).
Proof.
  revert dirPath files st.
  induction fuel as [|fuel IH]; intros dirPath files st Hlist; [discriminate|].
  cbn [listFiles] in Hlist.
  destruct (readdirSync dirPath) as [entries|] eqn:Hdir; [|discriminate].
  rewrite walk_unfold. run_m. rewrite Hdir. run_m.
  destruct (walk_entries_summary fuel IH entries dirPath files
              (add_trace st [EvReaddirSync dirPath]) Hlist) as [st2 [Hrun Hf]].
  exists st2. split; [exact Hrun|].
  now apply (follows_after_trace st st2 [EvReaddirSync dirPath]).
Qed.

Lemma summarize_parsed_prefix (files : list string) (seq : Z) :
  exists rest,
    filter (is_accepted cl) files = ws_parsed (summarize cl files seq) ++ rest /\
    (ws_failure (summarize cl files seq) = None -> rest = []).
Proof.
  revert seq. induction files as [|f files IH]; intro seq; cbn [summarize filter].
  - exists []. auto.
  - destruct (is_accepted cl f); [|apply IH].
    destruct (ESParser_parse f) as [ast|e].
    + destruct (extract _ _ _ _ _ _) as [[docs|node] seq'].
      * destruct (IH seq') as [rest [Hr Hn]]. exists rest. simpl. now rewrite Hr.
      * exists (filter (is_accepted cl) files). simpl. split; [reflexivity | discriminate].
    + destruct (IH seq) as [rest [Hr Hn]]. exists rest. simpl. now rewrite Hr.
Qed.

Lemma collect_summarize (files : list string) (seq : Z) (docs : list Tag)
    (jobs : list (string * AST)) (seq' : Z) :
  collect cl files seq = Some (docs, jobs, seq') ->
  summarize cl files seq = mkSummary docs jobs seq' (filter (is_accepted cl) files) None.
Proof.
  revert seq docs jobs seq'.
  induction files as [|f files IH]; intros seq docs jobs seq' H; cbn [collect summarize filter] in *.
  - now injection H as <- <- <-.
  - destruct (is_accepted cl f); [|now apply IH].
    destruct (ESParser_parse f) as [ast|e].
    + destruct (extract _ _ _ _ _ _) as [[ds|node] s1]; [|discriminate].
      destruct (collect cl files s1) as [[[d2 j2] s2]|] eqn:Hc; [|discriminate].
      injection H as <- <- <-. now rewrite (IH _ _ _ _ Hc).
    + now rewrite (IH _ _ _ _ H).
Qed.

End WalkSummary.

Section WalkProperties.

Context {W : World}.

(** X12. In a walk of fixed-source mode that can read the whole tree,
    the parser is called on the accepted files in the order of the walk,
    each once, and on no other file; it is called on all of them when
    the walk returns normally, and otherwise on those up to the file on
    which the doc factory failed. *)
Theorem walk_parses_in_order (fuel0 fuel : nat) (cl : Closure) (dirPath : string)
    (files : list string) (st : RunState) :
  listFiles fuel0 dirPath = Some files -> (fuel0 <= fuel)%nat ->
  exists evs rest,
    trace (snd (_walk fuel dirPath (fileCallback cl) RecurseWalk st)) = trace st ++ evs /\
    filter (is_accepted cl) files = parser_calls evs ++ rest /\
    (fst (_walk fuel dirPath (fileCallback cl) RecurseWalk st) = Ok tt -> rest = []).
Proof.
  intros Hlist0 Hle.
  assert (Hlist := listFiles_mono fuel0 fuel dirPath files Hle Hlist0).
  destruct (walk_summary cl fuel dirPath files st Hlist)
    as [st' [Hrun [_ [_ [_ [evs [Ht Hc]]]]]]].
  destruct (summarize_parsed_prefix cl files (docSeq st)) as [rest [Hr Hn]].
  exists evs, rest. rewrite Hrun. simpl. split; [assumption|].
  split; [now rewrite Hc|].
  unfold summary_result. destruct (ws_failure _) as [[f node]|]; [discriminate | auto].
Qed.

Lemma walk_extraction_failure (cl : Closure) (fuel0 fuel : nat)
    (dirPath filePath node : string)
    (before after : list string) (ast : AST)
    (docs : list Tag) (jobs : list (string * AST)) (seq1 seq2 : Z) (st : RunState) :
  listFiles fuel0 dirPath = Some (before ++ filePath :: after) -> (fuel0 <= fuel)%nat ->
  collect cl before (docSeq st) = Some (docs, jobs, seq1) ->
  accepted cl filePath -> ESParser_parse filePath = inl ast ->
  extract seq1 (cl_source cl) filePath (cl_packageName cl) (cl_mainFilePath cl) ast
  = (ExtractFailed node, seq2) ->
  exists st',
    _walk fuel dirPath (fileCallback cl) RecurseWalk st
    = (Throw (ExtractionError filePath node), st') /\
    follows st st' (mkSummary docs jobs seq2
                              (filter (is_accepted cl) before ++ [filePath])
                              (Some (filePath, node))).
Proof.
  intros Hlist0 Hle Hcol Hacc Hp Hx.
  assert (Hlist := listFiles_mono fuel0 fuel dirPath _ Hle Hlist0).
  destruct (walk_summary cl fuel dirPath _ st Hlist) as [st' [Hrun Hf]].
  rewrite summarize_app in Hrun, Hf. cbn zeta in Hrun, Hf.
  rewrite (collect_summarize cl _ _ _ _ _ Hcol) in Hrun, Hf.
  cbn [ws_failure ws_seq ws_docs ws_jobs ws_parsed summarize] in Hrun, Hf.
  apply is_accepted_iff in Hacc. rewrite Hacc, Hp, Hx in Hrun, Hf.
  cbn [ws_failure ws_seq ws_docs ws_jobs ws_parsed] in Hrun, Hf.
  rewrite !app_nil_r in Hf.
  exists st'. split; [exact Hrun | exact Hf].
Qed.

(** X13. An error of the doc factory is fatal: when it fails on a file,
    the walk throws the error for that file and node; the records and
    AST jobs of the files before it are kept, and no file after it is
    parsed. *)
Theorem walk_stops_at_extraction_failure (fuel0 fuel : nat) (cl : Closure)
    (dirPath filePath node : string) (before after : list string) (ast : AST)
    (docs : list Tag) (jobs : list (string * AST)) (seq1 seq2 : Z) (st : RunState) :
  listFiles fuel0 dirPath = Some (before ++ filePath :: after) -> (fuel0 <= fuel)%nat ->
  collect cl before (docSeq st) = Some (docs, jobs, seq1) ->
  accepted cl filePath -> ESParser_parse filePath = inl ast ->
  extract seq1 (cl_source cl) filePath (cl_packageName cl) (cl_mainFilePath cl) ast
  = (ExtractFailed node, seq2) ->
  exists st' evs,
    _walk fuel dirPath (fileCallback cl) RecurseWalk st
    = (Throw (ExtractionError filePath node), st') /\
    results st' = results st ++ docs /\
    astJobs st' = astJobs st ++ jobs /\
    trace st' = trace st ++ evs /\
    parser_calls evs = filter (is_accepted cl) before ++ [filePath].
Proof.
  intros Hlist0 Hle Hcol Hacc Hp Hx.
  destruct (walk_extraction_failure cl fuel0 fuel dirPath filePath node before after ast
              docs jobs seq1 seq2 st Hlist0 Hle Hcol Hacc Hp Hx)
    as [st' [Hrun [Hr [Hj [_ [evs [Ht Hc]]]]]]].
  exists st', evs. auto.
Qed.

End WalkProperties.

Lemma walk_parses_in_order_witness :
  exists evs rest,
    trace (snd (@_walk srcWorld 3 "./src" (@fileCallback srcWorld srcClosure) RecurseWalk
                  initialState)) = trace initialState ++ evs /\
    filter (@is_accepted srcWorld srcClosure) srcFiles = parser_calls evs ++ rest /\
    (fst (@_walk srcWorld 3 "./src" (@fileCallback srcWorld srcClosure) RecurseWalk
            initialState) = Ok tt -> rest = []).
Proof.
  apply (@walk_parses_in_order srcWorld 2 3 srcClosure "./src" srcFiles initialState).
  - reflexivity.
  - lia.
Defined.

Lemma walk_stops_at_extraction_failure_witness :
  exists st' evs,
    @_walk failingWorld 1 "./src" (@fileCallback failingWorld failingClosure) RecurseWalk
           initialState
    = (Throw (ExtractionError "./src/b.js" "ClassDeclaration"), st') /\
    results st' = results initialState ++ [doc "function" "a" 1] /\
    astJobs st' = astJobs initialState ++ [("source/a.js", "astA")] /\
    trace st' = trace initialState ++ evs /\
    parser_calls evs
    = filter (@is_accepted failingWorld failingClosure) ["./src/a.js"] ++ ["./src/b.js"].
Proof.
  apply (@walk_stops_at_extraction_failure failingWorld 1 1 failingClosure "./src"
           "./src/b.js" "ClassDeclaration" ["./src/a.js"] ["./src/c.js"] "astB"
           [doc "function" "a" 1] [("source/a.js", "astA")] 1 1 initialState).
  - reflexivity.
  - lia.
  - reflexivity.
  - apply (@is_accepted_iff failingWorld). reflexivity.
  - reflexivity.
  - reflexivity.
Defined.

(** ** The package-aware walker, case by case *)

Section WalkRootMore.

Context {W : World}.

Lemma hasPackageJson_false (entries : list string) :
  ~ In "package.json" entries -> existsb (String.eqb "package.json") entries = false.
Proof.
  intro H. destruct (existsb _ entries) eqn:He; [|reflexivity].
  apply existsb_exists in He. destruct He as [x [Hx Heq]].
  apply String.eqb_eq in Heq. subst x. contradiction.
Qed.


(** X15. [_walk] calls [recurse] as a plain function, so in root mode
    [_walkRoot] runs on a subdirectory with [this] undefined: on a
    subdirectory without package descriptor it throws a [TypeError]
    (from [this._walk]) as soon as it has listed it, and the loop of the
    caller does not reach the entries that follow. *)
Theorem walkRoot_fails_below_root (fuel : nat)
    (callback : string -> option PackageValue -> M unit)
    (parent entry : string) (rest entries : list string) (st : RunState) :
  let dirPath := path_resolve2 parent entry in
  statSync dirPath = Some StatDirectory ->
  readdirSync dirPath = Some entries -> ~ In "package.json" entries ->
  walk_entries callback (recurse_call (S fuel) callback RecurseWalkRoot)
               parent (entry :: rest) st
  = (Throw (TypeError "Cannot read property '_walk' of undefined"),
     add_trace st [EvStatSync dirPath; EvReaddirSync dirPath]).
Proof.
  intros dirPath Hstat Hdir Hno. subst dirPath.
  cbn [walk_entries]. run_m. rewrite Hstat. run_m.
  unfold recurse_call. cbn [_walkRoot]. run_m. rewrite Hdir. run_m.
  rewrite (hasPackageJson_false _ Hno). run_m. now rewrite add_trace_app.
Qed.

(** An unparseable package followed by an ordinary directory: the
    package is skipped, and the walk throws on the directory. *)
Lemma walk_entries_unparseable_then_directory (fuel : nat)
    (callback : string -> option PackageValue -> M unit)
    (parent broken sibling : string) (rest entriesB entriesS : list string)
    (st : RunState) :
  let brokenPath := path_resolve2 parent broken in
  let siblingPath := path_resolve2 parent sibling in
  statSync brokenPath = Some StatDirectory ->
  readdirSync brokenPath = Some entriesB -> In "package.json" entriesB ->
  require (path_resolve2 brokenPath "package.json") = None ->
  statSync siblingPath = Some StatDirectory ->
  readdirSync siblingPath = Some entriesS -> ~ In "package.json" entriesS ->
  walk_entries callback (recurse_call (S fuel) callback RecurseWalkRoot)
               parent (broken :: sibling :: rest) st
  = (Throw (TypeError "Cannot read property '_walk' of undefined"),
     add_trace st (EvStatSync brokenPath :: unparseableEvents brokenPath
                   ++ [EvStatSync siblingPath; EvReaddirSync siblingPath])).
Proof.
  intros brokenPath siblingPath HstatB HdirB HinB Hreq HstatS HdirS HnoS.
  subst brokenPath siblingPath.
  rewrite (walk_entries_skips_unparseable fuel callback parent broken _ entriesB st
             HstatB HdirB HinB Hreq).
  cbn [walk_entries]. run_m. rewrite HstatS. run_m.
  unfold recurse_call. cbn [_walkRoot]. run_m. rewrite HdirS. run_m.
  rewrite (hasPackageJson_false _ HnoS). run_m.
  rewrite !add_trace_app. reflexivity.
Qed.

(** X16. A package descriptor that loads as a falsy value (the JSON
    documents [null], [false], [0] and the empty string) is announced as
    found and then reported as unparseable: the callback is not called
    and the directory is not entered. *)
Theorem walkRoot_falsy_descriptor (fuel : nat) (this : ThisValue) (dirPath : string)
    (callback : string -> option PackageValue -> M unit) (entries : list string)
    (st : RunState) :
  let packagePath := path_resolve2 dirPath "package.json" in
  readdirSync dirPath = Some entries -> In "package.json" entries ->
  require packagePath = Some PkgFalsy ->
  _walkRoot (S fuel) this dirPath callback st
  = (Ok tt,
     add_trace st [EvReaddirSync dirPath; EvRequire packagePath;
                   EvConsoleLog ("Found package at " ++ packagePath)%string;
                   EvConsoleError ("Found unparseable package.json at " ++ packagePath
                                   ++ ". Aborting.")%string]).
Proof.
  intros packagePath Hdir Hin Hreq. subst packagePath.
  cbn [_walkRoot]. run_m. rewrite Hdir. run_m.
  rewrite (hasPackageJson_true _ Hin). run_m. rewrite Hreq. run_m.
  now rewrite !add_trace_app.
Qed.

End WalkRootMore.


Lemma walkRoot_fails_below_root_witness :
  @walk_entries nestedWorld nestedCallback
               (@recurse_call nestedWorld 1 nestedCallback RecurseWalkRoot)
               "/root" ["docs"; "a.js"] initialState
  = (Throw (TypeError "Cannot read property '_walk' of undefined"),
     add_trace initialState [EvStatSync "/root/docs"; EvReaddirSync "/root/docs"]).
Proof.
  apply (@walkRoot_fails_below_root nestedWorld 0 nestedCallback "/root" "docs" ["a.js"]
           ["b.js"] initialState).
  - reflexivity.
  - reflexivity.
  - simpl. intros [H|[]]. discriminate H.
Defined.

Lemma walkRoot_falsy_descriptor_witness :
  @_walkRoot nullPkgWorld 1 ThisESDoc "/proj" nullPkgCallback initialState
  = (Ok tt,
     add_trace initialState
       [EvReaddirSync "/proj"; EvRequire "/proj/package.json";
        EvConsoleLog "Found package at /proj/package.json";
        EvConsoleError "Found unparseable package.json at /proj/package.json. Aborting."]).
Proof.
  apply (@walkRoot_falsy_descriptor nullPkgWorld 0 ThisESDoc "/proj" nullPkgCallback
           ["package.json"; "src"] initialState).
  - reflexivity.
  - simpl. tauto.
  - reflexivity.
Defined.

(** ** Failures around the walk *)

Section RunFailures.

Context {W : World}.

(** X17. A package file that cannot be read does not fail the run:
    [packageName] and [mainFilePath] stay [null], and the package record
    of [_generateForOldPackageJSON] is built with empty content and an
    empty longname. *)
Theorem package_unreadable_fallback (config : ESDocConfig) (p : string) (st : RunState) :
  as_truthy (package config) = Some p -> readFileSync p = None ->
  readPackageNameMain config st = (Ok (None, None), add_trace st [EvReadFileSync p]) /\
  _generateForOldPackageJSON config st
  = (Ok (mkTag "packageJSON" "" (path_basename "") true "public" None (Some "") None),
     add_trace st [EvReadFileSync p]).
Proof.
  intros Hp Hread. split.
  - unfold readPackageNameMain. rewrite Hp. run_m. rewrite Hread. reflexivity.
  - apply as_truthy_Some in Hp. destruct Hp as [Hp _].
    unfold _generateForOldPackageJSON. rewrite Hp. run_m. rewrite Hread. reflexivity.
Qed.




End RunFailures.

Lemma package_unreadable_fallback_witness :
  @readPackageNameMain srcWorld noPackageConfig initialState
  = (Ok (None, None), add_trace initialState [EvReadFileSync "./missing.json"]) /\
  @_generateForOldPackageJSON srcWorld noPackageConfig initialState
  = (Ok (mkTag "packageJSON" "" "" true "public" None (Some "") None),
     add_trace initialState [EvReadFileSync "./missing.json"]).
Proof.
  apply (@package_unreadable_fallback srcWorld noPackageConfig "./missing.json"
           initialState); reflexivity.
Defined.



(** ** The directory of an AST file *)

Section AstDirectory.

Lemma split_slash_nonempty (s : string) : split_slash s <> [].
Proof.
  destruct s as [|c s]; simpl; [discriminate|].
  destruct (Ascii.eqb c "/"); [discriminate|].
  destruct (split_slash s); discriminate.
Qed.

Lemma split_slash_app (d f : string) :
  split_slash (d ++ String "/" f)%string = split_slash d ++ split_slash f.
Proof.
  induction d as [|c d IH]; cbn [append split_slash].
  - reflexivity.
  - destruct (Ascii.eqb c "/").
    + now rewrite IH.
    + rewrite IH. destruct (split_slash d) as [|segment segments] eqn:Hd.
      * now destruct (split_slash_nonempty d).
      * reflexivity.
Qed.

Lemma split_slash_plain (f : string) : has_slash f = false -> split_slash f = [f].
Proof.
  induction f as [|c f IH]; simpl; intro H; [reflexivity|].
  apply orb_false_iff in H. destruct H as [Hc Hf]. rewrite Hc, (IH Hf). reflexivity.
Qed.

Lemma join_slash_cons_char (c : ascii) (segment : string) (segments : list string) :
  join_slash (String c segment :: segments) = String c (join_slash (segment :: segments)).
Proof. destruct segments; reflexivity. Qed.

Lemma join_split_slash (s : string) : join_slash (split_slash s) = s.
Proof.
  induction s as [|c s IH]; simpl; [reflexivity|].
  destruct (Ascii.eqb c "/") eqn:Hc.
  - apply Ascii.eqb_eq in Hc. subst c.
    destruct (split_slash s) as [|segment segments] eqn:Hs.
    + now destruct (split_slash_nonempty s).
    + cbn [join_slash]. simpl. now rewrite <- IH.
  - destruct (split_slash s) as [|segment segments] eqn:Hs.
    + now destruct (split_slash_nonempty s).
    + now rewrite join_slash_cons_char, IH.
Qed.

(** X20. The directory [mkdirp] creates before an AST file is written
    is the path of the file up to its last slash: for a path
    [d + "/" + f] whose last segment [f] holds no slash it is [d], and
    for a path without slash it is the empty string.  Splitting at the
    slashes and joining again gives the path back. *)
Theorem astDirectory_is_parent :
  (forall d f, has_slash f = false -> astDirectory (d ++ "/" ++ f)%string = d) /\
  (forall f, has_slash f = false -> astDirectory f = EmptyString) /\
  (forall s, join_slash (split_slash s) = s).
Proof.
  split; [|split].
  - intros d f Hf. unfold astDirectory.
    change (d ++ "/" ++ f)%string with (d ++ String "/" f)%string.
    rewrite split_slash_app, (split_slash_plain f Hf), removelast_last.
    apply join_split_slash.
  - intros f Hf. unfold astDirectory. now rewrite (split_slash_plain f Hf).
  - apply join_split_slash.
Qed.

End AstDirectory.

Lemma astDirectory_is_parent_witness :
  astDirectory "/out/ast/source/lib/good2.js.json" = "/out/ast/source/lib".
Proof.
  apply (proj1 astDirectory_is_parent "/out/ast/source/lib" "good2.js.json").
  reflexivity.
Defined.

(** ** The end of the AST stream *)

Section StreamEnd.

Context {W : World}.

Lemma walk_event_not_stream_end (ev : Event) :
  is_walk_event ev = true -> not_stream_end ev = true.
Proof. destruct ev; simpl; intro H; try reflexivity; discriminate. Qed.

Lemma stream_end_bind {A} (m : M A) (k : A -> M unit) :
  emits not_stream_end m ->
  (forall a st, exists evs, trace (snd (k a st)) = trace st ++ evs /\
                            ends_stream_once (fst (k a st)) evs) ->
  forall st, exists evs, trace (snd (bind m k st)) = trace st ++ evs /\
                         ends_stream_once (fst (bind m k st)) evs.
Proof.
  intros Hm Hk st. unfold bind. destruct (Hm st) as [e1 [Ht1 Hp1]].
  destruct (m st) as [[a|e|c|] st1]; simpl in *;
    [| exists e1; split; [assumption | right; split; [assumption | discriminate]] ..].
  destruct (Hk a st1) as [e2 [Ht2 Hr]].
  exists (e1 ++ e2). split; [now rewrite Ht2, Ht1, app_assoc|].
  destruct Hr as [[pre [post [-> [Hpre Hpost]]]]|[Hnone Hr]].
  - left. exists (e1 ++ pre), post. rewrite app_assoc, forallb_app, Hp1, Hpre. auto.
  - right. rewrite forallb_app, Hp1, Hnone. auto.
Qed.

Lemma emits_after_stream_end (config : ESDocConfig) :
  emits not_stream
    ((if truthy (index config)
      then tag <- _generateForIndex config ;; results_push [tag]
      else ret tt) ;;
     (if truthy (package config)
      then tag <- _generateForOldPackageJSON config ;; results_push [tag]
      else ret tt) ;;
     docs <- get_results ;;
     set_results (_resolveDuplication docs) ;;
     docs <- get_results ;;
     emit (EvPluginOnHandleDocs docs) ;;
     set_results (Plugin_onHandleDocs docs) ;;
     docs <- get_results ;;
     match destination config with
     | Some dest => emit (EvOutputFileSync (path_resolve2 dest "index.json") docs)
     | None => throw (TypeError "The path argument must be of type string")
     end).
Proof.
  apply emits_bind; [now apply emits_pushIndex|]. intros _.
  apply emits_bind; [now apply emits_pushOldPackage|]. intros _.
  apply emits_bind; [apply emits_get_results|]. intro docs.
  apply emits_bind; [apply emits_set_results|]. intros _.
  apply emits_bind; [apply emits_get_results|]. intro docs1.
  apply emits_bind; [now apply emits_emit|]. intros _.
  apply emits_bind; [apply emits_set_results|]. intros _.
  apply emits_bind; [apply emits_get_results|]. intro docs2.
  destruct (destination config); [now apply emits_emit | apply emits_throw].
Qed.

(** X21. In every run of [generate] the AST stream is ended at most
    once and no AST job is submitted after its end; a run that does not
    end the stream (its walk, or a step before it, failed) does not end
    normally. *)
Theorem generate_ends_stream_once (fuel : nat) (config : ESDocConfig) (st : RunState) :
  exists evs,
    trace (snd (generate fuel config st)) = trace st ++ evs /\
    ends_stream_once (fst (generate fuel config st)) evs.
Proof.
  revert st. unfold generate.
  apply stream_end_bind; [apply emits_validate|]. intros _.
  apply stream_end_bind; [now apply emits_checkOldConfig|]. intros _.
  apply stream_end_bind; [now apply emits_emit|]. intros _.
  apply stream_end_bind; [now apply emits_emit|]. intros _.
  apply stream_end_bind; [now apply emits_emit|]. intros _.
  set (config' := _setDefaultConfig (Plugin_onHandleConfig config)).
  unfold generate_run.
  apply stream_end_bind.
  { destruct (includes config'); [apply emits_compileAll | apply emits_throw]. }
  intro incs. apply stream_end_bind.
  { destruct (excludes config'); [apply emits_compileAll | apply emits_throw]. }
  intro excs. apply stream_end_bind; [now apply emits_readPackageNameMain|].
  intros [packageName mainFilePath]. apply stream_end_bind; [apply emits_set_results|].
  intros _. apply stream_end_bind.
  { destruct (source config'); [apply emits_ret | apply emits_throw]. }
  intro source_. apply stream_end_bind.
  { apply (emits_weaken is_walk_event); [apply walk_event_not_stream_end|].
    destruct (as_truthy (root config')).
    - apply walks_walkRoot.
    - apply walks_walk. }
  intros _ st.
  destruct (emits_after_stream_end config' (add_trace st [EvStreamEnd]))
    as [post [Ht Hp]].
  unfold bind at 1. unfold emit at 1. cbn iota beta.
  eexists. split; [rewrite Ht; cbn [trace add_trace]; rewrite <- app_assoc; reflexivity|].
  left. exists [], post. auto.
Qed.

(** X22. [generate] throws the assertion failure, with nothing done,
    exactly for the configurations that have neither [root] nor
    [source], that have [root] together with [source] or [package], or
    that have no [destination]; every other configuration gets past the
    assertions. *)
Theorem generate_assertion_iff (fuel : nat) (config : ESDocConfig) (st : RunState) :
  generate fuel config st = (Throw AssertionError, st) <->
  (truthy (root config) = false /\ truthy (source config) = false)
  \/ (truthy (root config) = true /\
      (truthy (source config) = true \/ truthy (package config) = true))
  \/ truthy (destination config) = false.
Proof.
  assert (Hvalid : valid_config config = false <->
                   (truthy (root config) = false /\ truthy (source config) = false)
                   \/ (truthy (root config) = true /\
                       (truthy (source config) = true \/ truthy (package config) = true))
                   \/ truthy (destination config) = false).
  { unfold valid_config.
    destruct (truthy (root config)), (truthy (source config)),
      (truthy (package config)), (truthy (destination config)); simpl;
      intuition congruence. }
  rewrite <- Hvalid. split.
  - intro Hrun. destruct (valid_config config) eqn:Hv; [exfalso|reflexivity].
    destruct (no_old_keys config) eqn:Hk.
    + rewrite (generate_valid fuel config st Hv Hk) in Hrun.
      destruct (index_last_generate_run fuel
                  (_setDefaultConfig (Plugin_onHandleConfig config))
                  (add_trace st [EvPluginInit (plugins config); EvPluginOnStart;
                                 EvPluginOnHandleConfig config])) as [evs [Ht _]].
      rewrite Hrun in Ht. cbn [snd trace add_trace] in Ht.
      apply (f_equal (@List.length Event)) in Ht.
      rewrite !length_app in Ht. simpl in Ht. lia.
    + rewrite (generate_old_config_run fuel config st Hv Hk) in Hrun. discriminate.
  - intro Hv. unfold generate. unfold bind at 1.
    now rewrite (validate_fails config st Hv).
Qed.

End StreamEnd.

Lemma setDefaultConfig_idempotent_witness :
  includes (_setDefaultConfig tunedConfig) = includes tunedConfig /\
  excludes (_setDefaultConfig tunedConfig) = excludes tunedConfig /\
  index (_setDefaultConfig tunedConfig) = index tunedConfig /\
  package (_setDefaultConfig tunedConfig) = package tunedConfig /\
  package (_setDefaultConfig rootConfig) = package rootConfig.
Proof.
  destruct (setDefaultConfig_idempotent tunedConfig)
    as [_ [_ [_ [_ [_ [Hi [He [Hx [Hp _]]]]]]]]].
  destruct (setDefaultConfig_idempotent rootConfig)
    as [_ [_ [_ [_ [_ [_ [_ [_ [_ Hs]]]]]]]]].
  split; [apply Hi; discriminate|].
  split; [apply He; discriminate|].
  split; [apply Hx; reflexivity|].
  split; [apply Hp; reflexivity | apply Hs; reflexivity].
Defined.

Lemma generate_assertion_iff_witness :
  @generate srcWorld 3 conflictingConfig initialState
  = (Throw AssertionError, initialState).
Proof.
  apply (proj2 (@generate_assertion_iff srcWorld 3 conflictingConfig initialState)).
  right; left. split; [reflexivity | left; reflexivity].
Defined.

(** ** The settings a run takes from its configuration *)

(** The walkers, for a class of effects that holds what they do
    themselves: listing directories, asking for the kind of an entry,
    loading a descriptor and writing to the console. *)
Section WalkStarts.

Context {W : World}.

Variable P : Event -> bool.

Hypothesis P_readdir : forall p, P (EvReaddirSync p) = true.
Hypothesis P_stat : forall p, P (EvStatSync p) = true.
Hypothesis P_require : forall p, P (EvRequire p) = true.
Hypothesis P_log : forall msg, P (EvConsoleLog msg) = true.
Hypothesis P_error : forall msg, P (EvConsoleError msg) = true.

Lemma fs_readdirSync_run (p : string) (st : RunState) :
  fs_readdirSync p st
  = (match readdirSync p with
     | Some entries => Ok entries
     | None => Throw (FsError "scandir" p)
     end, add_trace st [EvReaddirSync p]).
Proof. unfold fs_readdirSync. run_m. now destruct (readdirSync p). Qed.

Lemma emits_fs_readdirSync (p : string) : emits P (fs_readdirSync p).
Proof.
  intro st. rewrite fs_readdirSync_run. exists [EvReaddirSync p].
  simpl. now rewrite P_readdir.
Qed.

Lemma emits_fs_statSync (p : string) : emits P (fs_statSync p).
Proof.
  unfold fs_statSync. apply emits_bind; [now apply emits_emit|]. intros _.
  destruct (statSync p); [apply emits_ret | apply emits_throw].
Qed.

Lemma emits_require_module (p : string) : emits P (require_module p).
Proof.
  unfold require_module. apply emits_bind; [now apply emits_emit|]. intros _.
  destruct (require p); [apply emits_ret | apply emits_throw].
Qed.

Lemma emits_console_error (msg : string) : emits P (console_error msg).
Proof. unfold console_error. now apply emits_emit. Qed.

Lemma emits_checkSrcDir (srcDir : string) : emits P (checkSrcDir srcDir).
Proof.
  unfold checkSrcDir.
  apply emits_bind.
  - apply emits_try_catch.
    + apply emits_bind; [apply emits_fs_statSync | intro; apply emits_ret].
    + intro. apply emits_ret.
  - intro srcDirStat. apply emits_bind.
    + destruct srcDirStat as [[| |]|]; try apply emits_ret;
        (apply emits_bind; [apply emits_console_error | intro; apply emits_ret]).
    + intros [|]; [|apply emits_ret].
      apply emits_bind; [apply emits_console_error | intro; apply emits_console_error].
Qed.

Lemma emits_walk_entries (callback : string -> option PackageValue -> M unit)
    (recurse : string -> M unit) (dirPath : string) (entries : list string) :
  (forall p o, emits P (callback p o)) -> (forall p, emits P (recurse p)) ->
  emits P (walk_entries callback recurse dirPath entries).
Proof.
  intros Hcb Hrec. induction entries as [|entry rest IH]; cbn [walk_entries].
  - apply emits_ret.
  - apply emits_bind; [apply emits_fs_statSync|]. intro stat.
    apply emits_bind; [|intro; exact IH].
    destruct stat; [apply Hcb | apply Hrec | apply emits_ret].
Qed.

Lemma starts_at_emits {A} (dirPath : string) (m : M A) :
  starts_at P dirPath m -> emits P m.
Proof.
  intros H st. destruct (H st) as [evs [Ht [Hp _]]]. now exists evs.
Qed.

Lemma starts_at_outOfFuel {A} (dirPath : string) : starts_at P dirPath (@outOfFuel A).
Proof. intro st. exists []. simpl. rewrite app_nil_r. auto. Qed.

Lemma starts_at_readdir {A} (dirPath : string) (k : list string -> M A) :
  (forall entries, emits P (k entries)) ->
  starts_at P dirPath (bind (fs_readdirSync dirPath) k).
Proof.
  intros Hk st. unfold bind. rewrite fs_readdirSync_run.
  destruct (readdirSync dirPath) as [entries|].
  - destruct (Hk entries (add_trace st [EvReaddirSync dirPath])) as [evs [Ht Hp]].
    exists (EvReaddirSync dirPath :: evs). split; [|split].
    + rewrite Ht. cbn [trace add_trace]. now rewrite <- app_assoc.
    + simpl. now rewrite P_readdir, Hp.
    + right. now exists evs.
  - exists [EvReaddirSync dirPath]. split; [reflexivity|]. split.
    + simpl. now rewrite P_readdir.
    + right. now exists [].
Qed.

Lemma starts_walkers (callback : string -> option PackageValue -> M unit) (fuel : nat) :
  (forall p o, emits P (callback p o)) ->
  (forall dirPath recurse, starts_at P dirPath (_walk fuel dirPath callback recurse)) /\
  (forall this dirPath, starts_at P dirPath (_walkRoot fuel this dirPath callback)).
Proof.
  intro Hcb. induction fuel as [|fuel [IHwalk IHroot]].
  - split; intros; apply starts_at_outOfFuel.
  - split.
    + intros dirPath recurse. rewrite walk_unfold.
      apply starts_at_readdir. intro entries.
      apply emits_walk_entries; [assumption|].
      intro p. apply (starts_at_emits p).
      destruct recurse; [apply IHwalk | apply IHroot].
    + intros this dirPath. cbn [_walkRoot].
      apply starts_at_readdir. intro entries.
      destruct (existsb _ entries).
      * apply emits_bind.
        -- unfold console_log. apply emits_try_catch.
           ++ apply emits_bind; [apply emits_require_module|]. intro v.
              apply emits_bind; [now apply emits_emit | intro; apply emits_ret].
           ++ intro e. apply emits_bind; [apply emits_console_error | intro; apply emits_ret].
        -- intros [[|directories_src descriptor]|];
             try apply emits_console_error.
           apply emits_bind; [apply emits_checkSrcDir|]. intros _.
           apply emits_bind; [apply Hcb|]. intros _.
           destruct this; [|apply emits_throw].
           apply (starts_at_emits (path_resolve2 dirPath (srcDirName directories_src))).
           apply IHroot.
      * destruct this; [|apply emits_throw].
        apply (starts_at_emits dirPath). apply IHwalk.
Qed.

End WalkStarts.

Section ConfigUse.

Context {W : World}.

Variable config : ESDocConfig.

Lemma opt_is_refl (p : string) : opt_is p (Some p) = true.
Proof. apply String.eqb_refl. Qed.

Lemma quiet_from_config (evs : list Event) :
  forallb (from_config_quiet config) evs = true ->
  forallb (from_config config) evs = true /\ find is_readdir evs = None.
Proof.
  induction evs as [|ev evs IH]; simpl; [auto|].
  unfold from_config_quiet at 1. intro H.
  apply andb_true_iff in H. destruct H as [H Hrest].
  apply andb_true_iff in H. destruct H as [Hc Hq].
  destruct (IH Hrest) as [Hall Hnone]. rewrite Hc, Hall.
  apply negb_true_iff in Hq. now rewrite Hq.
Qed.

Lemma find_readdir_app (l1 l2 : list Event) :
  find is_readdir (l1 ++ l2)
  = match find is_readdir l1 with
    | Some ev => Some ev
    | None => find is_readdir l2
    end.
Proof.
  induction l1 as [|ev l1 IH]; simpl; [reflexivity|].
  now destruct (is_readdir ev).
Qed.

(** A step that lists no directory, before the rest of the run. *)
Lemma uses_bind_quiet {A} (Q : A -> Prop) (m : M A) (k : A -> M unit) :
  emits (from_config_quiet config) m ->
  (forall st a st', m st = (Ok a, st') -> Q a) ->
  (forall a, Q a -> forall st, exists evs,
        trace (snd (k a st)) = trace st ++ evs /\ uses_config config evs) ->
  forall st, exists evs,
    trace (snd (bind m k st)) = trace st ++ evs /\ uses_config config evs.
Proof.
  intros Hm HQ Hk st. unfold bind. destruct (Hm st) as [e1 [Ht1 Hp1]].
  destruct (quiet_from_config e1 Hp1) as [Hc1 Hn1].
  destruct (m st) as [[a|e|c|] st1] eqn:Hrun; simpl in *;
    [| exists e1; split; [assumption | split; [assumption | intro d; rewrite Hn1; discriminate]] ..].
  destruct (Hk a (HQ st a st1 Hrun) st1) as [e2 [Ht2 [Hc2 Hd2]]].
  exists (e1 ++ e2). split; [now rewrite Ht2, Ht1, app_assoc|]. split.
  - now rewrite forallb_app, Hc1, Hc2.
  - intro d. rewrite find_readdir_app, Hn1. apply Hd2.
Qed.

(** The walk, between steps that list no directory. *)
Lemma uses_walk_bind (dirPath : string) (m : M unit) (k : unit -> M unit) :
  starts_at (from_config config) dirPath m -> walk_dir config = Some dirPath ->
  (forall a, emits (from_config_quiet config) (k a)) ->
  forall st, exists evs,
    trace (snd (bind m k st)) = trace st ++ evs /\ uses_config config evs.
Proof.
  intros Hm Hdir Hk st. unfold bind. destruct (Hm st) as [e1 [Ht1 [Hp1 Hs1]]].
  assert (Hfirst : forall l d, find is_readdir (e1 ++ l) = Some (EvReaddirSync d) ->
                               find is_readdir l = None -> walk_dir config = Some d).
  { intros l d. destruct Hs1 as [->|[rest ->]]; simpl.
    - intros H1 H2. rewrite H1 in H2. discriminate.
    - intros H1 _. injection H1 as <-. exact Hdir. }
  destruct (m st) as [[a|e|c|] st1]; simpl in *;
    [| exists e1; split; [assumption | split; [assumption|]];
       intros d Hd; apply (Hfirst [] d); [now rewrite app_nil_r | reflexivity] ..].
  destruct (Hk a st1) as [e2 [Ht2 Hp2]].
  destruct (quiet_from_config e2 Hp2) as [Hc2 Hn2].
  exists (e1 ++ e2). split; [now rewrite Ht2, Ht1, app_assoc|]. split.
  - now rewrite forallb_app, Hp1, Hc2.
  - intros d Hd. now apply (Hfirst e2 d).
Qed.

(** The callbacks parse only what the patterns of the configuration
    accept. *)
Lemma config_traverse (inDirPath filePath : string)
    (packageName mainFilePath : option string) :
  accepted_by config filePath = true ->
  emits (from_config config) (_traverse inDirPath filePath packageName mainFilePath).
Proof.
  intro Hacc. unfold _traverse, log_verbose.
  apply emits_bind; [now apply emits_emit|]. intros _.
  apply emits_bind; [now apply emits_emit|]. intros _.
  destruct (ESParser_parse filePath) as [ast|e].
  - apply emits_bind; [apply emits_get_docSeq|].
    intro seq. destruct (extract _ _ _ _ _ _) as [[docs|node] seq'].
    + apply emits_bind; [apply emits_set_docSeq | intros _; apply emits_ret].
    + apply emits_bind; [apply emits_set_docSeq|]. intros _.
      apply emits_bind; [now apply emits_emit | intros _; apply emits_throw].
  - apply emits_bind; [now apply emits_emit | intros _; apply emits_ret].
Qed.

Lemma config_walkCallback (cl : Closure) (filePath : string) :
  (forall f, is_accepted cl f = true -> accepted_by config f = true) ->
  emits (from_config config) (walkCallback cl filePath).
Proof.
  intro Hcl. unfold walkCallback.
  destruct (someMatch (cl_includes cl) _) eqn:Hi; cbn [negb]; [|apply emits_ret].
  destruct (someMatch (cl_excludes cl) _) eqn:He; [apply emits_ret|].
  assert (Hacc : accepted_by config filePath = true).
  { apply Hcl. unfold is_accepted. now rewrite Hi, He. }
  unfold log_info.
  apply emits_bind; [now apply emits_emit|]. intros _.
  apply emits_bind; [now apply config_traverse|].
  intros [[docs ast]|]; [|apply emits_ret].
  apply emits_bind; [apply emits_results_push|]. intros _.
  now apply emits_stream_write.
Qed.

Lemma config_walkRootCallback (cl : Closure) (filePath : string)
    (fileContents : option PackageValue) :
  (forall f, is_accepted cl f = true -> accepted_by config f = true) ->
  emits (from_config config) (walkRootCallback cl filePath fileContents).
Proof.
  intro Hcl. unfold walkRootCallback. destruct (_ =? _)%string.
  - apply emits_results_push.
  - now apply config_walkCallback.
Qed.

(** The steps around the walk read the package file and the index file
    of the configuration, and write to its destination. *)
Lemma quiet_fs_readFileSync (p : string) :
  opt_is p (package config) || opt_is p (index config) = true ->
  emits (from_config_quiet config) (fs_readFileSync p).
Proof.
  intro H. unfold fs_readFileSync. apply emits_bind.
  - apply emits_emit. unfold from_config_quiet. simpl. now rewrite H.
  - intros _. destruct (readFileSync p); [apply emits_ret | apply emits_throw].
Qed.

Lemma quiet_readPackageNameMain :
  emits (from_config_quiet config) (readPackageNameMain config).
Proof.
  unfold readPackageNameMain.
  destruct (as_truthy (package config)) as [p|] eqn:Hp; [|apply emits_ret].
  apply as_truthy_Some in Hp. destruct Hp as [Hp _].
  apply emits_try_catch; [|intro; apply emits_ret].
  apply emits_bind.
  - apply quiet_fs_readFileSync. now rewrite Hp, opt_is_refl.
  - intro text. destruct (JSON_parse_name_main text); [apply emits_ret | apply emits_throw].
Qed.

Lemma quiet_pushIndex :
  emits (from_config_quiet config)
        (if truthy (index config)
         then tag <- _generateForIndex config ;; results_push [tag]
         else ret tt).
Proof.
  destruct (truthy (index config)); [|apply emits_ret].
  apply emits_bind; [|intro; apply emits_results_push].
  unfold _generateForIndex.
  destruct (index config) as [indexPath|] eqn:Hi; [|apply emits_throw].
  apply emits_bind; [|intro; apply emits_ret].
  apply quiet_fs_readFileSync. now rewrite Hi, opt_is_refl, orb_true_r.
Qed.

Lemma quiet_pushOldPackage :
  emits (from_config_quiet config)
        (if truthy (package config)
         then tag <- _generateForOldPackageJSON config ;; results_push [tag]
         else ret tt).
Proof.
  destruct (truthy (package config)); [|apply emits_ret].
  apply emits_bind; [|intro; apply emits_results_push].
  unfold _generateForOldPackageJSON. apply emits_bind.
  - apply emits_try_catch; [|intro; apply emits_ret].
    destruct (package config) as [p|] eqn:Hp; [|apply emits_throw].
    apply emits_bind; [|intro; apply emits_ret].
    apply quiet_fs_readFileSync. now rewrite Hp, opt_is_refl.
  - intros [packageJSON packagePath]. apply emits_ret.
Qed.

Lemma compileAll_value (patterns regs : list string) (st st' : RunState) :
  compileAll patterns st = (Ok regs, st') -> regs = patterns.
Proof.
  rewrite compileAll_run. destruct (firstInvalidPattern patterns); [discriminate|].
  intro H. now injection H as <- _.
Qed.

(** Lines 46-162 take every setting from the configuration they are
    given. *)
Lemma generate_run_uses_config (fuel : nat) (st : RunState) :
  exists evs,
    trace (snd (generate_run fuel config st)) = trace st ++ evs /\
    uses_config config evs.
Proof.
  revert st. unfold generate_run.
  apply (uses_bind_quiet (fun incs => includes config = Some incs)).
  { destruct (includes config); [apply emits_compileAll | apply emits_throw]. }
  { intros st incs st' H. destruct (includes config) as [l|]; [|discriminate].
    now rewrite (compileAll_value _ _ _ _ H). }
  intros incs Hincs.
  apply (uses_bind_quiet (fun excs => excludes config = Some excs)).
  { destruct (excludes config); [apply emits_compileAll | apply emits_throw]. }
  { intros st excs st' H. destruct (excludes config) as [l|]; [|discriminate].
    now rewrite (compileAll_value _ _ _ _ H). }
  intros excs Hexcs.
  apply (uses_bind_quiet (fun _ => True)); [apply quiet_readPackageNameMain | auto |].
  intros [packageName mainFilePath] _.
  apply (uses_bind_quiet (fun _ => True)); [apply emits_set_results | auto |].
  intros _ _.
  apply (uses_bind_quiet (fun s => source config = Some s)).
  { destruct (source config); [apply emits_ret | apply emits_throw]. }
  { intros st s st' H. destruct (source config) as [s'|]; [|discriminate].
    now injection H as <- _. }
  intros source_ Hsrc.
  set (cl := mkClosure source_ incs excs (path_resolve source_) packageName mainFilePath).
  assert (Hcl : forall f, is_accepted cl f = true -> accepted_by config f = true).
  { intros f Hf. unfold accepted_by. rewrite Hincs, Hexcs, Hsrc. exact Hf. }
  assert (Hwalk : exists dirPath,
             walk_dir config = Some dirPath /\
             starts_at (from_config config) dirPath
               (match as_truthy (root config) with
                | Some root_ => _walkRoot fuel ThisESDoc root_ (walkRootCallback cl)
                | None => _walk fuel source_ (fileCallback cl) RecurseWalk
                end)).
  { unfold walk_dir. destruct (as_truthy (root config)) as [root_|].
    - exists root_. split; [reflexivity|].
      apply starts_walkers; try reflexivity.
      intros p o. now apply config_walkRootCallback.
    - exists source_. split; [assumption|].
      apply starts_walkers; try reflexivity.
      intros p o. now apply config_walkCallback. }
  destruct Hwalk as [dirPath [Hdir Hstart]].
  apply (uses_walk_bind dirPath); [assumption | assumption |].
  intros _.
  apply emits_bind; [now apply emits_emit|]. intros _.
  apply emits_bind; [apply quiet_pushIndex|]. intros _.
  apply emits_bind; [apply quiet_pushOldPackage|]. intros _.
  apply emits_bind; [apply emits_get_results|]. intro docs.
  apply emits_bind; [apply emits_set_results|]. intros _.
  apply emits_bind; [apply emits_get_results|]. intro docs1.
  apply emits_bind; [now apply emits_emit|]. intros _.
  apply emits_bind; [apply emits_set_results|]. intros _.
  apply emits_bind; [apply emits_get_results|]. intro docs2.
  destruct (destination config) as [dest|] eqn:Hdest; [|apply emits_throw].
  apply emits_emit. unfold from_config_quiet. simpl.
  now rewrite Hdest, String.eqb_refl.
Qed.

End ConfigUse.

Section ConfigLifecycle.

Context {W : World}.

(** C9 (amended). In a run that passes validation, [Plugin.init],
    [Plugin.onStart] and [Plugin.onHandleConfig] are called once each,
    in this order, the hook receiving the configuration as it was given,
    before any default is applied.  The defaults are then applied to the
    configuration the hook returned, which gives [config'], with
    [includes], [excludes] and [index] set.  The rest of the run uses
    [config'] unchanged: none of the three plugin calls happens again;
    every file read is the package file or the index file of [config'];
    every file parsed passes the include and exclude patterns of
    [config'], relative to its source directory; the first directory
    listed is the root of [config'], or its source directory when it has
    no root; and a run that ends normally ends with the write of
    [index.json] in the destination of [config']. *)
Theorem config_hook_then_defaults (fuel : nat) (config : ESDocConfig) (st : RunState) :
  valid_config config = true -> no_old_keys config = true ->
  let config' := _setDefaultConfig (Plugin_onHandleConfig config) in
  let run := generate fuel config st in
  run = generate_run fuel config'
          (add_trace st [EvPluginInit (plugins config); EvPluginOnStart;
                         EvPluginOnHandleConfig config])
  /\ includes config' <> None /\ excludes config' <> None
  /\ truthy (index config') = true
  /\ exists evs,
       trace (snd run)
       = trace st ++ [EvPluginInit (plugins config); EvPluginOnStart;
                      EvPluginOnHandleConfig config] ++ evs
       /\ forallb (from_config config') evs = true
       /\ (forall d, find is_readdir evs = Some (EvReaddirSync d) ->
                     walk_dir config' = Some d)
       /\ (fst run = Ok tt ->
           exists evs' dest,
             destination config' = Some dest /\
             evs = evs' ++ [EvOutputFileSync (path_resolve2 dest "index.json")
                                             (results (snd run))]).
Proof.
  intros Hv Hk config' run.
  assert (Hrun : run = generate_run fuel config'
                         (add_trace st [EvPluginInit (plugins config); EvPluginOnStart;
                                        EvPluginOnHandleConfig config]))
    by (now apply generate_valid).
  split; [exact Hrun|].
  split; [subst config'; unfold _setDefaultConfig; simpl; destruct (includes _); discriminate|].
  split; [subst config'; unfold _setDefaultConfig; simpl; destruct (excludes _); discriminate|].
  split.
  { subst config'. unfold _setDefaultConfig. simpl.
    destruct (truthy (index (Plugin_onHandleConfig config))) eqn:Hi;
      [assumption | reflexivity]. }
  set (st0 := add_trace st [EvPluginInit (plugins config); EvPluginOnStart;
                            EvPluginOnHandleConfig config]) in *.
  destruct (generate_run_uses_config config' fuel st0) as [evs [Ht [Hall Hdir]]].
  exists evs. rewrite Hrun.
  split; [rewrite Ht; subst st0; cbn [trace add_trace]; now rewrite <- app_assoc|].
  split; [exact Hall|]. split; [exact Hdir|].
  intro Hok.
  destruct (index_last_generate_run fuel config' st0) as [evs2 [Ht2 Hlast]].
  rewrite Hok in Hlast. destruct Hlast as [evs' [p [Hevs _]]].
  assert (Heq : evs = evs2).
  { rewrite Ht in Ht2. now apply app_inv_head in Ht2. }
  rewrite <- Heq in Hevs. clear Heq Ht2. rewrite Hevs in Hall.
  rewrite forallb_app in Hall. apply andb_true_iff in Hall. destruct Hall as [_ Hout].
  cbn [forallb from_config] in Hout. rewrite andb_true_r in Hout.
  destruct (destination config') as [dest|]; [|discriminate].
  apply String.eqb_eq in Hout. subst p.
  exists evs', dest. split; [reflexivity | exact Hevs].
Qed.

End ConfigLifecycle.

Lemma config_hook_then_defaults_witness :
  let config' := _setDefaultConfig (@Plugin_onHandleConfig srcWorld srcConfig) in
  let run := @generate srcWorld 3 srcConfig initialState in
  run = @generate_run srcWorld 3 config'
          (add_trace initialState [EvPluginInit (plugins srcConfig); EvPluginOnStart;
                                   EvPluginOnHandleConfig srcConfig])
  /\ includes config' <> None /\ excludes config' <> None
  /\ truthy (index config') = true
  /\ exists evs,
       trace (snd run)
       = trace initialState ++ [EvPluginInit (plugins srcConfig); EvPluginOnStart;
                                EvPluginOnHandleConfig srcConfig] ++ evs
       /\ forallb (@from_config srcWorld config') evs = true
       /\ (forall d, find is_readdir evs = Some (EvReaddirSync d) ->
                     walk_dir config' = Some d)
       /\ (fst run = Ok tt ->
           exists evs' dest,
             destination config' = Some dest /\
             evs = evs' ++ [EvOutputFileSync (@path_resolve2 srcWorld dest "index.json")
                                             (results (snd run))]).
Proof.
  apply (@config_hook_then_defaults srcWorld 3 srcConfig initialState); reflexivity.
Defined.
